(** * The darwin gamepad backend of ebiten, embedded in Rocq

    A shallow embedding of [internal/gamepad/gamepad_darwin.go]: the value
    sampler ([update] and the accessors), the identifier computed when a
    device is attached, the classification of a device's elements into
    axes, buttons and hats, and the two hot-plug callbacks; and of the
    state of the user interface of package [ui]: the window position, the
    stored error and the flags.

    Conventions.
    - A Go [int] is a [Z]; the two subtractions of [update] wrap around at
      64 bits ([GoInt.sub]).
    - A Go [float64] is a binary64 float of the standard library
      ([SpecFloat]); the bounds on the axis value are proved through the
      rounding of the exact results ([Rounding]).
    - A slice is its visible elements together with the rest of its backing
      array ([slice]); an operation that panics in Go returns [None].
    - What the C side answers (element values, device properties, element
      descriptors) is an explicit argument. *)

From Corelib Require Import SpecFloat.
From Stdlib Require Import ZArith QArith Qround Qpower Qabs Lia Lqa.
From Stdlib Require Import Ascii String Sorting.Sorted.
From stdpp Require Import base option list strings.

(** ** Part I: the model *)

(** *** Go integers *)

Module GoInt.
Local Open Scope Z_scope.

Definition min_int : Z := - 2 ^ 63.
Definition max_int : Z := 2 ^ 63 - 1.

(** The value of an [int] expression whose mathematical value is [z]. *)
Definition wrap (z : Z) : Z := (z + 2 ^ 63) mod 2 ^ 64 - 2 ^ 63.

Definition sub (x y : Z) : Z := wrap (x - y).

(** [byte(v)] for an unsigned [v]. *)
Definition byte (v : Z) : Z := v mod 256.

End GoInt.

(** *** float64 arithmetic *)

(** A [float64] is a binary64 float of the standard library ([SpecFloat]
    with precision 53 and [emax] 1024), and the operations are its. *)
Module Float64.

Abbreviation float64 := spec_float.

Definition zero : float64 := S754_zero false.

(** [float64(n)] for an [int] [n], and an integer constant used as a
    [float64]. *)
Definition of_int (n : Z) : float64 := binary_normalize 53 1024 n 0 false.

Definition mul (x y : float64) : float64 := SFmul 53 1024 x y.
Definition div (x y : float64) : float64 := SFdiv 53 1024 x y.
Definition sub (x y : float64) : float64 := SFsub 53 1024 x y.

(** The number a finite float denotes, and the number a float denotes when
    it is neither an infinity nor a NaN. *)
Definition F2Q (s : bool) (m : positive) (e : Z) : Q :=
  (inject_Z (cond_Zopp s (Z.pos m)) * 2 ^ e)%Q.

Definition toQ (x : float64) : option Q :=
  match x with
  | S754_zero _ => Some 0%Q
  | S754_finite s m e => Some (F2Q s m e)
  | _ => None
  end.

End Float64.

Abbreviation float64 := Float64.float64.

(** *** Rounding of rationals *)

(** What the operations of [Float64] compute, on the numbers the floats
    denote: the exact result rounded to the nearest number of 53
    significant bits, ties to even.  The exponent range is left out; the
    properties of [Float64] below are proved through it. *)
Module Rounding.
Local Open Scope Q_scope.

(** Round to the nearest integer, ties to the even one. *)
Definition rne (q : Q) : Z :=
  let f := Qfloor q in
  match Qcompare (q - inject_Z f) (1 # 2) with
  | Lt => f
  | Gt => (f + 1)%Z
  | Eq => if Z.even f then f else (f + 1)%Z
  end.

(** The binary exponent of a positive rational:
    [2 ^ ilog2 x <= x < 2 ^ (ilog2 x + 1)]. *)
Definition ilog2 (x : Q) : Z :=
  let k := (Z.log2 (Qnum x) - Z.log2 (Zpos (Qden x)))%Z in
  if Qle_bool (2 ^ k) x then k else (k - 1)%Z.

Definition prec : Z := 53.

(** Rounding to a multiple of [2 ^ e]. *)
Definition rnd_at (e : Z) (x : Q) : Q := inject_Z (rne (x / 2 ^ e)) * 2 ^ e.

(** Rounding of a positive rational to [prec] significant bits. *)
Definition round_pos (x : Q) : Q := rnd_at (ilog2 x - (prec - 1)) x.

Definition round (x : Q) : Q :=
  match Qcompare x 0 with
  | Eq => 0
  | Gt => Qred (round_pos x)
  | Lt => Qred (- round_pos (- x))
  end.

Definition of_int (n : Z) : Q := round (inject_Z n).
Definition mul (x y : Q) : Q := round (x * y).
Definition div (x y : Q) : Q := round (x / y).
Definition sub (x y : Q) : Q := round (x - y).

(** [u] lies in [[m, m + 1)] for the mantissa [m] of the record, at the
    place the two bits of the record say: on [m], below, on or above the
    middle. *)
Definition located (u : Q) (mrs : shr_record) : Prop :=
  match shr_r mrs, shr_s mrs with
  | false, false => u == inject_Z (shr_m mrs)
  | false, true => inject_Z (shr_m mrs) < u /\ u < inject_Z (shr_m mrs) + (1 # 2)
  | true, false => u == inject_Z (shr_m mrs) + (1 # 2)
  | true, true => inject_Z (shr_m mrs) + (1 # 2) < u /\ u < inject_Z (shr_m mrs) + 1
  end.

Definition half : Q := 1 # 2.

Definition sgn (s : bool) (p : Q) : Q := if s then - p else p.

(** The exponent of a float is not outside the given range. *)
Definition exp_in (lo hi : Z) (x : spec_float) : Prop :=
  match x with
  | S754_finite _ _ e => (lo <= e <= hi)%Z
  | _ => True
  end.

(** [x] is a zero or a normal float of 53 digits that denotes [q]. *)
Inductive represents : spec_float -> Q -> Prop :=
  | represents_zero (s : bool) (q : Q) :
      q == 0 -> represents (S754_zero s) q
  | represents_finite (s : bool) (m : positive) (e : Z) (q : Q) :
      (2 ^ 52 <= Z.pos m < 2 ^ 53)%Z -> (-1000 <= e <= 900)%Z ->
      q == Float64.F2Q s m e -> represents (S754_finite s m e) q.

End Rounding.

(** *** Slices *)

Section Slice.
Context {A : Type}.

(** [elts] are the elements [s[0] .. s[len(s)-1]]; [spare] is what the
    backing array holds behind them, so [cap(s)] is the length of both. *)
Record slice : Type := Slice { elts : list A; spare : list A }.

Definition nil_slice : slice := Slice [] [].

Definition len (s : slice) : nat := length (elts s).
Definition cap (s : slice) : nat := length (elts s) + length (spare s).

(** [make([]A, n)], every element the zero value. *)
Definition make (zero : A) (n : nat) : slice := Slice (replicate n zero) [].

(** [s[:n]]; panics when [n] exceeds the capacity. *)
Definition reslice (n : nat) (s : slice) : option slice :=
  if decide (n <= cap s)
  then Some (Slice (take n (elts s ++ spare s)) (drop n (elts s ++ spare s)))
  else None.

(** [s[i]]; panics when [i] is not below the length. *)
Definition slice_get (s : slice) (i : nat) : option A := elts s !! i.

(** [s[i] = v]; panics when [i] is not below the length. *)
Definition slice_set (s : slice) (i : nat) (v : A) : option slice :=
  if decide (i < len s) then Some (Slice (<[i := v]> (elts s)) (spare s)) else None.

End Slice.

Arguments slice : clear implicits.

(** *** The native gamepad and its value sampler *)

Local Open Scope Z_scope.

(** Native references are pointers; [0] is the null reference. *)
Definition IOHIDDeviceRef : Type := Z.
Definition IOHIDElementRef : Type := Z.

(** Modelled from the spec: the hat-state constants [hatCentered], [hatUp],
    ... are declared in another file of the package; the spec gives them as
    nine distinct states. *)
Inductive hatState_t : Type :=
  | hatCentered | hatUp | hatRightUp | hatRight | hatRightDown
  | hatDown | hatLeftDown | hatLeft | hatLeftUp.

#[global] Instance hatState_t_eq_dec : EqDecision hatState_t.
Proof. solve_decision. Defined.

Record element : Type := Element {
  native : IOHIDElementRef;
  usage : Z;
  index : Z;
  minimum : Z;
  maximum : Z
}.

Abbreviation elements := (list element).

Record nativeGamepad : Type := NativeGamepad {
  device : IOHIDDeviceRef;
  axes : elements;
  buttons : elements;
  hats : elements;
  axisValues : slice float64;
  buttonValues : slice bool;
  hatValues : slice hatState_t
}.

(** What [IOHIDDeviceGetValue] followed by [IOHIDValueGetIntegerValue]
    answers for an element of a device: [None] when the call does not return
    [kIOReturnSuccess]. *)
Definition hid_values : Type := IOHIDDeviceRef -> IOHIDElementRef -> option Z.

Definition present (g : nativeGamepad) : bool := negb (device g =? 0).

Definition elementValue (hid : hid_values) (g : nativeGamepad) (e : element) : Z :=
  if device g =? 0 then 0
  else match hid (device g) (native e) with
       | Some v => v
       | None => 0
       end.

(** The first lines of [update], once per buffer: a buffer whose capacity is
    too small is replaced, then resliced to the number of elements. *)
Definition resize {A : Type} (zero : A) (n : nat) (s : slice A) : option (slice A) :=
  reslice n (if decide (cap s < n)%nat then make zero n else s).

Definition set_minimum (raw : Z) (a : element) : element :=
  Element (native a) (usage a) (index a) raw (maximum a).

Definition set_maximum (raw : Z) (a : element) : element :=
  Element (native a) (usage a) (index a) (minimum a) raw.

(** The two [if]s on the loop variable [a] of the axis loop. *)
Definition widen (raw : Z) (a : element) : element :=
  let a := if raw <? minimum a then set_minimum raw a else a in
  if raw >? maximum a then set_maximum raw a else a.

(** The value stored for an axis, from the reading and the loop variable
    after the two [if]s. *)
Definition axis_value (raw : Z) (a : element) : float64 :=
  let size := GoInt.sub (maximum a) (minimum a) in
  if size =? 0 then Float64.zero
  else Float64.sub
         (Float64.div
            (Float64.mul (Float64.of_int 2) (Float64.of_int (GoInt.sub raw (minimum a))))
            (Float64.of_int size))
         (Float64.of_int 1).

(** [for i, e := range l { vals[i] = body(e) }], from index [i] on.  The
    loop variable [e] is a copy of [l[i]]: what the body assigns to its
    fields stays in the copy. *)
Fixpoint range_store {A : Type} (body : element -> option A) (i : nat)
    (l : elements) (vals : slice A) : option (slice A) :=
  match l with
  | [] => Some vals
  | e :: l' =>
      v ← body e;
      vals' ← slice_set vals i v;
      range_store body (S i) l' vals'
  end.

(** The body of the axis loop: the reading, the two [if]s on the loop
    variable [a], and the value. *)
Definition axis_body (hid : hid_values) (g : nativeGamepad) (a : element) : float64 :=
  let raw := elementValue hid g a in
  let a := widen raw a in
  axis_value raw a.

Definition button_body (hid : hid_values) (g : nativeGamepad) (b : element) : bool :=
  elementValue hid g b >? 0.

Definition hatStates : list hatState_t :=
  [hatUp; hatRightUp; hatRight; hatRightDown; hatDown; hatLeftDown; hatLeft; hatLeftUp].

(** The body of the hat loop; [hatStates[state]] panics out of range. *)
Definition hat_body (hid : hid_values) (g : nativeGamepad) (h : element) : option hatState_t :=
  let state := elementValue hid g h in
  if (state <? 0) || (state >=? Z.of_nat (length hatStates)) then Some hatCentered
  else hatStates !! Z.to_nat state.

Definition update (hid : hid_values) (g : nativeGamepad) : option nativeGamepad :=
  av ← resize Float64.zero (length (axes g)) (axisValues g);
  bv ← resize false (length (buttons g)) (buttonValues g);
  hv ← resize hatCentered (length (hats g)) (hatValues g);
  av ← range_store (λ a, Some (axis_body hid g a)) 0 (axes g) av;
  bv ← range_store (λ b, Some (button_body hid g b)) 0 (buttons g) bv;
  hv ← range_store (hat_body hid g) 0 (hats g) hv;
  Some (NativeGamepad (device g) (axes g) (buttons g) (hats g) av bv hv).

(** The hat state the spec gives for a reading: the eight directions for
    0 to 7, centered for anything else. *)
Definition hat_decode (state : Z) : hatState_t :=
  match state with
  | 0 => hatUp
  | 1 => hatRightUp
  | 2 => hatRight
  | 3 => hatRightDown
  | 4 => hatDown
  | 5 => hatLeftDown
  | 6 => hatLeft
  | 7 => hatLeftUp
  | _ => hatCentered
  end.

Definition axisNum (g : nativeGamepad) : Z := Z.of_nat (len (axisValues g)).
Definition buttonNum (g : nativeGamepad) : Z := Z.of_nat (len (buttonValues g)).
Definition hatNum (g : nativeGamepad) : Z := Z.of_nat (len (hatValues g)).

(** The accessors have a pointer receiver: they answer a value together
    with the gamepad they leave behind. *)
Definition axisValue (g : nativeGamepad) (axis : Z) : option (float64 * nativeGamepad) :=
  if (axis <? 0) || (axis >=? Z.of_nat (len (axisValues g))) then Some (Float64.zero, g)
  else v ← slice_get (axisValues g) (Z.to_nat axis); Some (v, g).

Definition isButtonPressed (g : nativeGamepad) (button : Z) : option (bool * nativeGamepad) :=
  if (button <? 0) || (button >=? Z.of_nat (len (buttonValues g))) then Some (false, g)
  else v ← slice_get (buttonValues g) (Z.to_nat button); Some (v, g).

Definition hatState (g : nativeGamepad) (hat : Z) : option (hatState_t * nativeGamepad) :=
  if (hat <? 0) || (hat >=? Z.of_nat (len (hatValues g))) then Some (hatCentered, g)
  else v ← slice_get (hatValues g) (Z.to_nat hat); Some (v, g).

(** *** The identifier of a device *)

Definition hex_digit (n : Z) : ascii :=
  ascii_of_nat (Z.to_nat (if n <? 10 then 48 + n else 87 + n)).

(** [%02x] of a byte: its two lower-case hexadecimal digits. *)
Definition fmt_02x (b : Z) : string :=
  String (hex_digit (b / 16)) (String (hex_digit (b mod 16)) EmptyString).

(** The values of the type [byte]. *)
Definition is_byte (b : Z) : Prop := 0 <= b < 256.

(** Consecutive [%02x] verbs, one per byte. *)
Fixpoint hex_bytes (bs : list Z) : string :=
  match bs with
  | [] => ""
  | b :: bs' => fmt_02x b +:+ hex_bytes bs'
  end.

(** [[]byte(name)] *)
Definition bytes_of_string (name : string) : list Z :=
  (λ c, Z.of_nat (nat_of_ascii c)) <$> list_ascii_of_string name.

(** The [if] that sets [sdlID] in [ebitenGamepadMatchingCallback]. *)
Definition sdlID (name : string) (vendor product version : Z) : option string :=
  if negb (vendor =? 0) && negb (product =? 0) then
    Some ("03000000"
          +:+ fmt_02x (GoInt.byte vendor) +:+ fmt_02x (GoInt.byte (vendor ≫ 8))
          +:+ "0000"
          +:+ fmt_02x (GoInt.byte product) +:+ fmt_02x (GoInt.byte (product ≫ 8))
          +:+ "0000"
          +:+ fmt_02x (GoInt.byte version) +:+ fmt_02x (GoInt.byte (version ≫ 8))
          +:+ "0000")
  else
    let bs := bytes_of_string name in
    let bs := if decide (length bs < 12)%nat
              then bs ++ replicate (12 - length bs) 0 else bs in
    args ← mapM (λ i, bs !! i) (seq 0 12);
    Some ("05000000" +:+ hex_bytes args).

(** The twelve bytes of a name that its identifier shows: the first
    twelve, zeros filling up a shorter name. *)
Definition name_bytes (name : string) : list Z :=
  take 12 (bytes_of_string name ++ replicate 12 0).

(** Reading an identifier back: the value of a hexadecimal digit, of a pair
    of digits, and of every pair of a string. *)
Definition unhex_digit (c : ascii) : option Z :=
  let n := Z.of_nat (nat_of_ascii c) in
  if (48 <=? n) && (n <=? 57) then Some (n - 48)
  else if (97 <=? n) && (n <=? 102) then Some (n - 87)
  else None.

Fixpoint unhex (s : string) : option (list Z) :=
  match s with
  | EmptyString => Some []
  | String c1 (String c2 s') =>
      h ← unhex_digit c1; l ← unhex_digit c2; bs ← unhex s'; Some ((16 * h + l) :: bs)
  | String _ EmptyString => None
  end.

(** *** The classification of a device's elements *)

(** Constants of IOKit's headers. *)
Definition kIOHIDElementTypeInput_Misc : Z := 1.
Definition kIOHIDElementTypeInput_Button : Z := 2.
Definition kIOHIDElementTypeInput_Axis : Z := 3.

Definition kHIDPage_GenericDesktop : Z := 0x01.
Definition kHIDPage_Simulation : Z := 0x02.
Definition kHIDPage_Button : Z := 0x09.
Definition kHIDPage_Consumer : Z := 0x0C.

Definition kHIDUsage_GD_X : Z := 0x30.
Definition kHIDUsage_GD_Y : Z := 0x31.
Definition kHIDUsage_GD_Z : Z := 0x32.
Definition kHIDUsage_GD_Rx : Z := 0x33.
Definition kHIDUsage_GD_Ry : Z := 0x34.
Definition kHIDUsage_GD_Rz : Z := 0x35.
Definition kHIDUsage_GD_Slider : Z := 0x36.
Definition kHIDUsage_GD_Dial : Z := 0x37.
Definition kHIDUsage_GD_Wheel : Z := 0x38.
Definition kHIDUsage_GD_Hatswitch : Z := 0x39.
Definition kHIDUsage_GD_Start : Z := 0x3D.
Definition kHIDUsage_GD_Select : Z := 0x3E.
Definition kHIDUsage_GD_SystemMainMenu : Z := 0x85.
Definition kHIDUsage_GD_DPadUp : Z := 0x90.
Definition kHIDUsage_GD_DPadDown : Z := 0x91.
Definition kHIDUsage_GD_DPadRight : Z := 0x92.
Definition kHIDUsage_GD_DPadLeft : Z := 0x93.

Definition kHIDUsage_Sim_Rudder : Z := 0xBA.
Definition kHIDUsage_Sim_Throttle : Z := 0xBB.
Definition kHIDUsage_Sim_Accelerator : Z := 0xC4.
Definition kHIDUsage_Sim_Brake : Z := 0xC5.
Definition kHIDUsage_Sim_Steering : Z := 0xC8.

(** One entry of the array [IOHIDDeviceCopyMatchingElements] returns, with
    what the queries of the loop answer for it. *)
Record hid_element : Type := HidElement {
  elem_ref : IOHIDElementRef;
  elem_is_element : bool;   (* CFGetTypeID(native) == IOHIDElementGetTypeID() *)
  elem_type : Z;            (* IOHIDElementGetType *)
  elem_usage : Z;           (* IOHIDElementGetUsage *)
  elem_page : Z;            (* IOHIDElementGetUsagePage *)
  elem_logical_min : Z;     (* IOHIDElementGetLogicalMin *)
  elem_logical_max : Z      (* IOHIDElementGetLogicalMax *)
}.

(** The element appended to a bucket [l]: its index is the length of the
    bucket at that moment. *)
Definition new_element (e : hid_element) (l : elements) : element :=
  Element (elem_ref e) (elem_usage e) (Z.of_nat (length l))
          (elem_logical_min e) (elem_logical_max e).

Definition append_axis (e : hid_element) (g : nativeGamepad) : nativeGamepad :=
  NativeGamepad (device g) (axes g ++ [new_element e (axes g)]) (buttons g) (hats g)
                (axisValues g) (buttonValues g) (hatValues g).

Definition append_button (e : hid_element) (g : nativeGamepad) : nativeGamepad :=
  NativeGamepad (device g) (axes g) (buttons g ++ [new_element e (buttons g)]) (hats g)
                (axisValues g) (buttonValues g) (hatValues g).

Definition append_hat (e : hid_element) (g : nativeGamepad) : nativeGamepad :=
  NativeGamepad (device g) (axes g) (buttons g) (hats g ++ [new_element e (hats g)])
                (axisValues g) (buttonValues g) (hatValues g).

(** [case c1, c2, ...:] *)
Definition case_of (x : Z) (cs : list Z) : bool := existsb (Z.eqb x) cs.

(** The body of the loop over the elements. *)
Definition classify (g : nativeGamepad) (e : hid_element) : nativeGamepad :=
  if negb (elem_is_element e) then g
  else if negb (elem_type e =? kIOHIDElementTypeInput_Axis)
          && negb (elem_type e =? kIOHIDElementTypeInput_Button)
          && negb (elem_type e =? kIOHIDElementTypeInput_Misc) then g
  else if elem_page e =? kHIDPage_GenericDesktop then
    if case_of (elem_usage e)
         [kHIDUsage_GD_X; kHIDUsage_GD_Y; kHIDUsage_GD_Z;
          kHIDUsage_GD_Rx; kHIDUsage_GD_Ry; kHIDUsage_GD_Rz;
          kHIDUsage_GD_Slider; kHIDUsage_GD_Dial; kHIDUsage_GD_Wheel]
    then append_axis e g
    else if case_of (elem_usage e) [kHIDUsage_GD_Hatswitch]
    then append_hat e g
    else if case_of (elem_usage e)
         [kHIDUsage_GD_DPadUp; kHIDUsage_GD_DPadRight; kHIDUsage_GD_DPadDown;
          kHIDUsage_GD_DPadLeft; kHIDUsage_GD_SystemMainMenu; kHIDUsage_GD_Select;
          kHIDUsage_GD_Start]
    then append_button e g
    else g
  else if elem_page e =? kHIDPage_Simulation then
    if case_of (elem_usage e)
         [kHIDUsage_Sim_Accelerator; kHIDUsage_Sim_Brake; kHIDUsage_Sim_Throttle;
          kHIDUsage_Sim_Rudder; kHIDUsage_Sim_Steering]
    then append_axis e g
    else g
  else if case_of (elem_page e) [kHIDPage_Button; kHIDPage_Consumer] then
    append_button e g
  else g.

Definition Less (a b : element) : bool :=
  if negb (usage a =? usage b) then usage a <? usage b
  else if negb (index a =? index b) then index a <? index b
  else false.

(** [sort.Stable] of Go's library, by its contract: the elements in
    increasing order of [Less], those that [Less] does not order staying in
    their original order.  Insertion from the right does that. *)
Fixpoint stable_insert (a : element) (l : elements) : elements :=
  match l with
  | [] => [a]
  | b :: l' => if Less b a then b :: stable_insert a l' else a :: l
  end.

Fixpoint stable_sort (l : elements) : elements :=
  match l with
  | [] => []
  | a :: l' => stable_insert a (stable_sort l')
  end.

(** The loop over the elements, from the gamepad [g] that [add] returned. *)
Definition classify_all (es : list hid_element) (g : nativeGamepad) : nativeGamepad :=
  foldl classify g es.

Definition sort_buckets (g : nativeGamepad) : nativeGamepad :=
  NativeGamepad (device g) (stable_sort (axes g)) (stable_sort (buttons g))
                (stable_sort (hats g)) (axisValues g) (buttonValues g) (hatValues g).

(** *** The registry and the hot-plug callbacks *)

(** Modelled from the spec: the type [Gamepad] of the registry is declared
    in another file of the package; it carries the name and the identifier
    it was added with, and the native gamepad. *)
Record Gamepad : Type := MkGamepad {
  gp_name : string;
  gp_sdlID : string;
  gp_native : nativeGamepad
}.

Abbreviation gamepads := (list Gamepad).

Definition new_nativeGamepad : nativeGamepad :=
  NativeGamepad 0 [] [] [] nil_slice nil_slice nil_slice.

(** Modelled from the spec: [find(predicate) -> handle | none], the entry
    that matches, used for the attach dedup; the function is in another
    file of the package. *)
Definition gamepads_find (cond : Gamepad -> bool) (reg : gamepads) : option nat :=
  fst <$> list_find (λ g, cond g = true) reg.

(** Modelled from the spec: [add(name, identifier) -> handle] registers a
    new logical gamepad and returns a handle the native state is attached
    to; the function is in another file of the package. *)
Definition gamepads_add (name identifier : string) (reg : gamepads) : nat * gamepads :=
  (length reg, reg ++ [MkGamepad name identifier new_nativeGamepad]).

(** Modelled from the spec: [remove(predicate)] removes the registry entry
    matching the predicate; the function is in another file of the
    package. *)
Definition gamepads_remove (cond : Gamepad -> bool) (reg : gamepads) : gamepads :=
  filter (λ g, cond g = false) reg.

(** What the property queries of the attach callback answer for a device:
    [None] where [IOHIDDeviceGetProperty] returns null. *)
Record device_info : Type := DeviceInfo {
  info_product : option string;
  info_vendor : option Z;
  info_product_id : option Z;
  info_version : option Z;
  info_elements : list hid_element
}.

Definition set_device (dev : IOHIDDeviceRef) (g : nativeGamepad) : nativeGamepad :=
  NativeGamepad dev (axes g) (buttons g) (hats g)
                (axisValues g) (buttonValues g) (hatValues g).

Definition with_native (f : nativeGamepad -> nativeGamepad) (g : Gamepad) : Gamepad :=
  MkGamepad (gp_name g) (gp_sdlID g) (f (gp_native g)).

Definition ebitenGamepadMatchingCallback (io : IOHIDDeviceRef -> device_info)
    (dev : IOHIDDeviceRef) (reg : gamepads) : option gamepads :=
  if gamepads_find (λ g, device (gp_native g) =? dev) reg is Some _ then Some reg
  else
    let info := io dev in
    let name := default "Unknown" (info_product info) in
    let vendor := default 0 (info_vendor info) in
    let product := default 0 (info_product_id info) in
    let version := default 0 (info_version info) in
    id ← sdlID name vendor product version;
    let '(h, reg) := gamepads_add name id reg in
    Some (alter (with_native (λ g,
            sort_buckets (classify_all (info_elements info) (set_device dev g)))) h reg).

Definition ebitenGamepadRemovalCallback (dev : IOHIDDeviceRef) (reg : gamepads) : gamepads :=
  gamepads_remove (λ g, device (gp_native g) =? dev) reg.

(** *** Notions and sample devices used to state the properties *)

(** A read of element [e] fails: the device reference is null, or
    [IOHIDDeviceGetValue] does not succeed. *)
Definition read_fails (hid : hid_values) (g : nativeGamepad) (e : element) : Prop :=
  device g = 0 \/ hid (device g) (native e) = None.

(** The order [Less] sorts by: the usage first, the index among equal
    usages. *)
Definition key_le (a b : element) : Prop :=
  usage a < usage b \/ (usage a = usage b /\ index a <= index b).

(** Every element of a bucket carries its position as index: the bucket is
    in discovery order. *)
Definition in_discovery_order (l : elements) : Prop :=
  forall (i : nat) (e : element), l !! i = Some e -> index e = Z.of_nat i.

(** The bucket [sorted] holds the elements of the bucket [found] in
    increasing order of (usage, index), two elements of equal usage in the
    order in which [found] has them. *)
Definition sorted_bucket (found sorted : elements) : Prop :=
  sorted ≡ₚ found /\
  StronglySorted key_le sorted /\
  forall (p q : nat) (a b : element),
    found !! p = Some a -> found !! q = Some b -> (p < q)%nat -> usage a = usage b ->
    exists i j : nat, (i < j)%nat /\ sorted !! i = Some a /\ sorted !! j = Some b.

(** The registry has an entry for the native device [dev]. *)
Definition known (dev : IOHIDDeviceRef) (reg : gamepads) : Prop :=
  Exists (λ g, device (gp_native g) = dev) reg.

(** A pad with one X axis of logical range 0..255, one button and one hat
    switch, not sampled yet. *)
Definition sample_axis : element := Element 1 kHIDUsage_GD_X 0 0 255.
Definition sample_button : element := Element 2 1 0 0 1.
Definition sample_hat : element := Element 3 kHIDUsage_GD_Hatswitch 0 0 7.

Definition sample_pad : nativeGamepad :=
  NativeGamepad 7 [sample_axis] [sample_button] [sample_hat] nil_slice nil_slice nil_slice.

(** A registry with one entry, for the device 3, and the properties of a
    device without elements. *)
Definition sample_registry : gamepads :=
  [MkGamepad "Other" "05000000000000000000000000000000" (set_device 3 new_nativeGamepad)].

Definition sample_io : IOHIDDeviceRef -> device_info :=
  λ _, DeviceInfo (Some "Pad") (Some 0x045E) (Some 0x028E) (Some 0x0114) [].

(** Every element reads [v]. *)
Definition hid_reads (v : Z) : hid_values := λ _ _, Some v.

(** Every read fails. *)
Definition hid_failing : hid_values := λ _ _, None.

(** *** Notions for the further properties of the sampler *)

(** What the first lines of [update] leave behind the visible elements of
    a buffer resliced to [n] elements: nothing in a fresh buffer, the rest
    of the backing array in a reused one. *)
Definition resized_spare {A : Type} (n : nat) (s : slice A) : list A :=
  if decide (cap s < n)%nat then [] else drop n (elts s ++ spare s).

(** The elements [refs] read [v]; the read of any other element fails. *)
Definition hid_only (refs : list IOHIDElementRef) (v : Z) : hid_values :=
  λ _ e, if bool_decide (e ∈ refs) then Some v else None.

(** *** The rest of the sort interface of [elements] *)

Definition Len (e : elements) : Z := Z.of_nat (length e).

(** [e[i], e[j] = e[j], e[i]]: both elements are read, then [e[i]] and
    [e[j]] are written in that order; an index out of range panics. *)
Definition Swap (e : elements) (i j : Z) : option elements :=
  if (i <? 0) || (j <? 0) then None
  else
    a ← e !! Z.to_nat i;
    b ← e !! Z.to_nat j;
    Some (<[Z.to_nat j := a]> (<[Z.to_nat i := b]> e)).

(** *** The bucket of an element *)

Inductive bucket : Type := Axis | Button | Hat.

#[global] Instance bucket_eq_dec : EqDecision bucket.
Proof. solve_decision. Defined.

(** The bucket the body of the loop over the elements appends to, [None]
    where it appends to none: the tests of [classify], in its order. *)
Definition bucket_of (e : hid_element) : option bucket :=
  if negb (elem_is_element e) then None
  else if negb (elem_type e =? kIOHIDElementTypeInput_Axis)
          && negb (elem_type e =? kIOHIDElementTypeInput_Button)
          && negb (elem_type e =? kIOHIDElementTypeInput_Misc) then None
  else if elem_page e =? kHIDPage_GenericDesktop then
    if case_of (elem_usage e)
         [kHIDUsage_GD_X; kHIDUsage_GD_Y; kHIDUsage_GD_Z;
          kHIDUsage_GD_Rx; kHIDUsage_GD_Ry; kHIDUsage_GD_Rz;
          kHIDUsage_GD_Slider; kHIDUsage_GD_Dial; kHIDUsage_GD_Wheel]
    then Some Axis
    else if case_of (elem_usage e) [kHIDUsage_GD_Hatswitch]
    then Some Hat
    else if case_of (elem_usage e)
         [kHIDUsage_GD_DPadUp; kHIDUsage_GD_DPadRight; kHIDUsage_GD_DPadDown;
          kHIDUsage_GD_DPadLeft; kHIDUsage_GD_SystemMainMenu; kHIDUsage_GD_Select;
          kHIDUsage_GD_Start]
    then Some Button
    else None
  else if elem_page e =? kHIDPage_Simulation then
    if case_of (elem_usage e)
         [kHIDUsage_Sim_Accelerator; kHIDUsage_Sim_Brake; kHIDUsage_Sim_Throttle;
          kHIDUsage_Sim_Rudder; kHIDUsage_Sim_Steering]
    then Some Axis
    else None
  else if case_of (elem_page e) [kHIDPage_Button; kHIDPage_Consumer] then Some Button
  else None.

(** The elements of [es] that go to the bucket [k], in the order of [es]. *)
Definition selected (k : bucket) (es : list hid_element) : list hid_element :=
  filter (λ e, bucket_of e = Some k) es.

(** The [i]-th element of a bucket made from [e]. *)
Definition numbered (i : nat) (e : hid_element) : element :=
  Element (elem_ref e) (elem_usage e) (Z.of_nat i) (elem_logical_min e) (elem_logical_max e).

(** The bucket [k] of a gamepad. *)
Definition bucket_elements (k : bucket) (g : nativeGamepad) : elements :=
  match k with
  | Axis => axes g
  | Button => buttons g
  | Hat => hats g
  end.

(** *** The state of the user interface (package [ui]) *)

Module UI.
Local Open Scope Z_scope.

(** [x / y] on [int]s: the quotient truncated towards zero. *)
Definition div (x y : Z) : Z := GoInt.wrap (Z.quot x y).

Definition InitialWindowPosition (mw mh ww wh : Z) : Z * Z :=
  (div (GoInt.sub mw ww) 2, div (GoInt.sub mh wh) 3).

Section State.

(** The values of the interface type [error] other than [nil]. *)
Context {Error : Type}.

(** The fields of [UserInterface] that the methods of the file read and
    write; [nil] is [None].  The mutex, the white image, the main thread
    and the embedded implementation are left out. *)
Record UserInterface : Type := MkUserInterface {
  err : option Error;
  isScreenClearedEveryFrame : Z;
  graphicsLibrary : Z;
  running : Z;
  terminated : Z
}.

Definition error (u : UserInterface) : option Error := err u.

Definition setError (e : option Error) (u : UserInterface) : UserInterface :=
  if err u is None
  then MkUserInterface e (isScreenClearedEveryFrame u) (graphicsLibrary u)
                       (running u) (terminated u)
  else u.

Definition IsScreenClearedEveryFrame (u : UserInterface) : bool :=
  negb (isScreenClearedEveryFrame u =? 0).

Definition SetScreenClearedEveryFrame (cleared : bool) (u : UserInterface) : UserInterface :=
  let v := if cleared then 1 else 0 in
  MkUserInterface (err u) v (graphicsLibrary u) (running u) (terminated u).

(** The type [GraphicsLibrary] is declared in another file of the package:
    [library] stands for the value of [int32(library)], and
    [GraphicsLibrary] answers the stored value. *)
Definition setGraphicsLibrary (library : Z) (u : UserInterface) : UserInterface :=
  MkUserInterface (err u) (isScreenClearedEveryFrame u) library (running u) (terminated u).

Definition GraphicsLibrary (u : UserInterface) : Z := graphicsLibrary u.

Definition isTerminated (u : UserInterface) : bool := negb (terminated u =? 0).

Definition isRunning (u : UserInterface) : bool :=
  negb (running u =? 0) && negb (isTerminated u).

Definition setRunning (r : bool) (u : UserInterface) : UserInterface :=
  if r
  then MkUserInterface (err u) (isScreenClearedEveryFrame u) (graphicsLibrary u) 1 (terminated u)
  else MkUserInterface (err u) (isScreenClearedEveryFrame u) (graphicsLibrary u) 0 (terminated u).

Definition setTerminated (u : UserInterface) : UserInterface :=
  MkUserInterface (err u) (isScreenClearedEveryFrame u) (graphicsLibrary u) (running u) 1.

(** A call of one of the methods of the file that write the state, and a
    sequence of such calls. *)
Inductive call : Type :=
  | CallSetError (e : option Error)
  | CallSetScreenClearedEveryFrame (cleared : bool)
  | CallSetGraphicsLibrary (library : Z)
  | CallSetRunning (r : bool)
  | CallSetTerminated.

Definition run_call (u : UserInterface) (c : call) : UserInterface :=
  match c with
  | CallSetError e => setError e u
  | CallSetScreenClearedEveryFrame cleared => SetScreenClearedEveryFrame cleared u
  | CallSetGraphicsLibrary library => setGraphicsLibrary library u
  | CallSetRunning r => setRunning r u
  | CallSetTerminated => setTerminated u
  end.

Definition run_calls (u : UserInterface) (cs : list call) : UserInterface :=
  foldl run_call u cs.

(** The argument of the last [setRunning] of a sequence of calls, and
    whether the sequence has a [setTerminated]. *)
Definition last_setRunning (cs : list call) : option bool :=
  last (omap (λ c, if c is CallSetRunning r then Some r else None) cs).

Definition has_setTerminated (cs : list call) : bool :=
  existsb (λ c, if c is CallSetTerminated then true else false) cs.

(** The argument of the last [SetScreenClearedEveryFrame] of a sequence of
    calls. *)
Definition last_SetScreenClearedEveryFrame (cs : list call) : option bool :=
  last (omap (λ c, if c is CallSetScreenClearedEveryFrame cleared then Some cleared else None) cs).

End State.

Arguments UserInterface : clear implicits.
Arguments call : clear implicits.

End UI.

(** ** Part II: properties *)

(** *** Rounding of rationals *)

Module RoundingFacts.
Import Rounding.
Local Open Scope Q_scope.

Lemma rne_bounds q : (Qfloor q <= rne q <= Qfloor q + 1)%Z.
Proof.
  unfold rne. destruct (Qcompare _ _); [destruct (Z.even _)| |]; lia.
Qed.

Lemma rne_Z z : rne (inject_Z z) = z.
Proof.
  unfold rne. rewrite Qfloor_Z.
  assert (H : inject_Z z - inject_Z z == 0) by ring.
  rewrite (Qcompare_comp _ _ H (1 # 2) (1 # 2) (Qeq_refl _)). reflexivity.
Qed.

#[global] Instance rne_comp : Proper (Qeq ==> eq) rne.
Proof.
  intros q q' H. unfold rne.
  rewrite (Qfloor_comp _ _ H).
  assert (H' : q - inject_Z (Qfloor q') == q' - inject_Z (Qfloor q')) by (rewrite H; reflexivity).
  rewrite (Qcompare_comp _ _ H' (1 # 2) (1 # 2) (Qeq_refl _)). reflexivity.
Qed.

Lemma rne_mono q q' : q <= q' -> (rne q <= rne q')%Z.
Proof.
  intros H.
  pose proof (Qfloor_resp_le _ _ H) as Hf.
  destruct (Z.eq_dec (Qfloor q) (Qfloor q')) as [E|NE].
  - unfold rne. rewrite <- E.
    destruct (Qcompare_spec (q - inject_Z (Qfloor q)) (1 # 2)) as [A|A|A];
    destruct (Qcompare_spec (q' - inject_Z (Qfloor q)) (1 # 2)) as [B|B|B];
      try destruct (Z.even (Qfloor q)); try lia; exfalso; lra.
  - pose proof (rne_bounds q). pose proof (rne_bounds q'). lia.
Qed.

Lemma rne_between (a b : Z) q :
  inject_Z a <= q -> q <= inject_Z b -> (a <= rne q <= b)%Z.
Proof.
  intros Ha Hb. apply rne_mono in Ha, Hb. rewrite rne_Z in Ha, Hb. lia.
Qed.


(** Powers of two with integer exponents. *)
Lemma pow2_pos e : 0 < 2 ^ e.
Proof. apply Qpower_0_lt. reflexivity. Qed.

Lemma pow2_plus a b : 2 ^ (a + b) == 2 ^ a * 2 ^ b.
Proof. apply Qpower_plus. discriminate. Qed.

Lemma pow2_succ a : 2 ^ (a + 1) == 2 * 2 ^ a.
Proof. rewrite pow2_plus. change (2 ^ 1) with 2. ring. Qed.

Lemma pow2_lt a b : (a < b)%Z -> 2 ^ a < 2 ^ b.
Proof. intros H. apply Qpower_lt_compat_l; [exact H | reflexivity]. Qed.

Lemma pow2_le a b : (a <= b)%Z -> 2 ^ a <= 2 ^ b.
Proof. intros H. apply Qpower_le_compat_l; [exact H | discriminate]. Qed.

Lemma pow2_inject (n : Z) : (0 <= n)%Z -> inject_Z (2 ^ n) == 2 ^ n.
Proof. intros H. rewrite Zpower_Qpower by exact H. reflexivity. Qed.

Lemma Qpos_num x : 0 < x -> (0 < Qnum x)%Z.
Proof. destruct x as [n d]. unfold Qlt. simpl. lia. Qed.

Lemma ilog2_spec x : 0 < x -> 2 ^ ilog2 x <= x /\ x < 2 ^ (ilog2 x + 1).
Proof.
  intros Hx. pose proof (Qpos_num x Hx) as Hn.
  unfold ilog2.
  set (a := Z.log2 (Qnum x)). set (b := Z.log2 (Z.pos (Qden x))).
  assert (Ha : (2 ^ a <= Qnum x < 2 ^ (a + 1))%Z).
  { pose proof (Z.log2_spec (Qnum x) Hn). unfold a. rewrite <- Z.add_1_r in *. lia. }
  assert (Hb : (2 ^ b <= Z.pos (Qden x) < 2 ^ (b + 1))%Z).
  { pose proof (Z.log2_spec (Z.pos (Qden x)) ltac:(lia)). unfold b.
    rewrite <- Z.add_1_r in *. lia. }
  assert (Ha0 : (0 <= a)%Z) by apply Z.log2_nonneg.
  assert (Hb0 : (0 <= b)%Z) by apply Z.log2_nonneg.
  assert (Hx' : x == inject_Z (Qnum x) / inject_Z (Z.pos (Qden x))).
  { rewrite <- Qmake_Qdiv. destruct x; reflexivity. }
  assert (Hd : 0 < inject_Z (Z.pos (Qden x))) by (unfold Qlt; simpl; lia).
  (* x lies strictly between 2^(k-1) and 2^(k+1) *)
  assert (Hlo : 2 ^ (a - b - 1) < x).
  { rewrite Hx'. apply Qlt_shift_div_l; [exact Hd|].
    apply Qlt_le_trans with (2 ^ (a - b - 1) * 2 ^ (b + 1)).
    - apply Qmult_lt_l; [apply pow2_pos|].
      rewrite <- pow2_inject by lia. rewrite <- Zlt_Qlt. lia.
    - rewrite <- pow2_plus. replace (a - b - 1 + (b + 1))%Z with a by lia.
      rewrite <- pow2_inject by lia. rewrite <- Zle_Qle. lia. }
  assert (Hhi : x < 2 ^ (a - b + 1)).
  { rewrite Hx'. apply Qlt_shift_div_r; [exact Hd|].
    apply Qlt_le_trans with (2 ^ (a + 1)).
    - rewrite <- pow2_inject by lia. rewrite <- Zlt_Qlt. lia.
    - replace (a + 1)%Z with (a - b + 1 + b)%Z by lia. rewrite pow2_plus.
      apply Qmult_le_l; [apply pow2_pos|].
      rewrite <- pow2_inject by lia. rewrite <- Zle_Qle. lia. }
  destruct (Qle_bool (2 ^ (a - b)) x) eqn:E.
  - apply Qle_bool_iff in E. split; assumption.
  - assert (E' : ~ 2 ^ (a - b) <= x).
    { intros C. apply Qle_bool_iff in C. congruence. }
    apply Qnot_le_lt in E'. split.
    + apply Qlt_le_weak. exact Hlo.
    + replace (a - b - 1 + 1)%Z with (a - b)%Z by lia. exact E'.
Qed.

Lemma ilog2_unique x k : 2 ^ k <= x -> x < 2 ^ (k + 1) -> ilog2 x = k.
Proof.
  intros Hlo Hhi.
  assert (Hx : 0 < x) by (eapply Qlt_le_trans; [apply (pow2_pos k) | exact Hlo]).
  destruct (ilog2_spec x Hx) as [Hlo' Hhi'].
  assert (H1 : (ilog2 x < k + 1)%Z).
  { apply Qpower_lt_compat_l_inv with (q := 2); [|reflexivity].
    eapply Qle_lt_trans; eassumption. }
  assert (H2 : (k < ilog2 x + 1)%Z).
  { apply Qpower_lt_compat_l_inv with (q := 2); [|reflexivity].
    eapply Qle_lt_trans; eassumption. }
  lia.
Qed.


#[global] Instance rnd_at_comp e : Proper (Qeq ==> Qeq) (rnd_at e).
Proof. intros x y H. unfold rnd_at. rewrite H. reflexivity. Qed.

Lemma pow2_neq0 e : ~ 2 ^ e == 0.
Proof. pose proof (pow2_pos e). lra. Qed.

Lemma div_pow2_le e x y : x <= y -> x / 2 ^ e <= y / 2 ^ e.
Proof.
  intros H. unfold Qdiv. apply Qmult_le_compat_r; [exact H|].
  apply Qlt_le_weak, Qinv_lt_0_compat, pow2_pos.
Qed.

Lemma rnd_at_mono e x y : x <= y -> rnd_at e x <= rnd_at e y.
Proof.
  intros H. unfold rnd_at. apply Qmult_le_compat_r.
  - rewrite <- Zle_Qle. apply rne_mono, div_pow2_le, H.
  - apply Qlt_le_weak, pow2_pos.
Qed.

Lemma rnd_at_exact e (m : Z) : rnd_at e (inject_Z m * 2 ^ e) == inject_Z m * 2 ^ e.
Proof.
  unfold rnd_at.
  assert (H : inject_Z m * 2 ^ e / 2 ^ e == inject_Z m).
  { field. apply pow2_neq0. }
  rewrite H, rne_Z. reflexivity.
Qed.

Lemma rnd_at_lower e (m : Z) x : inject_Z m * 2 ^ e <= x -> inject_Z m * 2 ^ e <= rnd_at e x.
Proof. intros H. rewrite <- (rnd_at_exact e m). apply rnd_at_mono, H. Qed.

Lemma rnd_at_upper e (m : Z) x : x <= inject_Z m * 2 ^ e -> rnd_at e x <= inject_Z m * 2 ^ e.
Proof. intros H. rewrite <- (rnd_at_exact e m). apply rnd_at_mono, H. Qed.

Lemma rnd_at_double e x : rnd_at (e + 1) (2 * x) == 2 * rnd_at e x.
Proof.
  unfold rnd_at.
  assert (H : 2 * x / 2 ^ (e + 1) == x / 2 ^ e).
  { rewrite pow2_succ. field. apply pow2_neq0. }
  rewrite H, pow2_succ. ring.
Qed.


Lemma ilog2_comp x y : 0 < x -> x == y -> ilog2 x = ilog2 y.
Proof.
  intros Hx H. destruct (ilog2_spec x Hx). symmetry.
  apply ilog2_unique; rewrite <- H; assumption.
Qed.

Lemma round_pos_comp x y : 0 < x -> x == y -> round_pos x == round_pos y.
Proof.
  intros Hx H. unfold round_pos. rewrite (ilog2_comp x y Hx H), H. reflexivity.
Qed.

Lemma round_pos_bounds x :
  0 < x -> 2 ^ ilog2 x <= round_pos x /\ round_pos x <= 2 ^ (ilog2 x + 1).
Proof.
  intros Hx. destruct (ilog2_spec x Hx) as [Hlo Hhi]. unfold round_pos, prec.
  set (k := ilog2 x) in *.
  assert (E1 : 2 ^ k == inject_Z (2 ^ 52) * 2 ^ (k - (53 - 1))).
  { rewrite pow2_inject by lia. rewrite <- pow2_plus. f_equiv. lia. }
  assert (E2 : 2 ^ (k + 1) == inject_Z (2 ^ 53) * 2 ^ (k - (53 - 1))).
  { rewrite pow2_inject by lia. rewrite <- pow2_plus. f_equiv. lia. }
  split.
  - rewrite E1. apply rnd_at_lower. rewrite <- E1. exact Hlo.
  - rewrite E2. apply rnd_at_upper. rewrite <- E2. apply Qlt_le_weak, Hhi.
Qed.

Lemma round_pos_gt0 x : 0 < x -> 0 < round_pos x.
Proof.
  intros Hx. destruct (round_pos_bounds x Hx) as [H _].
  eapply Qlt_le_trans; [apply (pow2_pos (ilog2 x)) | exact H].
Qed.

Lemma ilog2_mono x y : 0 < x -> x <= y -> (ilog2 x <= ilog2 y)%Z.
Proof.
  intros Hx H.
  assert (Hy : 0 < y) by lra.
  destruct (ilog2_spec x Hx) as [Hlo _], (ilog2_spec y Hy) as [_ Hhi].
  assert (L : 2 ^ ilog2 x < 2 ^ (ilog2 y + 1)) by lra.
  apply Qpower_lt_compat_l_inv in L; [lia | reflexivity].
Qed.

Lemma round_pos_mono x y : 0 < x -> x <= y -> round_pos x <= round_pos y.
Proof.
  intros Hx H.
  assert (Hy : 0 < y) by lra.
  pose proof (ilog2_mono x y Hx H) as Hk.
  destruct (Z.eq_dec (ilog2 x) (ilog2 y)) as [E|NE].
  - unfold round_pos. rewrite E. apply rnd_at_mono, H.
  - destruct (round_pos_bounds x Hx) as [_ Hu], (round_pos_bounds y Hy) as [Hl _].
    assert (L : 2 ^ (ilog2 x + 1) <= 2 ^ ilog2 y) by (apply pow2_le; lia).
    lra.
Qed.


Lemma round_pos_double x : 0 < x -> round_pos (2 * x) == 2 * round_pos x.
Proof.
  intros Hx. destruct (ilog2_spec x Hx) as [Hlo Hhi].
  assert (E : ilog2 (2 * x) = (ilog2 x + 1)%Z).
  { apply ilog2_unique; rewrite !pow2_succ in *; lra. }
  unfold round_pos. rewrite E.
  replace (ilog2 x + 1 - (prec - 1))%Z with (ilog2 x - (prec - 1) + 1)%Z by lia.
  apply rnd_at_double.
Qed.

(** A positive integer below [2 ^ prec] scaled by a power of two is a
    fixed point of the rounding. *)
Lemma round_pos_exact (m e : Z) :
  (0 < m < 2 ^ prec)%Z -> round_pos (inject_Z m * 2 ^ e) == inject_Z m * 2 ^ e.
Proof.
  intros [Hm0 Hm]. unfold prec in *.
  set (j := Z.log2 m).
  assert (Hj : (2 ^ j <= m < 2 ^ (j + 1))%Z).
  { pose proof (Z.log2_spec m Hm0). unfold j. rewrite <- Z.add_1_r in *. lia. }
  assert (Hj0 : (0 <= j)%Z) by apply Z.log2_nonneg.
  assert (Hj52 : (j <= 52)%Z).
  { assert (j < 53)%Z; [|lia]. apply (Z.pow_lt_mono_r_iff 2); lia. }
  assert (Hk : ilog2 (inject_Z m * 2 ^ e) = (j + e)%Z).
  { apply ilog2_unique.
    - rewrite pow2_plus. apply Qmult_le_compat_r; [|apply Qlt_le_weak, pow2_pos].
      rewrite <- pow2_inject by lia. rewrite <- Zle_Qle. lia.
    - replace (j + e + 1)%Z with (j + 1 + e)%Z by lia. rewrite pow2_plus.
      apply Qmult_lt_compat_r; [apply pow2_pos|].
      rewrite <- pow2_inject by lia. rewrite <- Zlt_Qlt. lia. }
  unfold round_pos, prec. rewrite Hk.
  assert (E : inject_Z m * 2 ^ e ==
              inject_Z (m * 2 ^ (52 - j)) * 2 ^ (j + e - (53 - 1))).
  { rewrite inject_Z_mult, pow2_inject by lia.
    rewrite <- Qmult_assoc, <- pow2_plus. do 2 f_equiv. lia. }
  rewrite E at 1. rewrite rnd_at_exact. symmetry. exact E.
Qed.

Lemma round_pos_idem x : 0 < x -> round_pos (round_pos x) == round_pos x.
Proof.
  intros Hx. destruct (ilog2_spec x Hx) as [Hlo Hhi].
  pose proof (round_pos_bounds x Hx) as [Bl Bu].
  unfold round_pos at 2 3. unfold round_pos in Bl, Bu. unfold rnd_at in *.
  set (e := (ilog2 x - (prec - 1))%Z) in *.
  set (m := rne (x / 2 ^ e)) in *.
  assert (Hm : (2 ^ 52 <= m <= 2 ^ 53)%Z).
  { split.
    - rewrite Zle_Qle. apply Qmult_le_r with (z := 2 ^ e); [apply pow2_pos|].
      rewrite pow2_inject by lia. rewrite <- pow2_plus.
      replace (52 + e)%Z with (ilog2 x) by (unfold e, prec; lia). exact Bl.
    - rewrite Zle_Qle. apply Qmult_le_r with (z := 2 ^ e); [apply pow2_pos|].
      rewrite (pow2_inject 53) by lia. rewrite <- pow2_plus.
      replace (53 + e)%Z with (ilog2 x + 1)%Z by (unfold e, prec; lia). exact Bu. }
  destruct (Z.eq_dec m (2 ^ 53)%Z) as [E|NE].
  - rewrite E.
    assert (E' : inject_Z (2 ^ 53) * 2 ^ e == inject_Z (2 ^ 52) * 2 ^ (e + 1)).
    { rewrite pow2_succ. change (2 ^ 53)%Z with (2 * 2 ^ 52)%Z.
      rewrite inject_Z_mult. change (inject_Z 2) with 2. ring. }
    assert (P : 0 < inject_Z (2 ^ 53) * 2 ^ e).
    { apply Qmult_lt_0_compat; [reflexivity | apply pow2_pos]. }
    rewrite (round_pos_comp _ _ P E'), E'.
    apply round_pos_exact. unfold prec. lia.
  - apply round_pos_exact. unfold prec. lia.
Qed.


Lemma round_gt0 x : 0 < x -> round x == round_pos x.
Proof.
  intros H. unfold round. destruct (Qcompare_spec x 0); try lra.
  apply Qred_correct.
Qed.

Lemma round_lt0 x : x < 0 -> round x == - round_pos (- x).
Proof.
  intros H. unfold round. destruct (Qcompare_spec x 0); try lra.
  apply Qred_correct.
Qed.

Lemma round_eq0 x : x == 0 -> round x = 0.
Proof.
  intros H. unfold round. destruct (Qcompare_spec x 0); try lra. reflexivity.
Qed.

#[global] Instance round_comp : Proper (Qeq ==> eq) round.
Proof.
  intros x y H. unfold round.
  rewrite (Qcompare_comp _ _ H 0 0 (Qeq_refl 0)).
  destruct (Qcompare_spec y 0) as [E|L|G]; [reflexivity| |].
  - apply Qred_complete. apply Qopp_comp. apply round_pos_comp; [lra | rewrite H; reflexivity].
  - apply Qred_complete. apply round_pos_comp; [lra | exact H].
Qed.

Lemma round_opp x : round (- x) == - round x.
Proof.
  destruct (Q_dec x 0) as [[L|G]|E].
  - rewrite (round_gt0 (- x)) by lra. rewrite (round_lt0 x) by lra. ring.
  - rewrite (round_lt0 (- x)) by lra. rewrite (round_gt0 x) by lra.
    rewrite (round_pos_comp (- - x) x); [reflexivity | lra | ring].
  - rewrite (round_eq0 x E), (round_eq0 (- x)) by lra. reflexivity.
Qed.

Theorem round_mono x y : x <= y -> round x <= round y.
Proof.
  intros H.
  destruct (Q_dec x 0) as [[Lx|Gx]|Ex], (Q_dec y 0) as [[Ly|Gy]|Ey]; try lra.
  - rewrite (round_lt0 x Lx), (round_lt0 y Ly).
    apply Qopp_le_compat. apply round_pos_mono; lra.
  - rewrite (round_lt0 x Lx), (round_gt0 y Gy).
    pose proof (round_pos_gt0 (- x)). pose proof (round_pos_gt0 y). lra.
  - rewrite (round_lt0 x Lx), (round_eq0 y Ey).
    pose proof (round_pos_gt0 (- x)). lra.
  - rewrite (round_gt0 x Gx), (round_gt0 y Gy). apply round_pos_mono; lra.
  - rewrite (round_eq0 x Ex), (round_gt0 y Gy).
    pose proof (round_pos_gt0 y). lra.
  - rewrite (round_eq0 x Ex), (round_eq0 y Ey). lra.
Qed.

Theorem round_idem x : round (round x) = round x.
Proof.
  destruct (Q_dec x 0) as [[L|G]|E].
  - pose proof (round_lt0 x L) as R. pose proof (round_pos_gt0 (- x) ltac:(lra)) as P.
    rewrite (round_comp _ _ R) at 1.
    assert (N : - round_pos (- x) < 0) by lra.
    unfold round at 1. destruct (Qcompare_spec (- round_pos (- x)) 0); try lra.
    unfold round. destruct (Qcompare_spec x 0); try lra.
    apply Qred_complete. apply Qopp_comp.
    rewrite (round_pos_comp (- - round_pos (- x)) (round_pos (- x))); [|lra|ring].
    apply round_pos_idem. lra.
  - pose proof (round_gt0 x G) as R. pose proof (round_pos_gt0 x G) as P.
    rewrite (round_comp _ _ R) at 1.
    unfold round at 1. destruct (Qcompare_spec (round_pos x) 0); try lra.
    unfold round. destruct (Qcompare_spec x 0); try lra.
    apply Qred_complete. apply round_pos_idem. exact G.
  - rewrite (round_eq0 x E). reflexivity.
Qed.

Lemma round_double x : round (2 * x) == 2 * round x.
Proof.
  destruct (Q_dec x 0) as [[L|G]|E].
  - rewrite (round_lt0 (2 * x)), (round_lt0 x) by lra.
    rewrite (round_pos_comp (- (2 * x)) (2 * - x)); [|lra|ring].
    rewrite round_pos_double by lra. ring.
  - rewrite (round_gt0 (2 * x)), (round_gt0 x) by lra.
    apply round_pos_double, G.
  - rewrite (round_eq0 x E), (round_eq0 (2 * x)) by lra. reflexivity.
Qed.

(** Integers of magnitude below [2 ^ prec] are exactly representable. *)
Lemma round_Z (z : Z) : (Z.abs z < 2 ^ prec)%Z -> round (inject_Z z) == inject_Z z.
Proof.
  intros H.
  assert (P : forall m, (0 < m < 2 ^ prec)%Z -> round_pos (inject_Z m) == inject_Z m).
  { intros m Hm. pose proof (round_pos_exact m 0 Hm) as R.
    change (2 ^ 0) with 1 in R.
    rewrite (round_pos_comp (inject_Z m) (inject_Z m * 1)).
    - rewrite R. ring.
    - change 0 with (inject_Z 0). rewrite <- Zlt_Qlt. lia.
    - ring. }
  destruct (Z.lt_trichotomy z 0) as [L|[E|G]].
  - assert (Lq : inject_Z z < 0) by (change 0 with (inject_Z 0); rewrite <- Zlt_Qlt; lia).
    rewrite (round_lt0 _ Lq). rewrite <- inject_Z_opp. rewrite P by lia.
    rewrite inject_Z_opp. ring.
  - subst z. reflexivity.
  - assert (Gq : 0 < inject_Z z) by (change 0 with (inject_Z 0); rewrite <- Zlt_Qlt; lia).
    rewrite (round_gt0 _ Gq). apply P. lia.
Qed.


Lemma round_between (a b x : Q) :
  round a = a -> round b = b -> a <= x -> x <= b -> a <= round x /\ round x <= b.
Proof.
  intros Ha Hb H1 H2. split.
  - rewrite <- Ha. apply round_mono, H1.
  - rewrite <- Hb. apply round_mono, H2.
Qed.

End RoundingFacts.

(** *** The float operations compute the rounded exact results *)

Module Float64Facts.
Import Rounding RoundingFacts.
Local Open Scope Q_scope.


Lemma shr_1_located u mrs :
  (0 <= shr_m mrs)%Z -> located u mrs ->
  (0 <= shr_m (shr_1 mrs))%Z /\ located (u * (1 # 2)) (shr_1 mrs).
Proof.
  destruct mrs as [m r s]. cbn [shr_m]. intros Hm H.
  assert (E : forall q : positive, inject_Z (Z.pos q~0) == 2 * inject_Z (Z.pos q)).
  { intros q. rewrite <- (inject_Z_mult 2). reflexivity. }
  assert (O : forall q : positive, inject_Z (Z.pos q~1) == 2 * inject_Z (Z.pos q) + 1).
  { intros q. rewrite <- (inject_Z_mult 2), <- (inject_Z_plus _ 1). reflexivity. }
  destruct m as [|[q|q|]|p]; [| | | |lia];
    destruct r, s; unfold located in *; cbn [shr_1 shr_m shr_r shr_s orb] in *;
    (split; [lia|]);
    rewrite ?O, ?E in H; change (inject_Z 0) with 0 in *; change (inject_Z 1) with 1 in *;
    lra.
Qed.

#[global] Instance located_comp : Proper (Qeq ==> eq ==> iff) located.
Proof.
  intros u v E mrs ? <-. unfold located.
  destruct (shr_r mrs), (shr_s mrs); rewrite E; reflexivity.
Qed.

Lemma half_pow_succ (p : positive) :
  half ^ Z.pos (Pos.succ p) == half * half ^ Z.pos p.
Proof.
  rewrite Pos2Z.inj_succ, <- Z.add_1_l. rewrite Qpower_plus by discriminate. reflexivity.
Qed.

Lemma half_pow_double (p : positive) :
  half ^ Z.pos p~0 == half ^ Z.pos p * half ^ Z.pos p.
Proof.
  rewrite Pos2Z.inj_xO. replace (2 * Z.pos p)%Z with (Z.pos p + Z.pos p)%Z by lia.
  apply Qpower_plus. discriminate.
Qed.

Lemma half_pow_double1 (p : positive) :
  half ^ Z.pos p~1 == half * (half ^ Z.pos p * half ^ Z.pos p).
Proof.
  rewrite Pos2Z.inj_xI. replace (2 * Z.pos p + 1)%Z with (1 + (Z.pos p + Z.pos p))%Z by lia.
  rewrite !Qpower_plus by discriminate. reflexivity.
Qed.

Lemma iter_shr_1_located (p : positive) : forall u mrs,
  (0 <= shr_m mrs)%Z -> located u mrs ->
  (0 <= shr_m (SpecFloat.iter_pos shr_1 p mrs))%Z /\
  located (u * half ^ Z.pos p) (SpecFloat.iter_pos shr_1 p mrs).
Proof.
  induction p as [p IH|p IH|]; intros u mrs Hm H; cbn [SpecFloat.iter_pos].
  - destruct (shr_1_located u mrs Hm H) as [Hm1 H1].
    destruct (IH _ _ Hm1 H1) as [Hm2 H2].
    destruct (IH _ _ Hm2 H2) as [Hm3 H3].
    split; [exact Hm3|]. rewrite half_pow_double1.
    eapply located_comp; [| reflexivity | exact H3]. unfold half. ring.
  - destruct (IH _ _ Hm H) as [Hm2 H2].
    destruct (IH _ _ Hm2 H2) as [Hm3 H3].
    split; [exact Hm3|]. rewrite half_pow_double.
    eapply located_comp; [| reflexivity | exact H3]. ring.
  - destruct (shr_1_located u mrs Hm H) as [Hm1 H1].
    split; [exact Hm1|]. exact H1.
Qed.

Lemma digits2_pos_spec (m : positive) :
  (2 ^ (Z.pos (digits2_pos m) - 1) <= Z.pos m < 2 ^ Z.pos (digits2_pos m))%Z.
Proof.
  induction m as [m IH|m IH|]; cbn [digits2_pos]; [| |simpl; lia];
    rewrite Pos2Z.inj_succ;
    replace (Z.succ (Z.pos (digits2_pos m)) - 1)%Z with (Z.succ (Z.pos (digits2_pos m) - 1))%Z by lia;
    rewrite !Z.pow_succ_r by lia; lia.
Qed.

Lemma digits2_pos_unique (m : positive) (d : Z) :
  (2 ^ (d - 1) <= Z.pos m < 2 ^ d)%Z -> Z.pos (digits2_pos m) = d.
Proof.
  intros [Hl Hu]. pose proof (digits2_pos_spec m) as [Sl Su].
  assert (D0 : (0 < d)%Z).
  { destruct (Z_lt_le_dec 0 d) as [?|N]; [assumption|].
    assert (2 ^ d <= 2 ^ 0)%Z by (apply Z.pow_le_mono_r; lia). simpl in *. lia. }
  assert (A : (Z.pos (digits2_pos m) - 1 < d)%Z).
  { apply (Z.pow_lt_mono_r_iff 2); lia. }
  assert (B : (d - 1 < Z.pos (digits2_pos m))%Z).
  { apply (Z.pow_lt_mono_r_iff 2); lia. }
  lia.
Qed.

Lemma located_floor u mrs :
  located u mrs -> inject_Z (shr_m mrs) <= u /\ u < inject_Z (shr_m mrs) + 1.
Proof.
  unfold located. destruct (shr_r mrs), (shr_s mrs); intros H; lra.
Qed.

Lemma Qfloor_unique (u : Q) (m : Z) :
  inject_Z m <= u -> u < inject_Z m + 1 -> Qfloor u = m.
Proof.
  intros Hl Hu.
  pose proof (Qfloor_le u) as Fl. pose proof (Qlt_floor u) as Fu.
  rewrite inject_Z_plus in Fu. change (inject_Z 1) with 1 in Fu.
  assert (A : inject_Z m < inject_Z (Qfloor u) + 1) by lra.
  assert (B : inject_Z (Qfloor u) < inject_Z m + 1) by lra.
  change 1 with (inject_Z 1) in A, B.
  rewrite <- inject_Z_plus, <- Zlt_Qlt in A, B. lia.
Qed.

(** The rounding of a record is the nearest-even rounding of what it
    locates. *)
Lemma rne_located u mrs :
  located u mrs -> round_nearest_even (shr_m mrs) (loc_of_shr_record mrs) = rne u.
Proof.
  intros H. pose proof (located_floor u mrs H) as [Hl Hu].
  unfold rne. rewrite (Qfloor_unique u (shr_m mrs) Hl Hu).
  destruct mrs as [m r s]. unfold located in H. cbn [shr_m shr_r shr_s] in *.
  destruct r, s; cbn [loc_of_shr_record round_nearest_even];
    destruct (Qcompare_spec (u - inject_Z m) (1 # 2)) as [C|C|C]; try reflexivity; lra.
Qed.

Lemma half_pow (n : Z) : half ^ n == 2 ^ (- n).
Proof.
  rewrite Qpower_opp. change half with (/ 2). apply Qinv_power.
Qed.

Lemma shr_m_of_loc (m : Z) (l : location) : shr_m (shr_record_of_loc m l) = m.
Proof. destruct l as [|[| |]]; reflexivity. Qed.

Lemma shr_located u mrs (e n : Z) :
  (0 <= shr_m mrs)%Z -> located u mrs -> (0 <= n)%Z ->
  snd (shr mrs e n) = (e + n)%Z /\
  (0 <= shr_m (fst (shr mrs e n)))%Z /\
  located (u * 2 ^ (- n)) (fst (shr mrs e n)).
Proof.
  intros Hm H Hn. destruct n as [|p|p]; [| |lia]; cbn [shr fst snd].
  - split; [lia|]. split; [exact Hm|].
    eapply located_comp; [| reflexivity | exact H]. change (2 ^ (- 0)) with 1. ring.
  - destruct (iter_shr_1_located p u mrs Hm H) as [Hm' H'].
    split; [reflexivity|]. split; [exact Hm'|].
    rewrite <- half_pow. exact H'.
Qed.

Lemma fexp_normal (k : Z) : (-1021 <= k)%Z -> fexp 53 1024 k = (k - 53)%Z.
Proof. intros H. unfold fexp, emin. lia. Qed.

Lemma mul_pow2_opp (x : Q) (e : Z) : x * 2 ^ (- e) == x / 2 ^ e.
Proof. rewrite Qpower_opp. reflexivity. Qed.

(** The core of every operation: a positive number given by a mantissa of
    at least 53 digits, an exponent and the place of the number above the
    mantissa is rounded to the nearest float of 53 digits, ties to even. *)
Lemma binary_round_aux_correct (sx : bool) (mx : positive) (ex : Z) (lx : location) (x : Q) :
  located (x * 2 ^ (- ex)) (shr_record_of_loc (Z.pos mx) lx) ->
  (53 <= Z.pos (digits2_pos mx))%Z ->
  (-900 <= Z.pos (digits2_pos mx) + ex <= 900)%Z ->
  exists (m : positive) (e : Z),
    binary_round_aux 53 1024 sx (Z.pos mx) ex lx = S754_finite sx m e /\
    inject_Z (Z.pos m) * 2 ^ e == round_pos x /\
    (2 ^ 52 <= Z.pos m < 2 ^ 53)%Z /\
    (-1000 <= e <= 900)%Z.
Proof.
  intros Hloc Hdg Hrange.
  set (dg := Z.pos (digits2_pos mx)) in *.
  pose proof (digits2_pos_spec mx) as [Dl Du]. fold dg in Dl, Du.
  (* the exponent of x *)
  pose proof (located_floor _ _ Hloc) as [Fl Fu]. rewrite shr_m_of_loc in Fl, Fu.
  assert (Px : 0 < 2 ^ ex) by apply pow2_pos.
  assert (Hx : x == (x * 2 ^ (- ex)) * 2 ^ ex).
  { rewrite <- Qmult_assoc, <- pow2_plus. replace (- ex + ex)%Z with 0%Z by lia.
    change (2 ^ 0) with 1. ring. }
  assert (Xl : 2 ^ (dg + ex - 1) <= x).
  { rewrite Hx. replace (dg + ex - 1)%Z with (dg - 1 + ex)%Z by lia. rewrite pow2_plus.
    apply Qmult_le_compat_r; [|lra].
    apply Qle_trans with (inject_Z (Z.pos mx)); [|exact Fl].
    rewrite <- pow2_inject by lia. rewrite <- Zle_Qle. exact Dl. }
  assert (Xu : x < 2 ^ (dg + ex - 1 + 1)).
  { rewrite Hx. replace (dg + ex - 1 + 1)%Z with (dg + ex)%Z by lia. rewrite pow2_plus.
    apply Qmult_lt_compat_r; [exact Px|].
    apply Qlt_le_trans with (inject_Z (Z.pos mx) + 1); [exact Fu|].
    rewrite <- pow2_inject by lia. change 1 with (inject_Z 1).
    rewrite <- inject_Z_plus, <- Zle_Qle. lia. }
  pose proof (ilog2_unique x _ Xl Xu) as Hk.
  (* the first shift *)
  unfold binary_round_aux, shr_fexp. cbn [Zdigits2]. fold dg.
  rewrite fexp_normal by lia.
  set (n := (dg + ex - 53 - ex)%Z).
  assert (Hn : (0 <= n)%Z) by (unfold n; lia).
  assert (Hm0 : (0 <= shr_m (shr_record_of_loc (Z.pos mx) lx))%Z)
    by (rewrite shr_m_of_loc; lia).
  pose proof (shr_located _ _ ex n Hm0 Hloc Hn) as (He' & Hm' & Hl').
  destruct (shr (shr_record_of_loc (Z.pos mx) lx) ex n) as [mrs' e'].
  cbn [fst snd] in He', Hm', Hl'. subst e'.
  set (e1 := (ex + n)%Z) in *.
  assert (He1 : e1 = (ilog2 x - (prec - 1))%Z) by (unfold e1, n, prec; lia).
  assert (Hu' : x * 2 ^ (- ex) * 2 ^ (- n) == x / 2 ^ e1).
  { rewrite <- Qmult_assoc, <- pow2_plus. replace (- ex + - n)%Z with (- e1)%Z by (unfold e1; lia).
    apply mul_pow2_opp. }
  rewrite Hu' in Hl'.
  rewrite (rne_located _ _ Hl').
  set (m1 := rne (x / 2 ^ e1)).
  assert (Hv : inject_Z m1 * 2 ^ e1 == round_pos x).
  { unfold round_pos, rnd_at. rewrite <- He1. reflexivity. }
  assert (Hm1 : (2 ^ 52 <= m1 <= 2 ^ 53)%Z).
  { assert (X0 : 0 < x) by (pose proof (pow2_pos (dg + ex - 1)); lra).
    pose proof (round_pos_bounds x X0) as [Bl Bu]. rewrite <- Hv in Bl, Bu.
    assert (P1 : 0 < 2 ^ e1) by apply pow2_pos.
    split.
    - rewrite Zle_Qle. apply Qmult_le_r with (z := 2 ^ e1); [exact P1|].
      rewrite pow2_inject by lia. rewrite <- pow2_plus.
      replace (52 + e1)%Z with (ilog2 x) by (rewrite He1; unfold prec; lia). exact Bl.
    - rewrite Zle_Qle. apply Qmult_le_r with (z := 2 ^ e1); [exact P1|].
      rewrite (pow2_inject 53) by lia. rewrite <- pow2_plus.
      replace (53 + e1)%Z with (ilog2 x + 1)%Z by (rewrite He1; unfold prec; lia). exact Bu. }
  (* the second shift *)
  destruct m1 as [|p1|p1] eqn:Em1; [lia| |lia].
  cbn [Zdigits2].
  destruct (Pos.eq_dec p1 (2 ^ 53)%positive) as [E53|N53].
  - subst p1. exists (2 ^ 52)%positive, (e1 + 1)%Z.
    assert (D54 : digits2_pos (2 ^ 53) = 54%positive) by (vm_compute; reflexivity).
    rewrite D54. rewrite fexp_normal by lia.
    replace (54 + e1 - 53 - e1)%Z with 1%Z by lia.
    cbn [shr shr_record_of_loc SpecFloat.iter_pos fst snd]. cbn [shr_1 shr_m Pos.pow Pos.iter Pos.mul].
    replace (e1 + 1 <=? 1024 - 53)%Z with true by (symmetry; apply Z.leb_le; lia).
    split; [reflexivity|]. split; [|split; [cbn; lia | lia]].
    rewrite <- Hv, pow2_succ. change (inject_Z (Z.pos (2 ^ 53))) with (2 * inject_Z (Z.pos (2 ^ 52))).
    ring.
  - assert (D1 : Z.pos (digits2_pos p1) = 53%Z) by (apply digits2_pos_unique; cbn; lia).
    exists p1, e1. rewrite D1.
    rewrite fexp_normal by lia.
    replace (53 + e1 - 53 - e1)%Z with 0%Z by lia.
    cbn [shr shr_record_of_loc fst snd shr_m].
    replace (e1 <=? 1024 - 53)%Z with true by (symmetry; apply Z.leb_le; lia).
    split; [reflexivity|]. split; [exact Hv|]. split; lia.
Qed.

Lemma iter_xO (d m : positive) : Z.pos (Pos.iter xO m d) = (Z.pos m * 2 ^ Z.pos d)%Z.
Proof.
  induction d as [|d IH] using Pos.peano_ind.
  - cbn. lia.
  - rewrite Pos.iter_succ, Pos2Z.inj_xO, IH, Pos2Z.inj_succ, Z.pow_succ_r by lia. lia.
Qed.

(** [shl_align] gives the same number on an exponent that is not above
    the one asked for. *)
Lemma shl_align_spec (mx : positive) (ex ex' : Z) :
  let mz := fst (shl_align mx ex ex') in
  let ez := snd (shl_align mx ex ex') in
  ez = Z.min ex ex' /\ Z.pos mz = (Z.pos mx * 2 ^ (ex - ez))%Z.
Proof.
  unfold shl_align. destruct (ex' - ex)%Z as [|d|d] eqn:E; cbn [fst snd].
  - replace (Z.min ex ex') with ex by lia. rewrite Z.sub_diag. cbn. lia.
  - replace (Z.min ex ex') with ex by lia. rewrite Z.sub_diag. cbn. lia.
  - replace (Z.min ex ex') with ex' by lia. split; [reflexivity|].
    rewrite iter_xO. f_equal. f_equal. lia.
Qed.

Lemma digits2_pos_shift (m : positive) (k : Z) (mz : positive) :
  (0 <= k)%Z -> Z.pos mz = (Z.pos m * 2 ^ k)%Z ->
  Z.pos (digits2_pos mz) = (Z.pos (digits2_pos m) + k)%Z.
Proof.
  intros Hk E. apply digits2_pos_unique. rewrite E.
  pose proof (digits2_pos_spec m) as [Dl Du].
  replace (Z.pos (digits2_pos m) + k - 1)%Z with (Z.pos (digits2_pos m) - 1 + k)%Z by lia.
  rewrite !Z.pow_add_r by lia.
  assert (0 < 2 ^ k)%Z by (apply Z.pow_pos_nonneg; lia). nia.
Qed.

(** A positive mantissa and an exponent round to the nearest float. *)
Lemma binary_round_correct (sx : bool) (mx : positive) (ex : Z) :
  (-900 <= Z.pos (digits2_pos mx) + ex <= 900)%Z ->
  exists (m : positive) (e : Z),
    binary_round 53 1024 sx mx ex = S754_finite sx m e /\
    inject_Z (Z.pos m) * 2 ^ e == round_pos (inject_Z (Z.pos mx) * 2 ^ ex) /\
    (2 ^ 52 <= Z.pos m < 2 ^ 53)%Z /\
    (-1000 <= e <= 900)%Z.
Proof.
  intros Hrange. unfold binary_round.
  rewrite fexp_normal by lia.
  pose proof (shl_align_spec mx ex (Z.pos (digits2_pos mx) + ex - 53)) as [Ez Em].
  destruct (shl_align mx ex (Z.pos (digits2_pos mx) + ex - 53)) as [mz ez].
  cbn [fst snd] in Ez, Em.
  assert (Hk : (0 <= ex - ez)%Z) by lia.
  pose proof (digits2_pos_shift mx (ex - ez) mz Hk Em) as Dz.
  assert (Ev : inject_Z (Z.pos mz) * 2 ^ ez == inject_Z (Z.pos mx) * 2 ^ ex).
  { rewrite Em, inject_Z_mult, pow2_inject by lia.
    rewrite <- Qmult_assoc, <- pow2_plus. do 2 f_equiv. lia. }
  destruct (binary_round_aux_correct sx mz ez loc_Exact (inject_Z (Z.pos mx) * 2 ^ ex))
    as (m & e & E & V & C & R).
  - unfold located. cbn [shr_record_of_loc shr_r shr_s shr_m].
    rewrite <- Ev, <- Qmult_assoc, <- pow2_plus.
    replace (ez + - ez)%Z with 0%Z by lia. change (2 ^ 0) with 1. ring.
  - lia.
  - lia.
  - exists m, e. auto.
Qed.

#[global] Instance represents_comp : Proper (eq ==> Qeq ==> iff) represents.
Proof.
  intros x ? <- q q' E. split; intros H; inversion H; subst; constructor;
    try assumption; rewrite ?E in *; try assumption; rewrite <- ?E; assumption.
Qed.

Lemma F2Q_pos (m : positive) (e : Z) : Float64.F2Q false m e == inject_Z (Z.pos m) * 2 ^ e.
Proof. reflexivity. Qed.

Lemma F2Q_neg (m : positive) (e : Z) : Float64.F2Q true m e == - (inject_Z (Z.pos m) * 2 ^ e).
Proof.
  unfold Float64.F2Q. cbn [cond_Zopp]. rewrite inject_Z_opp. ring.
Qed.

Lemma pos_scaled_gt0 (m : positive) (e : Z) : 0 < inject_Z (Z.pos m) * 2 ^ e.
Proof.
  apply Qmult_lt_0_compat; [|apply pow2_pos].
  change 0 with (inject_Z 0). rewrite <- Zlt_Qlt. lia.
Qed.

(** A signed mantissa and an exponent round to the nearest float. *)
Lemma binary_normalize_correct (m e : Z) (szero : bool) :
  (m <> 0%Z -> (-900 <= Zdigits2 m + e <= 900)%Z) ->
  represents (binary_normalize 53 1024 m e szero) (round (inject_Z m * 2 ^ e)).
Proof.
  intros Hr. destruct m as [|p|p]; cbn [binary_normalize].
  - constructor. rewrite round_eq0; [reflexivity | ring].
  - destruct (binary_round_correct false p e ltac:(apply Hr; lia)) as (m' & e' & -> & V & C & R).
    constructor; [exact C | exact R |].
    rewrite round_gt0 by apply pos_scaled_gt0. rewrite <- V. reflexivity.
  - destruct (binary_round_correct true p e ltac:(apply Hr; lia)) as (m' & e' & -> & V & C & R).
    constructor; [exact C | exact R |].
    assert (N : inject_Z (Z.neg p) * 2 ^ e == - (inject_Z (Z.pos p) * 2 ^ e)).
    { change (Z.neg p) with (- Z.pos p)%Z. rewrite inject_Z_opp. ring. }
    rewrite (round_comp _ _ N).
    rewrite round_lt0 by (pose proof (pos_scaled_gt0 p e); lra).
    rewrite F2Q_neg, V. apply Qopp_comp. apply round_pos_comp.
    + pose proof (pos_scaled_gt0 p e). lra.
    + ring.
Qed.

#[global] Instance sgn_comp s : Proper (Qeq ==> Qeq) (sgn s).
Proof. intros p q E. destruct s; simpl; rewrite E; reflexivity. Qed.

Lemma F2Q_sgn (s : bool) (m : positive) (e : Z) :
  Float64.F2Q s m e == sgn s (inject_Z (Z.pos m) * 2 ^ e).
Proof. destruct s; [apply F2Q_neg | apply F2Q_pos]. Qed.

Lemma sgn_mul (s t : bool) (p q : Q) : sgn s p * sgn t q == sgn (xorb s t) (p * q).
Proof. destruct s, t; simpl; ring. Qed.

Lemma round_sgn (s : bool) (p : Q) : 0 < p -> round (sgn s p) == sgn s (round_pos p).
Proof.
  intros H. destruct s; simpl.
  - rewrite round_lt0 by lra. apply Qopp_comp. apply round_pos_comp; [lra | ring].
  - apply round_gt0, H.
Qed.

(** What [binary_round_aux_correct] gives is the float of the rounded
    number. *)
Lemma represents_rounded (s : bool) (m : positive) (e : Z) (p q : Q) :
  0 < p -> q == sgn s p ->
  inject_Z (Z.pos m) * 2 ^ e == round_pos p ->
  (2 ^ 52 <= Z.pos m < 2 ^ 53)%Z -> (-1000 <= e <= 900)%Z ->
  represents (S754_finite s m e) (round q).
Proof.
  intros Hp Hq V C R. constructor; [exact C | exact R |].
  rewrite (round_comp _ _ Hq), round_sgn by exact Hp.
  rewrite F2Q_sgn, V. reflexivity.
Qed.

Lemma digits2_pos_mul (mx my : positive) :
  (2 ^ 52 <= Z.pos mx < 2 ^ 53)%Z -> (2 ^ 52 <= Z.pos my < 2 ^ 53)%Z ->
  (105 <= Z.pos (digits2_pos (mx * my)) <= 106)%Z.
Proof.
  intros Hx Hy. pose proof (digits2_pos_spec (mx * my)) as [Dl Du].
  rewrite Pos2Z.inj_mul in Dl, Du.
  assert (L : (2 ^ 104 <= Z.pos mx * Z.pos my)%Z) by (change (2 ^ 104)%Z with (2 ^ 52 * 2 ^ 52)%Z; nia).
  assert (U : (Z.pos mx * Z.pos my < 2 ^ 106)%Z) by (change (2 ^ 106)%Z with (2 ^ 53 * 2 ^ 53)%Z; nia).
  split.
  - assert (104 < Z.pos (digits2_pos (mx * my)))%Z; [|lia].
    apply (Z.pow_lt_mono_r_iff 2); lia.
  - assert (Z.pos (digits2_pos (mx * my)) - 1 < 106)%Z; [|lia].
    apply (Z.pow_lt_mono_r_iff 2); lia.
Qed.

Theorem SFmul_correct (x y : spec_float) (qx qy : Q) :
  represents x qx -> represents y qy ->
  exp_in (-400) 390 x -> exp_in (-400) 390 y ->
  represents (SFmul 53 1024 x y) (round (qx * qy)).
Proof.
  intros Hx Hy Ex Ey.
  destruct Hx as [sx qx Zx | sx mx ex qx Cx Rx Vx];
    destruct Hy as [sy qy Zy | sy my ey qy Cy Ry Vy]; cbn [SFmul].
  - constructor. rewrite round_eq0 by (rewrite Zx; ring). reflexivity.
  - constructor. rewrite round_eq0 by (rewrite Zx; ring). reflexivity.
  - constructor. rewrite round_eq0 by (rewrite Zy; ring). reflexivity.
  - cbn [exp_in] in Ex, Ey.
    pose proof (digits2_pos_mul mx my Cx Cy) as Dg.
    set (p := inject_Z (Z.pos (mx * my)) * 2 ^ (ex + ey)).
    assert (Hp : 0 < p) by apply pos_scaled_gt0.
    destruct (binary_round_aux_correct (xorb sx sy) (mx * my) (ex + ey) loc_Exact p)
      as (m & e & -> & V & C & R).
    + unfold located. cbn [shr_record_of_loc shr_r shr_s shr_m]. unfold p.
      rewrite <- Qmult_assoc, <- pow2_plus.
      replace (ex + ey + - (ex + ey))%Z with 0%Z by lia. change (2 ^ 0) with 1. ring.
    + lia.
    + lia.
    + apply (represents_rounded _ _ _ p); try assumption.
      rewrite Vx, Vy, !F2Q_sgn, sgn_mul. apply sgn_comp. unfold p.
      rewrite Pos2Z.inj_mul, inject_Z_mult, pow2_plus. ring.
Qed.

(** The place of [q + r / d] above [q] that [new_location] computes from
    the remainder [r] of a division by [d]. *)
Lemma new_location_located (q r d : Z) :
  (0 <= r < d)%Z ->
  located (inject_Z q + inject_Z r / inject_Z d) (shr_record_of_loc q (new_location d r)).
Proof.
  intros Hr.
  assert (Hd : 0 < inject_Z d) by (change 0 with (inject_Z 0); rewrite <- Zlt_Qlt; lia).
  set (f := inject_Z r / inject_Z d).
  assert (Hf : f * inject_Z d == inject_Z r) by (unfold f; field; lra).
  assert (F0 : r = 0%Z -> f == 0).
  { intros ->. unfold f. change (inject_Z 0) with 0. field. lra. }
  assert (Fpos : (0 < r)%Z -> 0 < f).
  { intros H. unfold f. apply Qlt_shift_div_l; [exact Hd|].
    rewrite Qmult_0_l. change 0 with (inject_Z 0). rewrite <- Zlt_Qlt. exact H. }
  assert (F1 : f < 1).
  { unfold f. apply Qlt_shift_div_r; [exact Hd|]. rewrite Qmult_1_l, <- Zlt_Qlt. lia. }
  assert (Flt : (2 * r < d)%Z -> f < 1 # 2).
  { intros H. unfold f. apply Qlt_shift_div_r; [exact Hd|].
    rewrite Zlt_Qlt, inject_Z_mult in H. change (inject_Z 2) with 2 in H. lra. }
  assert (Feq : (2 * r = d)%Z -> f == 1 # 2).
  { intros <-. unfold f. rewrite inject_Z_mult. change (inject_Z 2) with 2.
    rewrite inject_Z_mult in Hd. change (inject_Z 2) with 2 in Hd. field. lra. }
  assert (Fgt : (d < 2 * r)%Z -> 1 # 2 < f).
  { intros H. unfold f. apply Qlt_shift_div_l; [exact Hd|].
    rewrite Zlt_Qlt, inject_Z_mult in H. change (inject_Z 2) with 2 in H. lra. }
  clearbody f.
  unfold new_location. destruct (Z.even d) eqn:Ev.
  - unfold new_location_even. destruct (Z.eqb_spec r 0) as [R0|R0].
    + unfold located; cbn [shr_record_of_loc shr_r shr_s shr_m]. rewrite (F0 R0). ring.
    + assert (Rp : (0 < r)%Z) by lia. specialize (Fpos Rp).
      destruct (Z.compare_spec (2 * r) d) as [C|C|C];
        unfold located; cbn [shr_record_of_loc shr_r shr_s shr_m].
      * rewrite (Feq C). reflexivity.
      * specialize (Flt C). lra.
      * specialize (Fgt C). lra.
  - unfold new_location_odd. destruct (Z.eqb_spec r 0) as [R0|R0].
    + unfold located; cbn [shr_record_of_loc shr_r shr_s shr_m]. rewrite (F0 R0). ring.
    + assert (Rp : (0 < r)%Z) by lia. specialize (Fpos Rp).
      assert (Od : (2 * r <> d)%Z).
      { intros <-. rewrite Z.even_mul in Ev. discriminate. }
      destruct (Z.compare_spec (2 * r + 1) d) as [C|C|C];
        unfold located; cbn [shr_record_of_loc shr_r shr_s shr_m].
      * specialize (Flt ltac:(lia)). lra.
      * specialize (Flt ltac:(lia)). lra.
      * specialize (Fgt ltac:(lia)). lra.
Qed.

Lemma digits2_pos_53 (m : positive) :
  (2 ^ 52 <= Z.pos m < 2 ^ 53)%Z -> Z.pos (digits2_pos m) = 53%Z.
Proof. intros H. apply digits2_pos_unique. exact H. Qed.

Theorem SFdiv_correct (x y : spec_float) (qx qy : Q) :
  represents x qx -> represents y qy -> ~ qy == 0 ->
  exp_in (-400) 400 x -> exp_in (-400) 400 y ->
  represents (SFdiv 53 1024 x y) (round (qx / qy)).
Proof.
  intros Hx Hy Ny Ex Ey.
  destruct Hy as [sy qy Zy | sy my ey qy Cy Ry Vy]; [contradiction|].
  destruct Hx as [sx qx Zx | sx mx ex qx Cx Rx Vx]; cbn [SFdiv].
  - constructor. rewrite round_eq0; [reflexivity|]. rewrite Zx. unfold Qdiv. ring.
  - cbn [exp_in] in Ex, Ey.
    unfold SFdiv_core_binary. cbn [Zdigits2].
    rewrite (digits2_pos_53 mx Cx), (digits2_pos_53 my Cy).
    rewrite fexp_normal by lia.
    replace (Z.min (53 + ex - (53 + ey) - 53) (ex - ey))%Z with (ex - ey - 53)%Z by lia.
    replace (ex - ey - (ex - ey - 53))%Z with 53%Z by lia.
    rewrite Z.shiftl_mul_pow2 by lia.
    pose proof (Z_div_mod (Z.pos mx * 2 ^ 53) (Z.pos my) ltac:(lia)) as DM.
    destruct (Z.div_eucl (Z.pos mx * 2 ^ 53) (Z.pos my)) as [q r].
    destruct DM as [DM Hr].
    assert (Hq : (2 ^ 52 <= q < 2 ^ 54)%Z).
    { change (2 ^ 54)%Z with (2 * 2 ^ 53)%Z. change (2 ^ 53)%Z with (2 * 2 ^ 52)%Z in *.
      split; nia. }
    destruct q as [|pq|pq]; [lia| |lia].
    set (p := inject_Z (Z.pos mx) * 2 ^ ex / (inject_Z (Z.pos my) * 2 ^ ey)).
    assert (My : 0 < inject_Z (Z.pos my) * 2 ^ ey) by apply pos_scaled_gt0.
    assert (Hp : 0 < p).
    { unfold p. apply Qlt_shift_div_l; [exact My|]. rewrite Qmult_0_l. apply pos_scaled_gt0. }
    assert (Dq : (53 <= Z.pos (digits2_pos pq) <= 54)%Z).
    { pose proof (digits2_pos_spec pq) as [Dl Du]. split.
      - assert (52 < Z.pos (digits2_pos pq))%Z; [|lia]. apply (Z.pow_lt_mono_r_iff 2); lia.
      - assert (Z.pos (digits2_pos pq) - 1 < 54)%Z; [|lia]. apply (Z.pow_lt_mono_r_iff 2); lia. }
    assert (P2 : ~ 2 ^ ey == 0) by apply pow2_neq0.
    assert (P3 : ~ inject_Z (Z.pos my) == 0).
    { change 0 with (inject_Z 0). rewrite inject_Z_injective. lia. }
    destruct (binary_round_aux_correct (xorb sx sy) pq (ex - ey - 53)
                (new_location (Z.pos my) r) p) as (m & e & -> & V & C & R).
    + eapply located_comp; [| reflexivity | apply (new_location_located (Z.pos pq) r (Z.pos my) Hr)].
      assert (E1 : inject_Z (Z.pos pq) + inject_Z r / inject_Z (Z.pos my) ==
                   inject_Z (Z.pos mx) * 2 ^ 53 / inject_Z (Z.pos my)).
      { rewrite <- (pow2_inject 53) by lia. rewrite <- inject_Z_mult, DM.
        rewrite inject_Z_plus, inject_Z_mult. field. exact P3. }
      assert (P5 : ~ 2 ^ ex == 0) by apply pow2_neq0.
      assert (P6 : 2 ^ (- (ex - ey - 53)) == 2 ^ 53 * 2 ^ ey / 2 ^ ex).
      { replace (- (ex - ey - 53))%Z with (53 + ey + - ex)%Z by lia.
        rewrite !pow2_plus, Qpower_opp. field. exact P5. }
      rewrite E1, P6. unfold p. field. repeat split; assumption.
    + lia.
    + lia.
    + apply (represents_rounded _ _ _ p); try assumption.
      rewrite Vx, Vy, !F2Q_sgn. unfold p.
      destruct sx, sy; cbn [sgn xorb]; field; repeat split; assumption.
Qed.

(** A float is a fixed point of the rounding. *)
Lemma round_represented (x : spec_float) (q : Q) : represents x q -> round q == q.
Proof.
  intros [s q' Z | s m e q' C R V].
  - rewrite (round_eq0 _ Z). symmetry. exact Z.
  - rewrite (round_comp _ _ V), F2Q_sgn, V, F2Q_sgn.
    rewrite round_sgn by apply pos_scaled_gt0.
    apply sgn_comp. apply round_pos_exact. unfold prec. lia.
Qed.

Lemma Zdigits2_bounds (d k : Z) :
  d <> 0%Z -> (Z.abs d < 2 ^ k)%Z -> (1 <= Zdigits2 d <= k)%Z.
Proof.
  intros Hd Hk.
  assert (K0 : (0 <= k)%Z).
  { destruct (Z_lt_le_dec k 0) as [N|?]; [|assumption].
    rewrite Z.pow_neg_r in Hk by exact N. lia. }
  assert (P : forall p : positive, (Z.pos p < 2 ^ k)%Z -> (1 <= Z.pos (digits2_pos p) <= k)%Z).
  { intros p Hp. pose proof (digits2_pos_spec p) as [Dl Du]. split; [lia|].
    assert (Z.pos (digits2_pos p) - 1 < k)%Z; [|lia]. apply (Z.pow_lt_mono_r_iff 2); lia. }
  destruct d as [|p|p]; [contradiction| |]; cbn [Zdigits2]; apply P; lia.
Qed.

Lemma inject_cond_Zopp (s : bool) (z : Z) : inject_Z (cond_Zopp s z) == sgn s (inject_Z z).
Proof. destruct s; cbn [cond_Zopp sgn]; [rewrite inject_Z_opp|]; reflexivity. Qed.

Theorem SFsub_correct (x y : spec_float) (qx qy : Q) :
  represents x qx -> represents y qy ->
  exp_in (-400) 400 x -> exp_in (-400) 400 y ->
  represents (SFsub 53 1024 x y) (round (qx - qy)).
Proof.
  intros Hx Hy Ex Ey.
  pose proof (round_represented x qx Hx) as Fx.
  pose proof (round_represented y qy Hy) as Fy.
  destruct Hx as [sx qx Zx | sx mx ex qx Cx Rx Vx];
    destruct Hy as [sy qy Zy | sy my ey qy Cy Ry Vy]; cbn [SFsub].
  - assert (Z0 : qx - qy == 0) by (rewrite Zx, Zy; ring).
    destruct sx, sy; constructor; rewrite (round_eq0 _ Z0); reflexivity.
  - constructor; [exact Cy | exact Ry |].
    assert (E : qx - qy == Float64.F2Q (negb sy) my ey).
    { rewrite Zx, Vy, !F2Q_sgn. destruct sy; cbn [negb sgn]; ring. }
    rewrite (round_comp _ _ E).
    apply (round_represented (S754_finite (negb sy) my ey)).
    constructor; [exact Cy | exact Ry | reflexivity].
  - constructor; [exact Cx | exact Rx |].
    assert (E : qx - qy == qx) by (rewrite Zy; ring).
    rewrite (round_comp _ _ E), Fx. exact Vx.
  - cbn [exp_in] in Ex, Ey. cbv zeta.
    set (ez := Z.min ex ey).
    pose proof (shl_align_spec mx ex ez) as [Sx Mx].
    pose proof (shl_align_spec my ey ez) as [Sy My].
    cbv zeta in Sx, Mx, Sy, My.
    replace (Z.min ex ez) with ez in Sx by (unfold ez; lia).
    replace (Z.min ey ez) with ez in Sy by (unfold ez; lia).
    rewrite Sx in Mx. rewrite Sy in My.
    set (ax := fst (shl_align mx ex ez)) in *.
    set (ay := fst (shl_align my ey ez)) in *.
    set (D := (cond_Zopp sx (Z.pos ax) - cond_Zopp sy (Z.pos ay))%Z).
    assert (Ha : (0 <= ex - ez)%Z) by (unfold ez; lia).
    assert (Hb : (0 <= ey - ez)%Z) by (unfold ez; lia).
    assert (V : inject_Z D * 2 ^ ez == qx - qy).
    { unfold D, Z.sub. rewrite inject_Z_plus, inject_Z_opp, !inject_cond_Zopp, Mx, My.
      rewrite !inject_Z_mult, !pow2_inject by assumption.
      rewrite Vx, Vy, !F2Q_sgn.
      assert (Px : 2 ^ (ex - ez) * 2 ^ ez == 2 ^ ex).
      { rewrite <- pow2_plus. f_equiv. lia. }
      assert (Py : 2 ^ (ey - ez) * 2 ^ ez == 2 ^ ey).
      { rewrite <- pow2_plus. f_equiv. lia. }
      rewrite <- Px, <- Py. destruct sx, sy; cbn [sgn]; ring. }
    rewrite <- (round_comp _ _ V).
    apply binary_normalize_correct. intros ND.
    assert (B : (Z.abs D < 2 ^ (54 + (ex - ez) + (ey - ez)))%Z).
    { assert (Bx : (Z.pos ax < 2 ^ 53 * 2 ^ (ex - ez))%Z).
      { rewrite Mx. apply Z.mul_lt_mono_pos_r; [apply Z.pow_pos_nonneg; lia | lia]. }
      assert (By : (Z.pos ay < 2 ^ 53 * 2 ^ (ey - ez))%Z).
      { rewrite My. apply Z.mul_lt_mono_pos_r; [apply Z.pow_pos_nonneg; lia | lia]. }
      assert (A1 : (1 <= 2 ^ (ex - ez))%Z) by (apply Z.pow_le_mono_r with (b := 0%Z) (a := 2%Z); lia).
      assert (B1 : (1 <= 2 ^ (ey - ez))%Z) by (apply Z.pow_le_mono_r with (b := 0%Z) (a := 2%Z); lia).
      replace (54 + (ex - ez) + (ey - ez))%Z with (1 + 53 + (ex - ez) + (ey - ez))%Z by lia.
      rewrite !Z.pow_add_r by lia. change (2 ^ 1)%Z with 2%Z.
      assert (T : (Z.abs D <= Z.pos ax + Z.pos ay)%Z).
      { unfold D. destruct sx, sy; cbn [cond_Zopp]; lia. }
      nia. }
    pose proof (Zdigits2_bounds D _ ND B). unfold ez in *. lia.
Qed.

Lemma Qabs_sgn (s : bool) (p : Q) : 0 < p -> Qabs (sgn s p) == p.
Proof.
  intros H. destruct s; cbn [sgn].
  - rewrite Qabs_opp. apply Qabs_pos. lra.
  - apply Qabs_pos. lra.
Qed.

(** The exponent of a float from bounds on the absolute value of what it
    denotes. *)
Lemma represents_exp (x : spec_float) (q : Q) (a b : Z) :
  represents x q ->
  (~ q == 0 -> 2 ^ a <= Qabs q /\ Qabs q <= 2 ^ b) ->
  exp_in (a - 52) (b - 52) x.
Proof.
  intros [s q' Z | s m e q' C R V] Hb; cbn [exp_in]; [exact I|].
  pose proof (pos_scaled_gt0 m e) as P.
  assert (A : Qabs q' == inject_Z (Z.pos m) * 2 ^ e).
  { rewrite V, F2Q_sgn. apply Qabs_sgn, P. }
  assert (N : ~ q' == 0).
  { intros Z. rewrite Z in A. change (Qabs 0) with 0 in A. lra. }
  destruct (Hb N) as [Bl Bu]. rewrite A in Bl, Bu.
  assert (L : 2 ^ (52 + e) <= inject_Z (Z.pos m) * 2 ^ e).
  { rewrite pow2_plus. apply Qmult_le_compat_r; [|apply Qlt_le_weak, pow2_pos].
    rewrite <- pow2_inject by lia. rewrite <- Zle_Qle. lia. }
  assert (U : inject_Z (Z.pos m) * 2 ^ e < 2 ^ (53 + e)).
  { rewrite pow2_plus. apply Qmult_lt_compat_r; [apply pow2_pos|].
    rewrite <- pow2_inject by lia. rewrite <- Zlt_Qlt. lia. }
  assert (L' : 2 ^ (52 + e) <= 2 ^ b) by lra.
  assert (U' : 2 ^ a < 2 ^ (53 + e)) by lra.
  apply Qpower_le_compat_l_inv in L'; [|reflexivity].
  apply Qpower_lt_compat_l_inv in U'; [|reflexivity].
  lia.
Qed.

Lemma exp_in_weaken (lo hi lo' hi' : Z) (x : spec_float) :
  (lo' <= lo)%Z -> (hi <= hi')%Z -> exp_in lo hi x -> exp_in lo' hi' x.
Proof. destruct x; cbn [exp_in]; intros; try exact I. lia. Qed.

(** A power of two is a float. *)
Lemma round_pow2 (k : Z) : round (2 ^ k) == 2 ^ k.
Proof.
  rewrite round_gt0 by apply pow2_pos.
  assert (E : 2 ^ k == inject_Z 1 * 2 ^ k) by (change (inject_Z 1) with 1; ring).
  apply Qeq_trans with (round_pos (inject_Z 1 * 2 ^ k)).
  - apply round_pos_comp; [apply pow2_pos | exact E].
  - rewrite round_pos_exact by (unfold prec; lia). symmetry. exact E.
Qed.

Theorem of_int_correct (z : Z) :
  (Z.abs z < 2 ^ 64)%Z -> represents (Float64.of_int z) (of_int z).
Proof.
  intros H. unfold Float64.of_int, of_int.
  assert (E : inject_Z z * 2 ^ 0 == inject_Z z) by (change (2 ^ 0) with 1; ring).
  rewrite <- (round_comp _ _ E).
  apply binary_normalize_correct. intros N.
  pose proof (Zdigits2_bounds z 64 N H). lia.
Qed.

Lemma of_int_nonneg (z : Z) : (0 <= z)%Z -> 0 <= of_int z.
Proof.
  intros H. unfold of_int. change 0 with (round 0) at 1. apply round_mono.
  change 0 with (inject_Z 0). rewrite <- Zle_Qle. exact H.
Qed.

Lemma of_int_mono (y z : Z) : (y <= z)%Z -> of_int y <= of_int z.
Proof. intros H. unfold of_int. apply round_mono. rewrite <- Zle_Qle. exact H. Qed.

Lemma of_int_small (z : Z) : (Z.abs z < 2 ^ 53)%Z -> of_int z == inject_Z z.
Proof. intros H. apply round_Z. exact H. Qed.

Lemma of_int_2_63 : of_int (2 ^ 63)%Z == 2 ^ 63.
Proof.
  unfold of_int. rewrite (round_comp _ _ (pow2_inject 63 ltac:(lia))).
  apply round_pow2.
Qed.

(** The formula of the axis value on floats, for a distance [d] within a
    positive width [s] that fits an [int]: the float operations of the
    standard library compute what the rounding of [Float64] gives. *)
Theorem formula_correct (d s : Z) :
  (0 <= d <= s)%Z -> (0 < s < 2 ^ 63)%Z ->
  represents
    (Float64.sub
       (Float64.div (Float64.mul (Float64.of_int 2) (Float64.of_int d)) (Float64.of_int s))
       (Float64.of_int 1))
    (sub (div (mul 2 (of_int d)) (of_int s)) 1).
Proof.
  intros Hd Hs. unfold Float64.sub, Float64.div, Float64.mul.
  set (rd := of_int d). set (rs := of_int s).
  assert (Rd : represents (Float64.of_int d) rd) by (apply of_int_correct; lia).
  assert (Rs : represents (Float64.of_int s) rs) by (apply of_int_correct; lia).
  assert (R1 : represents (Float64.of_int 1) 1).
  { rewrite <- (of_int_small 1) by (cbn; lia). apply of_int_correct. cbn; lia. }
  assert (R2 : represents (Float64.of_int 2) 2).
  { rewrite <- (of_int_small 2) by (cbn; lia). apply of_int_correct. cbn; lia. }
  (* the values *)
  assert (Vd0 : 0 <= rd) by (apply of_int_nonneg; lia).
  assert (Vds : rd <= rs) by (apply of_int_mono; lia).
  assert (Vs1 : 1 <= rs).
  { rewrite <- (of_int_small 1) by (cbn; lia). apply of_int_mono. lia. }
  assert (Vs63 : rs <= 2 ^ 63).
  { rewrite <- of_int_2_63. apply of_int_mono. lia. }
  assert (Vd1 : ~ rd == 0 -> 1 <= rd).
  { intros N. destruct (Z.eq_dec d 0%Z) as [D0|Nd]; [exfalso; apply N; unfold rd; rewrite D0; reflexivity|].
    rewrite <- (of_int_small 1) by (cbn; lia). apply of_int_mono. lia. }
  set (t := mul 2 rd).
  assert (Vt : t == 2 * rd).
  { unfold t, mul. rewrite round_double. unfold rd, of_int. rewrite round_idem. reflexivity. }
  set (qv := div t rs).
  assert (Q0 : 0 <= t / rs) by (rewrite Vt; apply Qle_shift_div_l; lra).
  assert (Q2 : t / rs <= 2) by (rewrite Vt; apply Qle_shift_div_r; lra).
  assert (Vq : 0 <= qv /\ qv <= 2).
  { unfold qv, div. apply round_between; [reflexivity | reflexivity | exact Q0 | exact Q2]. }
  assert (P62 : 2 ^ 63 * 2 ^ (-62) == 2) by reflexivity.
  assert (Vq1 : ~ qv == 0 -> 2 ^ (-62) <= qv).
  { intros N.
    assert (Nd : ~ rd == 0).
    { intros Z. apply N. unfold qv, div. apply Qeq_eq_bool in Z.
      rewrite round_eq0; [reflexivity|]. rewrite Vt. apply Qeq_bool_eq in Z. rewrite Z.
      unfold Qdiv. ring. }
    specialize (Vd1 Nd).
    unfold qv, div. rewrite <- (round_pow2 (-62)). apply round_mono.
    rewrite Vt. apply Qle_shift_div_l; [lra|].
    apply Qle_trans with (2 ^ (-62) * 2 ^ 63); [|rewrite Qmult_comm, P62; lra].
    apply Qmult_le_l; [apply pow2_pos | exact Vs63]. }
  (* the floats *)
  assert (Ed : exp_in (-400) 390 (Float64.of_int d)).
  { apply (exp_in_weaken (0 - 52) (63 - 52)); [lia | lia |].
    apply (represents_exp _ rd); [exact Rd|]. intros N. specialize (Vd1 N).
    rewrite Qabs_pos by lra. change (2 ^ 0) with 1. split; lra. }
  assert (Es : exp_in (-400) 400 (Float64.of_int s)).
  { apply (exp_in_weaken (0 - 52) (63 - 52)); [lia | lia |].
    apply (represents_exp _ rs); [exact Rs|]. intros _.
    rewrite Qabs_pos by lra. change (2 ^ 0) with 1. split; lra. }
  assert (Rt : represents (SFmul 53 1024 (Float64.of_int 2) (Float64.of_int d)) t).
  { apply SFmul_correct; [exact R2 | exact Rd | exact I || (vm_compute; intuition discriminate) | exact Ed]. }
  assert (Et : exp_in (-400) 400 (SFmul 53 1024 (Float64.of_int 2) (Float64.of_int d))).
  { apply (exp_in_weaken (1 - 52) (64 - 52)); [lia | lia |].
    apply (represents_exp _ t); [exact Rt|]. intros N.
    assert (Nd : ~ rd == 0) by (intros Z; apply N; rewrite Vt, Z; ring).
    specialize (Vd1 Nd). rewrite Qabs_pos by lra.
    change (2 ^ 1) with 2. change (2 ^ 64) with (2 * 2 ^ 63). split; lra. }
  assert (Rq : represents (SFdiv 53 1024 (SFmul 53 1024 (Float64.of_int 2) (Float64.of_int d)) (Float64.of_int s)) qv).
  { apply SFdiv_correct; [exact Rt | exact Rs | lra | exact Et | exact Es]. }
  assert (Eq : exp_in (-400) 400 (SFdiv 53 1024 (SFmul 53 1024 (Float64.of_int 2) (Float64.of_int d)) (Float64.of_int s))).
  { apply (exp_in_weaken (-62 - 52) (1 - 52)); [lia | lia |].
    apply (represents_exp _ qv); [exact Rq|]. intros N. specialize (Vq1 N).
    rewrite Qabs_pos by lra. change (2 ^ 1) with 2. split; lra. }
  apply SFsub_correct; [exact Rq | exact R1 | exact Eq | vm_compute; intuition discriminate].
Qed.

End Float64Facts.

(** *** Slices and the loops of [update] *)

Section SliceFacts.
Context {A : Type}.
Implicit Types (s : slice A) (l : elements).
Local Open Scope nat_scope.

Lemma reslice_Some n s :
  n <= cap s ->
  reslice n s = Some (Slice (take n (elts s ++ spare s)) (drop n (elts s ++ spare s))).
Proof. intros H. unfold reslice. rewrite decide_True by exact H. reflexivity. Qed.

(** The first lines of [update] never panic and leave a buffer of the
    requested length. *)
Lemma resize_Some (zero : A) n s :
  exists s', resize zero n s = Some s' /\ len s' = n.
Proof.
  unfold resize. destruct (decide (cap s < n)) as [Hlt|Hge].
  - rewrite reslice_Some by (unfold cap, make; simpl; rewrite length_replicate; lia).
    eexists; split; [reflexivity|].
    unfold len; simpl. rewrite length_take, length_app, length_replicate. simpl. lia.
  - rewrite reslice_Some by lia.
    eexists; split; [reflexivity|].
    unfold len; simpl. rewrite length_take, length_app. unfold cap in Hge. lia.
Qed.

(** A loop that stores one value per element overwrites the positions it
    visits with the values of its body, and nothing else. *)
Lemma range_store_spec (body : element -> option A) l : forall i s vs,
  mapM body l = Some vs ->
  i + length l <= len s ->
  range_store body i l s =
    Some (Slice (take i (elts s) ++ vs ++ drop (i + length l) (elts s)) (spare s)).
Proof.
  induction l as [|e l IH]; intros i s vs Hm Hlen; simpl in *.
  - injection Hm as <-. simpl. rewrite Nat.add_0_r, take_drop. destruct s; reflexivity.
  - destruct (body e) as [v|] eqn:Hb; simpl in Hm; [|discriminate].
    destruct (mapM body l) as [vs'|] eqn:Hm'; simpl in Hm; [|discriminate].
    injection Hm as <-. simpl.
    unfold slice_set. rewrite decide_True by lia. simpl.
    rewrite (IH (S i) _ vs' eq_refl) by (unfold len in *; simpl; rewrite length_insert; lia).
    simpl. f_equal. f_equal.
    assert (Hi : i < length (elts s)) by (unfold len in Hlen; lia).
    rewrite (take_S_r _ _ v) by (apply list_lookup_insert_eq; exact Hi).
    rewrite take_insert_ge by lia.
    rewrite drop_insert_lt by lia.
    rewrite <- app_assoc. simpl. rewrite Nat.add_succ_r. reflexivity.
Qed.

Lemma range_store_all (body : element -> option A) l s vs :
  mapM body l = Some vs -> len s = length l ->
  range_store body 0 l s = Some (Slice vs (spare s)).
Proof.
  intros Hm Hlen. rewrite (range_store_spec body l 0 s vs Hm) by lia.
  simpl. rewrite drop_ge by (unfold len in Hlen; lia). rewrite app_nil_r. reflexivity.
Qed.

Lemma mapM_total (f : element -> A) l : mapM (λ e, Some (f e)) l = Some (f <$> l).
Proof. induction l as [|e l IH]; simpl; [reflexivity|]. rewrite IH. reflexivity. Qed.

End SliceFacts.

(** *** The value sampler *)

Section Sampler.
Variable hid : hid_values.
Implicit Types (g : nativeGamepad) (e a h b : element).

Lemma hat_index_decode (state : Z) :
  0 <= state < 8 -> hatStates !! Z.to_nat state = Some (hat_decode state).
Proof.
  intros H. rewrite <- (Z2Nat.id state) at 2 by lia.
  assert (Hk : (Z.to_nat state < 8)%nat) by lia.
  generalize dependent (Z.to_nat state). intros k Hk.
  do 8 (destruct k as [|k]; [reflexivity|]). lia.
Qed.

Lemma hat_decode_outside (state : Z) :
  state < 0 \/ 7 < state -> hat_decode state = hatCentered.
Proof.
  intros H. destruct state as [|p|p]; [lia| |reflexivity].
  do 3 (destruct p as [p|p|]; try reflexivity; try lia).
Qed.

(** The hat loop never indexes [hatStates] out of range, and stores what
    the table of the spec gives. *)
Lemma hat_body_decode g h :
  hat_body hid g h = Some (hat_decode (elementValue hid g h)).
Proof.
  unfold hat_body. set (state := elementValue hid g h).
  change (Z.of_nat (length hatStates)) with 8.
  destruct (state <? 0) eqn:E1; simpl.
  - apply Z.ltb_lt in E1. rewrite hat_decode_outside by lia. reflexivity.
  - apply Z.ltb_ge in E1. destruct (state >=? 8) eqn:E2.
    + apply Z.geb_le in E2. rewrite hat_decode_outside by lia. reflexivity.
    + rewrite Z.geb_leb in E2. apply Z.leb_gt in E2. apply hat_index_decode. lia.
Qed.

Lemma mapM_hat_body g l :
  mapM (hat_body hid g) l = Some ((λ h, hat_decode (elementValue hid g h)) <$> l).
Proof.
  induction l as [|h l IH]; simpl; [reflexivity|].
  rewrite hat_body_decode. simpl. rewrite IH. reflexivity.
Qed.

(** [update] never panics; it leaves the device and the three buckets as
    they were and fills each buffer with one value per element. *)
Lemma update_Some g :
  exists sa sb sh,
    update hid g =
      Some (NativeGamepad (device g) (axes g) (buttons g) (hats g)
              (Slice (axis_body hid g <$> axes g) sa)
              (Slice (button_body hid g <$> buttons g) sb)
              (Slice ((λ h, hat_decode (elementValue hid g h)) <$> hats g) sh)).
Proof.
  unfold update.
  destruct (resize_Some Float64.zero (length (axes g)) (axisValues g)) as (av & -> & Ha).
  destruct (resize_Some false (length (buttons g)) (buttonValues g)) as (bv & -> & Hb).
  destruct (resize_Some hatCentered (length (hats g)) (hatValues g)) as (hv & -> & Hh).
  simpl.
  rewrite (range_store_all _ _ av _ (mapM_total (axis_body hid g) (axes g)) Ha).
  simpl.
  rewrite (range_store_all _ _ bv _ (mapM_total (button_body hid g) (buttons g)) Hb). simpl.
  rewrite (range_store_all _ _ hv _ (mapM_hat_body g (hats g)) Hh). simpl.
  eauto.
Qed.

Lemma update_axes_unchanged g g' : update hid g = Some g' -> axes g' = axes g.
Proof.
  destruct (update_Some g) as (sa & sb & sh & ->). intros [= <-]. reflexivity.
Qed.

Lemma update_axisValues g g' i a :
  update hid g = Some g' -> axes g !! i = Some a ->
  slice_get (axisValues g') i = Some (axis_body hid g a).
Proof.
  destruct (update_Some g) as (sa & sb & sh & ->). intros [= <-] Ha.
  unfold slice_get. cbn [axisValues buttonValues hatValues elts]. rewrite list_lookup_fmap, Ha. reflexivity.
Qed.

Lemma update_buttonValues g g' i b :
  update hid g = Some g' -> buttons g !! i = Some b ->
  slice_get (buttonValues g') i = Some (button_body hid g b).
Proof.
  destruct (update_Some g) as (sa & sb & sh & ->). intros [= <-] Hb.
  unfold slice_get. cbn [axisValues buttonValues hatValues elts]. rewrite list_lookup_fmap, Hb. reflexivity.
Qed.

Lemma update_hatValues g g' i h :
  update hid g = Some g' -> hats g !! i = Some h ->
  slice_get (hatValues g') i = Some (hat_decode (elementValue hid g h)).
Proof.
  destruct (update_Some g) as (sa & sb & sh & ->). intros [= <-] Hh.
  unfold slice_get. cbn [axisValues buttonValues hatValues elts]. rewrite list_lookup_fmap, Hh. reflexivity.
Qed.

(** After [update] each buffer has one value per element of its bucket. *)
Lemma update_counts g g' :
  update hid g = Some g' ->
  axisNum g' = Z.of_nat (length (axes g')) /\
  buttonNum g' = Z.of_nat (length (buttons g')) /\
  hatNum g' = Z.of_nat (length (hats g')).
Proof.
  destruct (update_Some g) as (sa & sb & sh & ->). intros [= <-].
  unfold axisNum, buttonNum, hatNum, len. simpl. rewrite !length_fmap. auto.
Qed.

End Sampler.

(** *** The normalisation of an axis reading *)

Section AxisValue.
Import Rounding RoundingFacts Float64Facts.

Lemma wrap_fits (z : Z) : GoInt.min_int <= z <= GoInt.max_int -> GoInt.wrap z = z.
Proof.
  unfold GoInt.min_int, GoInt.max_int, GoInt.wrap. intros H.
  rewrite Z.mod_small by lia. lia.
Qed.

(** After the two [if]s the reading lies between the bounds of the loop
    variable. *)
Lemma widen_encloses (raw : Z) (a : element) :
  minimum (widen raw a) <= raw <= maximum (widen raw a).
Proof.
  unfold widen.
  destruct (raw <? minimum a) eqn:E1; simpl;
    [apply Z.ltb_lt in E1 | apply Z.ltb_ge in E1];
    (destruct (raw >? maximum a) eqn:E2; simpl;
     [apply Z.gtb_lt in E2 | rewrite Z.gtb_ltb in E2; apply Z.ltb_ge in E2]); lia.
Qed.

(** The two [if]s only move a bound outwards, and to the reading. *)
Lemma widen_bounds (raw : Z) (a : element) :
  minimum (widen raw a) = Z.min raw (minimum a) /\
  maximum (widen raw a) = Z.max raw (maximum a).
Proof.
  unfold widen.
  destruct (raw <? minimum a) eqn:E1; simpl;
    [apply Z.ltb_lt in E1 | apply Z.ltb_ge in E1];
    (destruct (raw >? maximum a) eqn:E2; simpl;
     [apply Z.gtb_lt in E2 | rewrite Z.gtb_ltb in E2; apply Z.ltb_ge in E2]); lia.
Qed.

Local Open Scope Q_scope.

(** The quotient of the formula, for a distance [d] within a positive
    width [s]: every rounding keeps it between 0 and 2. *)
Lemma quotient_bounds (d s : Z) :
  (0 <= d <= s)%Z -> (0 < s)%Z ->
  0 <= div (mul 2 (of_int d)) (of_int s) /\ div (mul 2 (of_int d)) (of_int s) <= 2.
Proof.
  intros Hd Hs. unfold div, mul.
  set (rd := of_int d). set (rs := of_int s).
  assert (Hrd0 : 0 <= rd) by (apply of_int_nonneg; lia).
  assert (Hrds : rd <= rs) by (apply of_int_mono; lia).
  assert (Hrs1 : 1 <= rs).
  { rewrite <- (of_int_small 1) by (cbn; lia). apply of_int_mono. lia. }
  assert (Ht : round (2 * rd) == 2 * rd).
  { rewrite round_double. unfold rd, of_int. rewrite round_idem. reflexivity. }
  assert (Hq0 : 0 <= round (2 * rd) / rs).
  { rewrite Ht. apply Qle_shift_div_l; lra. }
  assert (Hq2 : round (2 * rd) / rs <= 2).
  { rewrite Ht. apply Qle_shift_div_r; lra. }
  apply round_between; [reflexivity | reflexivity | exact Hq0 | exact Hq2].
Qed.

(** The formula stays between -1 and 1. *)
Lemma formula_bounds (d s : Z) :
  (0 <= d <= s)%Z -> (0 < s)%Z ->
  -1 <= sub (div (mul 2 (of_int d)) (of_int s)) 1 /\
  sub (div (mul 2 (of_int d)) (of_int s)) 1 <= 1.
Proof.
  intros Hd Hs. destruct (quotient_bounds d s Hd Hs) as [H0 H2].
  unfold sub. apply round_between; [reflexivity | reflexivity | lra | lra].
Qed.

(** A float that represents a number denotes it. *)
Lemma represents_toQ (x : float64) (q : Q) :
  represents x q -> exists q', Float64.toQ x = Some q' /\ q' == q.
Proof.
  intros [s q' Z | s m e q' C R V]; cbn [Float64.toQ].
  - exists 0. split; [reflexivity | symmetry; exact Z].
  - eexists. split; [reflexivity | symmetry; exact V].
Qed.

(** The value of an axis whose range does not overflow an [int]: the
    float denotes the rounded formula, a number between -1 and 1. *)
Lemma axis_value_bounds (raw : Z) (a : element) :
  (minimum a <= raw <= maximum a)%Z ->
  (maximum a - minimum a <= GoInt.max_int)%Z ->
  exists q, Float64.toQ (axis_value raw a) = Some q /\ -1 <= q /\ q <= 1.
Proof.
  intros Hin Hfit. unfold axis_value, GoInt.sub.
  assert (Hmm : (GoInt.min_int <= 0)%Z) by (unfold GoInt.min_int; lia).
  rewrite (wrap_fits (maximum a - minimum a)) by lia.
  rewrite (wrap_fits (raw - minimum a)) by lia.
  destruct (Z.eqb_spec (maximum a - minimum a) 0) as [E|NE].
  - exists 0. split; [reflexivity|]. split; discriminate.
  - set (d := (raw - minimum a)%Z) in *. set (s := (maximum a - minimum a)%Z) in *.
    assert (Hd : (0 <= d <= s)%Z) by (unfold d, s; lia).
    assert (Hs : (0 < s < 2 ^ 63)%Z) by (unfold GoInt.max_int in Hfit; lia).
    destruct (represents_toQ _ _ (formula_correct d s Hd Hs)) as (q & Eq & Vq).
    exists q. split; [exact Eq|].
    destruct (formula_bounds d s Hd ltac:(lia)) as [Bl Bu].
    rewrite Vq. split; assumption.
Qed.

Lemma axis_value_zero_width (raw : Z) (a : element) :
  (maximum a - minimum a = 0)%Z -> axis_value raw a = Float64.zero.
Proof.
  intros E. unfold axis_value, GoInt.sub. rewrite E. reflexivity.
Qed.

(** Without the hypothesis on the width the subtractions wrap around: an
    axis of bounds [min_int .. max_int] that reads 0 gets the value
    [2 ^ 64]. *)
Lemma axis_value_overflow :
  exists q,
    Float64.toQ
      (axis_value 0 (widen 0 (Element 1%Z kHIDUsage_GD_X 0%Z GoInt.min_int GoInt.max_int)))
    = Some q /\ q == inject_Z (2 ^ 64).
Proof. eexists. split; [vm_compute; reflexivity | reflexivity]. Qed.

End AxisValue.

(** *** The claims on the value sampler *)

Section SamplerClaims.
Local Open Scope Z_scope.

(** C1 (the code departs from the claim).  A reading below the minimum of
    an axis does not lower the stored minimum: the axis loop widens the
    bounds of its loop variable, a copy, and [g.axes] keeps the bounds it
    had.  Here the X axis of [sample_pad] has bounds 0..255 and reads -5;
    after [update] the stored bounds are still 0..255, and a second poll
    that reads 0 yields -1 again, not the value within a range lowered to
    -5. *)
Theorem update_forgets_widened_bounds :
  exists g' g'',
    update (hid_reads (-5)) sample_pad = Some g' /\
    elementValue (hid_reads (-5)) sample_pad sample_axis = -5 /\
    minimum sample_axis = 0 /\
    axes g' = [sample_axis] /\
    update (hid_reads 0) g' = Some g'' /\
    elts (axisValues g'') = [Float64.of_int (-1)].
Proof.
  do 2 eexists. repeat split; vm_compute; reflexivity.
Qed.




(** C3 (counterexample).  Every read of [sample_pad] fails: the hat is
    stored as up, not as centered. *)
Lemma failed_hat_read_is_up :
  exists g', update hid_failing sample_pad = Some g' /\
             read_fails hid_failing sample_pad sample_hat /\
             slice_get (hatValues g') 0 = Some hatUp /\
             hatUp <> hatCentered.
Proof.
  eexists. split; [vm_compute; reflexivity|]. split; [right; reflexivity|].
  split; [reflexivity | discriminate].
Qed.

(** C3 (amended).  A failed read, the device reference being null
    included, is the reading 0 and never an error: [update] returns, an
    axis gets the value of the reading 0, a button is not pressed, and a
    hat gets the state of the reading 0, which is up. *)
Theorem read_failure_is_reading_zero (hid : hid_values) (g : nativeGamepad)
    (i : nat) (e : element) :
  read_fails hid g e ->
  elementValue hid g e = 0 /\
  exists g', update hid g = Some g' /\
    (axes g !! i = Some e ->
       slice_get (axisValues g') i = Some (axis_value 0 (widen 0 e))) /\
    (buttons g !! i = Some e -> slice_get (buttonValues g') i = Some false) /\
    (hats g !! i = Some e -> slice_get (hatValues g') i = Some hatUp).
Proof.
  intros Hf.
  assert (E : elementValue hid g e = 0).
  { unfold elementValue. destruct Hf as [-> | ->]; [reflexivity|].
    destruct (device g =? 0); reflexivity. }
  split; [exact E|].
  destruct (update_Some hid g) as (sa & sb & sh & Hu).
  eexists. split; [exact Hu|]. repeat split; intros Hl.
  - rewrite (update_axisValues hid g _ i e Hu Hl). unfold axis_body. rewrite E. reflexivity.
  - rewrite (update_buttonValues hid g _ i e Hu Hl). unfold button_body. rewrite E. reflexivity.
  - rewrite (update_hatValues hid g _ i e Hu Hl). rewrite E. reflexivity.
Qed.

Lemma read_failure_is_reading_zero_witness :
  elementValue hid_failing sample_pad sample_hat = 0 /\
  exists g', update hid_failing sample_pad = Some g' /\
    (axes sample_pad !! 0%nat = Some sample_hat ->
       slice_get (axisValues g') 0 = Some (axis_value 0 (widen 0 sample_hat))) /\
    (buttons sample_pad !! 0%nat = Some sample_hat ->
       slice_get (buttonValues g') 0 = Some false) /\
    (hats sample_pad !! 0%nat = Some sample_hat -> slice_get (hatValues g') 0 = Some hatUp).
Proof.
  apply (read_failure_is_reading_zero hid_failing sample_pad 0%nat sample_hat).
  right. reflexivity.
Defined.

(** C4.  The state [update] stores for a hat is the one the table gives for
    its reading: up, right-up, right, right-down, down, left-down, left,
    left-up for 0 to 7 in that order, and centered for every reading
    outside 0..7. *)
Theorem hat_decoding (hid : hid_values) (g g' : nativeGamepad) (i : nat) (h : element) :
  update hid g = Some g' ->
  hats g !! i = Some h ->
  let state := elementValue hid g h in
  (0 <= state <= 7 ->
   slice_get (hatValues g') i =
     [hatUp; hatRightUp; hatRight; hatRightDown;
      hatDown; hatLeftDown; hatLeft; hatLeftUp] !! Z.to_nat state) /\
  (state < 0 \/ 7 < state -> slice_get (hatValues g') i = Some hatCentered).
Proof.
  intros Hu Hh state.
  rewrite (update_hatValues hid g g' i h Hu Hh). fold state. split.
  - intros Hin. symmetry. apply hat_index_decode. lia.
  - intros Ho. rewrite hat_decode_outside by exact Ho. reflexivity.
Qed.

Lemma hat_decoding_witness :
  (0 <= elementValue (hid_reads 6) sample_pad sample_hat <= 7 ->
   slice_get (hatValues (default sample_pad (update (hid_reads 6) sample_pad))) 0 =
     [hatUp; hatRightUp; hatRight; hatRightDown;
      hatDown; hatLeftDown; hatLeft; hatLeftUp]
       !! Z.to_nat (elementValue (hid_reads 6) sample_pad sample_hat)) /\
  (elementValue (hid_reads 6) sample_pad sample_hat < 0 \/
   7 < elementValue (hid_reads 6) sample_pad sample_hat ->
   slice_get (hatValues (default sample_pad (update (hid_reads 6) sample_pad))) 0
     = Some hatCentered).
Proof.
  apply (hat_decoding (hid_reads 6) sample_pad _ 0%nat sample_hat); reflexivity.
Defined.

End SamplerClaims.

(** *** The accessors *)

Section Accessors.
Local Open Scope Z_scope.

Lemma slice_get_in_range {A : Type} (s : slice A) (i : Z) :
  0 <= i < Z.of_nat (len s) -> is_Some (slice_get s (Z.to_nat i)).
Proof.
  intros H. unfold slice_get. apply lookup_lt_is_Some. unfold len in H. lia.
Qed.

Lemma out_of_range_test (i n : Z) :
  (i <? 0) || (i >=? n) = true <-> i < 0 \/ n <= i.
Proof.
  rewrite orb_true_iff, Z.ltb_lt, Z.geb_le. lia.
Qed.

(** C9.  Whatever the gamepad and the index, each accessor returns (it
    never panics) and leaves the gamepad as it was; for an index below 0 or
    not below the number of values, [axisValue] is 0, [isButtonPressed] is
    false and [hatState] is centered. *)
Theorem accessors_out_of_range (g : nativeGamepad) (i : Z) :
  (exists v, axisValue g i = Some (v, g) /\
             (i < 0 \/ axisNum g <= i -> v = Float64.zero)) /\
  (exists v, isButtonPressed g i = Some (v, g) /\
             (i < 0 \/ buttonNum g <= i -> v = false)) /\
  (exists v, hatState g i = Some (v, g) /\
             (i < 0 \/ hatNum g <= i -> v = hatCentered)).
Proof.
  unfold axisValue, isButtonPressed, hatState, axisNum, buttonNum, hatNum.
  repeat split.
  - destruct ((i <? 0) || (i >=? Z.of_nat (len (axisValues g)))) eqn:E.
    + eexists; split; [reflexivity | reflexivity].
    + assert (H : ~ (i < 0 \/ Z.of_nat (len (axisValues g)) <= i)).
      { rewrite <- out_of_range_test. congruence. }
      destruct (slice_get_in_range (axisValues g) i ltac:(lia)) as [v ->].
      exists v; split; [reflexivity | tauto].
  - destruct ((i <? 0) || (i >=? Z.of_nat (len (buttonValues g)))) eqn:E.
    + eexists; split; [reflexivity | reflexivity].
    + assert (H : ~ (i < 0 \/ Z.of_nat (len (buttonValues g)) <= i)).
      { rewrite <- out_of_range_test. congruence. }
      destruct (slice_get_in_range (buttonValues g) i ltac:(lia)) as [v ->].
      exists v; split; [reflexivity | tauto].
  - destruct ((i <? 0) || (i >=? Z.of_nat (len (hatValues g)))) eqn:E.
    + eexists; split; [reflexivity | reflexivity].
    + assert (H : ~ (i < 0 \/ Z.of_nat (len (hatValues g)) <= i)).
      { rewrite <- out_of_range_test. congruence. }
      destruct (slice_get_in_range (hatValues g) i ltac:(lia)) as [v ->].
      exists v; split; [reflexivity | tauto].
Qed.

(** An accessor with an index in range reads the buffer. *)
Lemma axisValue_in_range (g : nativeGamepad) (i : nat) (v : float64) :
  slice_get (axisValues g) i = Some v -> axisValue g (Z.of_nat i) = Some (v, g).
Proof.
  intros H. unfold axisValue.
  assert (L : (i < len (axisValues g))%nat) by (apply lookup_lt_Some in H; exact H).
  replace ((Z.of_nat i <? 0) || (Z.of_nat i >=? Z.of_nat (len (axisValues g)))) with false
    by (symmetry; apply orb_false_iff; split; [apply Z.ltb_ge | rewrite Z.geb_leb; apply Z.leb_gt]; lia).
  rewrite Nat2Z.id, H. reflexivity.
Qed.

Lemma isButtonPressed_in_range (g : nativeGamepad) (i : nat) (v : bool) :
  slice_get (buttonValues g) i = Some v -> isButtonPressed g (Z.of_nat i) = Some (v, g).
Proof.
  intros H. unfold isButtonPressed.
  assert (L : (i < len (buttonValues g))%nat) by (apply lookup_lt_Some in H; exact H).
  replace ((Z.of_nat i <? 0) || (Z.of_nat i >=? Z.of_nat (len (buttonValues g)))) with false
    by (symmetry; apply orb_false_iff; split; [apply Z.ltb_ge | rewrite Z.geb_leb; apply Z.leb_gt]; lia).
  rewrite Nat2Z.id, H. reflexivity.
Qed.

Lemma hatState_in_range (g : nativeGamepad) (i : nat) (v : hatState_t) :
  slice_get (hatValues g) i = Some v -> hatState g (Z.of_nat i) = Some (v, g).
Proof.
  intros H. unfold hatState.
  assert (L : (i < len (hatValues g))%nat) by (apply lookup_lt_Some in H; exact H).
  replace ((Z.of_nat i <? 0) || (Z.of_nat i >=? Z.of_nat (len (hatValues g)))) with false
    by (symmetry; apply orb_false_iff; split; [apply Z.ltb_ge | rewrite Z.geb_leb; apply Z.leb_gt]; lia).
  rewrite Nat2Z.id, H. reflexivity.
Qed.

(** X1.  A poll never panics, keeps the device reference and the three buckets,
    and leaves one value per element; a button is pressed exactly when its
    reading is positive. *)
Theorem update_samples_every_element (hid : hid_values) (g : nativeGamepad) :
  exists g',
    update hid g = Some g' /\
    device g' = device g /\ axes g' = axes g /\ buttons g' = buttons g /\ hats g' = hats g /\
    axisNum g' = Z.of_nat (length (axes g)) /\
    buttonNum g' = Z.of_nat (length (buttons g)) /\
    hatNum g' = Z.of_nat (length (hats g)) /\
    (forall (i : nat) (b : element),
       buttons g !! i = Some b ->
       isButtonPressed g' (Z.of_nat i) = Some (bool_decide (0 < elementValue hid g b), g')).
Proof.
  destruct (update_Some hid g) as (sa & sb & sh & Hu).
  eexists. split; [exact Hu|].
  pose proof (update_counts hid g _ Hu) as (Ca & Cb & Ch).
  repeat split; try reflexivity; try assumption.
  intros i b Hb. apply isButtonPressed_in_range.
  rewrite (update_buttonValues hid g _ i b Hu Hb). unfold button_body. f_equal.
  destruct (Z.gtb_spec (elementValue hid g b) 0) as [G|G].
  - rewrite bool_decide_eq_true_2 by lia. reflexivity.
  - rewrite bool_decide_eq_false_2 by lia. reflexivity.
Qed.

(** The X axis of [sample_pad], bounds 0..255, reads 0, then 128, then
    255: the values are -1, the double nearest to 2*128/255 - 1, and 1, and
    the stored bounds stay 0..255. *)
Theorem axis_scenario :
  exists (g1 g2 g3 : nativeGamepad) (v : float64) (q : Q),
    update (hid_reads 0) sample_pad = Some g1 /\
    update (hid_reads 128) g1 = Some g2 /\
    update (hid_reads 255) g2 = Some g3 /\
    axisValue g1 0 = Some (Float64.of_int (-1), g1) /\
    axisValue g2 0 = Some (v, g2) /\
    Float64.toQ v = Some q /\
    (Qabs (q - (1 # 255)) <= 1 # 2 ^ 55)%Q /\
    axisValue g3 0 = Some (Float64.of_int 1, g3) /\
    axes g3 = [Element 1 kHIDUsage_GD_X 0 0 255].
Proof.
  do 5 eexists.
  split; [vm_compute; reflexivity|].
  split; [vm_compute; reflexivity|].
  split; [vm_compute; reflexivity|].
  split; [vm_compute; reflexivity|].
  split; [vm_compute; reflexivity|].
  split; [vm_compute; reflexivity|].
  split; [vm_compute; discriminate|].
  split; vm_compute; reflexivity.
Qed.

(** The hat of [sample_pad] reads 0, 2, 4, 6, then 8: its states are up,
    right, down, left, centered. *)
Theorem hat_scenario :
  (λ raw, g ← update (hid_reads raw) sample_pad; fst <$> hatState g 0) <$> [0; 2; 4; 6; 8]
  = Some <$> [hatUp; hatRight; hatDown; hatLeft; hatCentered].
Proof. vm_compute. reflexivity. Qed.

End Accessors.

(** *** The identifier *)

Section Identifier.
Local Open Scope Z_scope.

Lemma unhex_hex_digit (n : Z) : 0 <= n < 16 -> unhex_digit (hex_digit n) = Some n.
Proof.
  intros H. rewrite <- (Z2Nat.id n) by lia.
  assert (Hk : (Z.to_nat n < 16)%nat) by lia.
  generalize dependent (Z.to_nat n). intros k Hk.
  do 16 (destruct k as [|k]; [reflexivity|]). lia.
Qed.

Lemma unhex_fmt_02x (b : Z) (rest : string) :
  is_byte b -> unhex (fmt_02x b +:+ rest) = (bs ← unhex rest; Some (b :: bs)).
Proof.
  intros Hb. unfold is_byte in Hb. unfold fmt_02x.
  change (String (hex_digit (b / 16)) (String (hex_digit (b mod 16)) "") +:+ rest)
    with (String (hex_digit (b / 16)) (String (hex_digit (b mod 16)) rest)).
  cbn [unhex].
  rewrite (unhex_hex_digit (b / 16)) by (split; [apply Z.div_pos | apply Z.div_lt_upper_bound]; lia).
  rewrite (unhex_hex_digit (b mod 16)) by (apply Z.mod_pos_bound; lia).
  cbn [mbind option_bind]. destruct (unhex rest) as [bs|]; [|reflexivity].
  cbn [mbind option_bind]. do 2 f_equal. rewrite (Z.div_mod b 16) at 3 by lia. lia.
Qed.

Lemma unhex_hex_bytes (bs : list Z) : Forall is_byte bs -> unhex (hex_bytes bs) = Some bs.
Proof.
  induction 1 as [|b bs Hb _ IH]; [reflexivity|].
  cbn [hex_bytes]. rewrite unhex_fmt_02x by exact Hb. rewrite IH. reflexivity.
Qed.

Lemma length_append (s1 s2 : string) :
  String.length (s1 +:+ s2) = (String.length s1 + String.length s2)%nat.
Proof. induction s1 as [|c s1 IH]; [reflexivity|]. simpl. rewrite IH. reflexivity. Qed.

Lemma prefix_append (s t : string) : String.prefix s (s +:+ t) = true.
Proof.
  induction s as [|c s IH]; simpl.
  - destruct t; reflexivity.
  - destruct (ascii_dec c c) as [_|N]; [exact IH | contradiction].
Qed.

Lemma length_hex_bytes (bs : list Z) : String.length (hex_bytes bs) = (2 * length bs)%nat.
Proof.
  induction bs as [|b bs IH]; [reflexivity|].
  cbn [hex_bytes]. rewrite length_append, IH. cbn. lia.
Qed.

Lemma byte_is_byte (v : Z) : is_byte (GoInt.byte v).
Proof. unfold is_byte, GoInt.byte. apply Z.mod_pos_bound. lia. Qed.

(** The two bytes printed for a value are its low 16 bits, low byte
    first. *)
Lemma bytes_little_endian (v : Z) :
  GoInt.byte v + 256 * GoInt.byte (v ≫ 8) = v mod 2 ^ 16.
Proof.
  unfold GoInt.byte. rewrite Z.shiftr_div_pow2 by lia.
  change (2 ^ 8) with 256. change (2 ^ 16) with (256 * 256).
  rewrite Z.rem_mul_r by lia. reflexivity.
Qed.

Lemma bytes_of_string_bytes (name : string) : Forall is_byte (bytes_of_string name).
Proof.
  unfold bytes_of_string. apply Forall_fmap, Forall_forall. intros c _. simpl.
  pose proof (nat_ascii_bounded c). unfold is_byte. lia.
Qed.

Lemma name_bytes_bytes (name : string) : Forall is_byte (name_bytes name).
Proof.
  unfold name_bytes. apply Forall_take, Forall_app. split.
  - apply bytes_of_string_bytes.
  - apply Forall_replicate. unfold is_byte. lia.
Qed.

Lemma length_name_bytes (name : string) : length (name_bytes name) = 12%nat.
Proof.
  unfold name_bytes. rewrite length_take, length_app, length_replicate. lia.
Qed.

Lemma mapM_lookup_seq {A : Type} (l : list A) (n : nat) :
  (n <= length l)%nat -> mapM (λ i, l !! i) (seq 0 n) = Some (take n l).
Proof.
  intros H. apply mapM_Some. apply Forall2_same_length_lookup. split.
  - rewrite length_seq, length_take. lia.
  - intros i j x Hj Hx. apply lookup_seq in Hj as [-> Hi].
    rewrite lookup_take_lt in Hx by lia. exact Hx.
Qed.

(** The name branch of [sdlID] never indexes out of range. *)
Lemma sdlID_of_name (name : string) (vendor product version : Z) :
  vendor = 0 \/ product = 0 ->
  sdlID name vendor product version = Some ("05000000" +:+ hex_bytes (name_bytes name)).
Proof.
  intros H. unfold sdlID.
  assert (E : negb (vendor =? 0) && negb (product =? 0) = false).
  { destruct H as [-> | ->]; [reflexivity|]. apply andb_false_r. }
  rewrite E. cbv zeta.
  set (bs := bytes_of_string name).
  destruct (decide (length bs < 12)%nat) as [Hlt|Hge].
  - rewrite mapM_lookup_seq by (rewrite length_app, length_replicate; lia).
    cbn [mbind option_bind]. do 3 f_equal. unfold name_bytes. fold bs.
    rewrite !take_app_ge by lia. f_equal.
    rewrite !take_replicate. f_equal. lia.
  - rewrite mapM_lookup_seq by lia.
    cbn [mbind option_bind]. do 3 f_equal. unfold name_bytes. fold bs.
    rewrite take_app_le by lia. reflexivity.
Qed.

Lemma sdlID_of_ids (name : string) (vendor product version : Z) :
  vendor <> 0 -> product <> 0 ->
  sdlID name vendor product version =
    Some (hex_bytes [3; 0; 0; 0;
                     GoInt.byte vendor; GoInt.byte (vendor ≫ 8); 0; 0;
                     GoInt.byte product; GoInt.byte (product ≫ 8); 0; 0;
                     GoInt.byte version; GoInt.byte (version ≫ 8); 0; 0]).
Proof.
  intros Hv Hp. unfold sdlID.
  apply Z.eqb_neq in Hv, Hp. rewrite Hv, Hp. reflexivity.
Qed.

End Identifier.

Section IdentifierClaims.
Local Open Scope Z_scope.

(** C5.  With a vendor and a product that are both non-zero the identifier
    has 32 characters, all of them hexadecimal digits that read back as
    sixteen bytes: 03 00 00 00, the low then the high byte of the vendor,
    00 00, the low then the high byte of the product, 00 00, the low then
    the high byte of the version, 00 00.  It starts with [03000000], it does
    not depend on the name, and for vendor 0x045E, product 0x028E and
    version 0x0114 it is [030000005e0400008e02000014010000]. *)
Theorem identifier_of_vendor_product (name : string) (vendor product version : Z) :
  vendor <> 0 -> product <> 0 ->
  exists id,
    sdlID name vendor product version = Some id /\
    String.length id = 32%nat /\
    String.prefix "03000000" id = true /\
    unhex id = Some [3; 0; 0; 0;
                     vendor mod 256; vendor / 256 mod 256; 0; 0;
                     product mod 256; product / 256 mod 256; 0; 0;
                     version mod 256; version / 256 mod 256; 0; 0] /\
    (forall name', sdlID name' vendor product version = Some id) /\
    sdlID name 0x045E 0x028E 0x0114 = Some "030000005e0400008e02000014010000".
Proof.
  intros Hv Hp. eexists. split; [apply sdlID_of_ids; assumption|].
  assert (S8 : forall v, v ≫ 8 = v / 256).
  { intros v. rewrite Z.shiftr_div_pow2 by lia. reflexivity. }
  split; [apply length_hex_bytes|]. split; [reflexivity|]. split; [|split].
  - rewrite unhex_hex_bytes.
    + unfold GoInt.byte. rewrite !S8. reflexivity.
    + repeat (apply Forall_cons; split; [first [apply byte_is_byte | unfold is_byte; lia]|]).
      apply Forall_nil_2.
  - intros name'. apply sdlID_of_ids; assumption.
  - reflexivity.
Qed.

Lemma identifier_of_vendor_product_witness :
  exists id,
    sdlID "Controller" 0x045E 0x028E 0x0114 = Some id /\
    String.length id = 32%nat /\
    String.prefix "03000000" id = true /\
    unhex id = Some [3; 0; 0; 0;
                     0x045E mod 256; 0x045E / 256 mod 256; 0; 0;
                     0x028E mod 256; 0x028E / 256 mod 256; 0; 0;
                     0x0114 mod 256; 0x0114 / 256 mod 256; 0; 0] /\
    (forall name', sdlID name' 0x045E 0x028E 0x0114 = Some id) /\
    sdlID "Controller" 0x045E 0x028E 0x0114 = Some "030000005e0400008e02000014010000".
Proof.
  apply (identifier_of_vendor_product "Controller" 0x045E 0x028E 0x0114); lia.
Defined.

(** C6.  With a vendor or a product that is zero the identifier is
    [05000000] followed by the hexadecimal digits of twelve bytes, 32
    characters in all: the first twelve bytes of the name, or, for a shorter
    name, its bytes and zeros up to twelve.  It is the same whatever the
    zero vendor or product and the version are. *)
Theorem identifier_of_name (name : string) (vendor product version : Z) :
  vendor = 0 \/ product = 0 ->
  exists id,
    sdlID name vendor product version = Some id /\
    String.length id = 32%nat /\
    String.prefix "05000000" id = true /\
    unhex id = Some ([5; 0; 0; 0] ++ name_bytes name) /\
    ((12 <= length (bytes_of_string name))%nat ->
       name_bytes name = take 12 (bytes_of_string name)) /\
    ((length (bytes_of_string name) < 12)%nat ->
       name_bytes name =
         bytes_of_string name ++ replicate (12 - length (bytes_of_string name)) 0) /\
    (forall vendor' product' version',
       vendor' = 0 \/ product' = 0 ->
       sdlID name vendor' product' version' = Some id).
Proof.
  intros H. eexists. split; [apply sdlID_of_name; exact H|].
  split; [|split; [apply prefix_append|split; [|split; [|split]]]].
  - rewrite length_append, length_hex_bytes, length_name_bytes. reflexivity.
  - change "05000000" with (hex_bytes [5; 0; 0; 0]).
    change (hex_bytes [5; 0; 0; 0] +:+ hex_bytes (name_bytes name))
      with (hex_bytes ([5; 0; 0; 0] ++ name_bytes name)).
    apply unhex_hex_bytes. apply Forall_app. split.
    + repeat (apply Forall_cons; split; [unfold is_byte; lia|]). apply Forall_nil_2.
    + apply name_bytes_bytes.
  - intros Hlen. unfold name_bytes. rewrite take_app_le by lia. reflexivity.
  - intros Hlen. unfold name_bytes. rewrite take_app_ge by lia.
    rewrite take_replicate. do 2 f_equal. lia.
  - intros v' p' w' H'. apply sdlID_of_name. exact H'.
Qed.

Lemma identifier_of_name_witness :
  exists id,
    sdlID "Xbox" 0 0x028E 0x0114 = Some id /\
    String.length id = 32%nat /\
    String.prefix "05000000" id = true /\
    unhex id = Some ([5; 0; 0; 0] ++ name_bytes "Xbox") /\
    ((12 <= length (bytes_of_string "Xbox"))%nat ->
       name_bytes "Xbox" = take 12 (bytes_of_string "Xbox")) /\
    ((length (bytes_of_string "Xbox") < 12)%nat ->
       name_bytes "Xbox" =
         bytes_of_string "Xbox" ++ replicate (12 - length (bytes_of_string "Xbox")) 0) /\
    (forall vendor' product' version',
       vendor' = 0 \/ product' = 0 ->
       sdlID "Xbox" vendor' product' version' = Some id).
Proof.
  apply (identifier_of_name "Xbox" 0 0x028E 0x0114). left. reflexivity.
Defined.

(** C10.  When exactly one of the vendor and the product is zero the
    identifier is the one derived from the name, [05000000] and the twelve
    bytes of the name; it does not start with [03000000]. *)
Theorem identifier_with_one_zero_id (name : string) (vendor product version : Z) :
  (vendor = 0 /\ product <> 0) \/ (vendor <> 0 /\ product = 0) ->
  sdlID name vendor product version = Some ("05000000" +:+ hex_bytes (name_bytes name)) /\
  sdlID name vendor product version = sdlID name 0 0 0 /\
  (forall id, sdlID name vendor product version = Some id ->
              String.prefix "03000000" id = false).
Proof.
  intros H.
  assert (H' : vendor = 0 \/ product = 0) by tauto.
  pose proof (sdlID_of_name name vendor product version H') as E.
  split; [exact E|]. split.
  - rewrite E. symmetry. apply sdlID_of_name. left. reflexivity.
  - intros id Hid. rewrite E in Hid. injection Hid as <-. reflexivity.
Qed.

Lemma identifier_with_one_zero_id_witness :
  sdlID "Xbox" 0x045E 0 0x0114 = Some ("05000000" +:+ hex_bytes (name_bytes "Xbox")) /\
  sdlID "Xbox" 0x045E 0 0x0114 = sdlID "Xbox" 0 0 0 /\
  (forall id, sdlID "Xbox" 0x045E 0 0x0114 = Some id ->
              String.prefix "03000000" id = false).
Proof.
  apply (identifier_with_one_zero_id "Xbox" 0x045E 0 0x0114). right. split; [lia | reflexivity].
Defined.

End IdentifierClaims.

(** *** What the loop over the elements puts in the buckets *)

Section BucketContents.
Local Open Scope nat_scope.

Lemma classify_bucket_of (g : nativeGamepad) (e : hid_element) :
  classify g e =
    match bucket_of e with
    | Some Axis => append_axis e g
    | Some Button => append_button e g
    | Some Hat => append_hat e g
    | None => g
    end.
Proof.
  unfold classify, bucket_of.
  repeat match goal with
         | |- context [if ?c then _ else _] => destruct c
         end; reflexivity.
Qed.

Lemma imap_numbered_cons (n : nat) (e : hid_element) (l : list hid_element) :
  imap (λ i, numbered (n + i)) (e :: l) = numbered n e :: imap (λ i, numbered (S n + i)) l.
Proof.
  rewrite imap_cons, Nat.add_0_r. f_equal. apply imap_ext. intros i x _.
  cbn [compose]. f_equal. lia.
Qed.

Lemma selected_cons (k : bucket) (e : hid_element) (es : list hid_element) :
  selected k (e :: es) =
    if decide (bucket_of e = Some k) then e :: selected k es else selected k es.
Proof. unfold selected. rewrite filter_cons. reflexivity. Qed.

Lemma new_element_numbered (e : hid_element) (l : elements) :
  new_element e l = numbered (length l) e.
Proof. reflexivity. Qed.

(** The loop over the elements appends to each bucket the elements the
    tests select for it, numbered from the length the bucket had. *)
Lemma classify_contents (es : list hid_element) (g : nativeGamepad) :
  classify_all es g =
    NativeGamepad (device g)
      (axes g ++ imap (λ i, numbered (length (axes g) + i)) (selected Axis es))
      (buttons g ++ imap (λ i, numbered (length (buttons g) + i)) (selected Button es))
      (hats g ++ imap (λ i, numbered (length (hats g) + i)) (selected Hat es))
      (axisValues g) (buttonValues g) (hatValues g).
Proof.
  revert g. induction es as [|e es IH]; intros g.
  - cbn. rewrite !app_nil_r. destruct g; reflexivity.
  - unfold classify_all in *. cbn [foldl]. rewrite IH, classify_bucket_of.
    rewrite !selected_cons.
    destruct (bucket_of e) as [[| |]|]; cbn [device axes buttons hats axisValues buttonValues
      hatValues append_axis append_button append_hat];
      repeat case_decide; try congruence;
      rewrite ?imap_numbered_cons, ?new_element_numbered, ?length_app, <- ?app_assoc;
      cbn [length app]; rewrite ?Nat.add_1_r; reflexivity.
Qed.

Lemma classify_fresh (es : list hid_element) (dev : IOHIDDeviceRef) :
  classify_all es (set_device dev new_nativeGamepad) =
    NativeGamepad dev (imap numbered (selected Axis es)) (imap numbered (selected Button es))
      (imap numbered (selected Hat es)) nil_slice nil_slice nil_slice.
Proof. rewrite classify_contents. reflexivity. Qed.

(** Two elements of a list that a filter keeps stay in their order. *)
Lemma filter_lookup_order {A : Type} (P : A -> Prop) `{!forall x, Decision (P x)}
    (l : list A) (p q : nat) (x y : A) :
  l !! p = Some x -> l !! q = Some y -> p < q -> P x -> P y ->
  exists p' q', p' < q' /\ filter P l !! p' = Some x /\ filter P l !! q' = Some y.
Proof.
  intros Hp Hq Hpq Px Py.
  rewrite <- (take_drop_middle l q y Hq). rewrite filter_app, filter_cons_True by exact Py.
  assert (Hx : x ∈ filter P (take q l)).
  { apply list_elem_of_filter. split; [exact Px|].
    apply list_elem_of_lookup. exists p. rewrite lookup_take_lt by exact Hpq. exact Hp. }
  apply list_elem_of_lookup in Hx as [p' Hp'].
  pose proof (lookup_lt_Some _ _ _ Hp') as Lp.
  exists p', (length (filter P (take q l))). split; [exact Lp|]. split.
  - rewrite lookup_app_l by exact Lp. exact Hp'.
  - rewrite lookup_app_r by lia. rewrite Nat.sub_diag. reflexivity.
Qed.

(** One step of the loop, bucket by bucket. *)
Lemma classify_step (g : nativeGamepad) (e : hid_element) (k : bucket) :
  bucket_elements k (classify g e) =
    if decide (bucket_of e = Some k)
    then bucket_elements k g ++ [numbered (length (bucket_elements k g)) e]
    else bucket_elements k g.
Proof.
  rewrite classify_bucket_of.
  destruct (bucket_of e) as [[| |]|], k; case_decide; try congruence; reflexivity.
Qed.

Lemma classify_fresh_bucket (es : list hid_element) (dev : IOHIDDeviceRef) (k : bucket) :
  bucket_elements k (classify_all es (set_device dev new_nativeGamepad))
  = imap numbered (selected k es).
Proof. rewrite classify_fresh. destruct k; reflexivity. Qed.

End BucketContents.

(** *** Classification and the order of the buckets *)

Section Classifier.
Local Open Scope Z_scope.
Implicit Types (a b c : element) (l : elements) (g : nativeGamepad) (e : hid_element).

Lemma Less_false_key_le a b : Less b a = false <-> key_le a b.
Proof.
  unfold Less, key_le.
  destruct (Z.eqb_spec (usage b) (usage a)) as [Eu|Nu]; simpl.
  - destruct (Z.eqb_spec (index b) (index a)) as [Ei|Ni]; simpl.
    + split; [intros _; right; lia | reflexivity].
    + rewrite Z.ltb_ge. lia.
  - rewrite Z.ltb_ge. lia.
Qed.

Lemma Less_true_key_le a b : Less b a = true -> key_le b a.
Proof.
  unfold Less, key_le.
  destruct (Z.eqb_spec (usage b) (usage a)) as [Eu|Nu]; simpl.
  - destruct (Z.eqb_spec (index b) (index a)) as [Ei|Ni]; simpl; [discriminate|].
    rewrite Z.ltb_lt. lia.
  - rewrite Z.ltb_lt. lia.
Qed.

Lemma key_le_trans a b c : key_le a b -> key_le b c -> key_le a c.
Proof. unfold key_le. lia. Qed.

Lemma stable_insert_perm a l : stable_insert a l ≡ₚ a :: l.
Proof.
  induction l as [|b l IH]; simpl; [reflexivity|].
  destruct (Less b a); [|reflexivity].
  rewrite IH. apply Permutation_swap.
Qed.

Lemma stable_sort_perm l : stable_sort l ≡ₚ l.
Proof.
  induction l as [|a l IH]; simpl; [reflexivity|].
  rewrite stable_insert_perm, IH. reflexivity.
Qed.

Lemma stable_insert_sorted a l :
  StronglySorted key_le l -> StronglySorted key_le (stable_insert a l).
Proof.
  induction 1 as [|b l Hs IH Hb]; simpl.
  - repeat constructor.
  - destruct (Less b a) eqn:E.
    + constructor; [exact IH|].
      rewrite stable_insert_perm. constructor; [apply Less_true_key_le, E | exact Hb].
    + apply Less_false_key_le in E.
      constructor; [constructor; assumption|].
      constructor; [exact E|].
      eapply Forall_impl; [exact Hb|]. intros c Hc. eapply key_le_trans; eassumption.
Qed.

Lemma stable_sort_sorted l : StronglySorted key_le (stable_sort l).
Proof.
  induction l as [|a l IH]; simpl; [constructor | apply stable_insert_sorted, IH].
Qed.

(** In a strongly sorted list an element further on is not below an
    earlier one. *)
Lemma StronglySorted_lookup l (i j : nat) a b :
  StronglySorted key_le l -> (i < j)%nat ->
  l !! i = Some a -> l !! j = Some b -> key_le a b.
Proof.
  intros Hs. revert i j. induction Hs as [|c l Hs IH Hc]; intros i j Hij Hi Hj.
  - rewrite lookup_nil in Hi. discriminate.
  - destruct j as [|j]; [lia|]. destruct i as [|i]; simpl in *.
    + injection Hi as ->. rewrite Forall_forall in Hc. apply Hc.
      eapply list_elem_of_lookup_2, Hj.
    + apply (IH i j); [lia | assumption | assumption].
Qed.

(** The sorted bucket of a bucket in discovery order. *)
Lemma stable_sort_bucket l : in_discovery_order l -> sorted_bucket l (stable_sort l).
Proof.
  intros Hd. split; [apply stable_sort_perm|]. split; [apply stable_sort_sorted|].
  intros p q a b Hp Hq Hpq Hu.
  assert (Ha : a ∈ stable_sort l).
  { rewrite stable_sort_perm. eapply list_elem_of_lookup_2, Hp. }
  assert (Hb : b ∈ stable_sort l).
  { rewrite stable_sort_perm. eapply list_elem_of_lookup_2, Hq. }
  apply list_elem_of_lookup_1 in Ha as [i Hi], Hb as [j Hj].
  exists i, j. split; [|split; assumption].
  pose proof (Hd p a Hp) as Ia. pose proof (Hd q b Hq) as Ib.
  destruct (Nat.lt_trichotomy i j) as [Lt|[Eq|Gt]]; [exact Lt| |].
  - subst j. rewrite Hi in Hj. injection Hj as ->. lia.
  - pose proof (StronglySorted_lookup _ j i b a (stable_sort_sorted l) Gt Hj Hi) as K.
    unfold key_le in K. lia.
Qed.

Lemma in_discovery_order_nil : in_discovery_order [].
Proof. intros i e H. rewrite lookup_nil in H. discriminate. Qed.

Lemma in_discovery_order_snoc l e :
  in_discovery_order l -> in_discovery_order (l ++ [new_element e l]).
Proof.
  intros Hd i x Hx. apply lookup_app_Some in Hx as [Hx | [Hlen Hx]].
  - apply Hd, Hx.
  - apply list_lookup_singleton_Some in Hx as [Hi <-]. simpl. lia.
Qed.

(** One step of the loop leaves a bucket as it is or appends the element
    to it. *)
Lemma classify_bucket (B : nativeGamepad -> elements) g e :
  B = axes \/ B = buttons \/ B = hats ->
  B (classify g e) = B g \/ B (classify g e) = B g ++ [new_element e (B g)].
Proof.
  intros HB. unfold classify.
  repeat match goal with
         | |- context [if ?c then _ else _] => destruct c
         end;
    destruct HB as [-> | [-> | ->]]; simpl; auto.
Qed.

Lemma classify_all_discovery_order (B : nativeGamepad -> elements) es g :
  B = axes \/ B = buttons \/ B = hats ->
  in_discovery_order (B g) -> in_discovery_order (B (classify_all es g)).
Proof.
  intros HB. unfold classify_all. revert g.
  induction es as [|e es IH]; intros g Hd; simpl; [exact Hd|].
  apply IH. destruct (classify_bucket B g e HB) as [-> | ->];
    [exact Hd | apply in_discovery_order_snoc, Hd].
Qed.

(** The buckets depend on the elements only, not on the device reference
    the gamepad carries. *)
Lemma classify_device_irrelevant e g dev :
  classify (set_device dev g) e = set_device dev (classify g e).
Proof.
  unfold classify.
  repeat match goal with
         | |- context [if ?c then _ else _] => destruct c
         end; reflexivity.
Qed.

Lemma classify_all_device_irrelevant es g dev :
  classify_all es (set_device dev g) = set_device dev (classify_all es g).
Proof.
  unfold classify_all. revert g.
  induction es as [|e es IH]; intros g; simpl; [reflexivity|].
  rewrite classify_device_irrelevant. apply IH.
Qed.

(** The sorted bucket keeps two elements of the raw list that go to the
    same bucket with the same usage in the order of the raw list. *)
Lemma sorted_keeps_raw_order (es : list hid_element) (k : bucket) (p q : nat)
    (e1 e2 : hid_element) :
  es !! p = Some e1 -> es !! q = Some e2 -> (p < q)%nat ->
  bucket_of e1 = Some k -> bucket_of e2 = Some k -> elem_usage e1 = elem_usage e2 ->
  exists i j n1 n2 : nat,
    (i < j)%nat /\ (n1 < n2)%nat /\
    stable_sort (imap numbered (selected k es)) !! i = Some (numbered n1 e1) /\
    stable_sort (imap numbered (selected k es)) !! j = Some (numbered n2 e2).
Proof.
  intros Hp Hq Hpq K1 K2 Hu.
  destruct (filter_lookup_order (λ e, bucket_of e = Some k) es p q e1 e2 Hp Hq Hpq K1 K2)
    as (n1 & n2 & Hn & H1 & H2).
  fold (selected k es) in H1, H2.
  assert (F1 : imap numbered (selected k es) !! n1 = Some (numbered n1 e1))
    by (rewrite list_lookup_imap, H1; reflexivity).
  assert (F2 : imap numbered (selected k es) !! n2 = Some (numbered n2 e2))
    by (rewrite list_lookup_imap, H2; reflexivity).
  assert (D : in_discovery_order (imap numbered (selected k es))).
  { intros i x Hx. apply list_lookup_imap_Some in Hx as (e & _ & ->). reflexivity. }
  destruct (stable_sort_bucket _ D) as (_ & _ & St).
  destruct (St n1 n2 _ _ F1 F2 Hn Hu) as (i & j & Hij & Hi & Hj).
  exists i, j, n1, n2. auto.
Qed.

(** C7.  Each step of the loop of the attach callback appends the element
    to the bucket its tests select, with the length of that bucket at that
    moment as index, and leaves the other buckets alone; so, started on the
    gamepad [add] returned, the loop leaves in each bucket the elements of
    the raw list selected for it, in the order of the raw list and numbered
    from 0: each bucket is in discovery order.  The three stable sorts then
    leave each bucket with the same elements in increasing order of
    (usage, index), two elements of equal usage in their discovery order:
    of two elements of the raw list that go to the same bucket with the
    same usage, the one the raw list has first comes first in the sorted
    bucket.  The buckets are a function of the element list: they are the
    same for any device reference. *)
Theorem classification_order (es : list hid_element) (dev : IOHIDDeviceRef) :
  let found := classify_all es (set_device dev new_nativeGamepad) in
  let g := sort_buckets found in
  (forall (g0 : nativeGamepad) (e : hid_element) (k : bucket),
     bucket_elements k (classify g0 e) =
       if decide (bucket_of e = Some k)
       then bucket_elements k g0 ++
            [Element (elem_ref e) (elem_usage e) (Z.of_nat (length (bucket_elements k g0)))
                     (elem_logical_min e) (elem_logical_max e)]
       else bucket_elements k g0) /\
  (forall k : bucket, bucket_elements k found = imap numbered (selected k es)) /\
  (in_discovery_order (axes found) /\ sorted_bucket (axes found) (axes g)) /\
  (in_discovery_order (buttons found) /\ sorted_bucket (buttons found) (buttons g)) /\
  (in_discovery_order (hats found) /\ sorted_bucket (hats found) (hats g)) /\
  (forall (k : bucket) (p q : nat) (e1 e2 : hid_element),
     es !! p = Some e1 -> es !! q = Some e2 -> (p < q)%nat ->
     bucket_of e1 = Some k -> bucket_of e2 = Some k -> elem_usage e1 = elem_usage e2 ->
     exists i j n1 n2 : nat,
       (i < j)%nat /\ (n1 < n2)%nat /\
       bucket_elements k g !! i = Some (numbered n1 e1) /\
       bucket_elements k g !! j = Some (numbered n2 e2)) /\
  (forall dev',
     let g' := sort_buckets (classify_all es (set_device dev' new_nativeGamepad)) in
     axes g' = axes g /\ buttons g' = buttons g /\ hats g' = hats g).
Proof.
  intros found g.
  assert (Ha : in_discovery_order (axes found))
    by (apply classify_all_discovery_order; [auto | apply in_discovery_order_nil]).
  assert (Hb : in_discovery_order (buttons found))
    by (apply classify_all_discovery_order; [auto | apply in_discovery_order_nil]).
  assert (Hh : in_discovery_order (hats found))
    by (apply classify_all_discovery_order; [auto | apply in_discovery_order_nil]).
  split; [intros g0 e k; apply classify_step|].
  split; [intros k; apply classify_fresh_bucket|].
  split; [split; [exact Ha | apply stable_sort_bucket, Ha]|].
  split; [split; [exact Hb | apply stable_sort_bucket, Hb]|].
  split; [split; [exact Hh | apply stable_sort_bucket, Hh]|].
  split.
  - intros k p q e1 e2 Hp Hq Hpq K1 K2 Hu.
    destruct (sorted_keeps_raw_order es k p q e1 e2 Hp Hq Hpq K1 K2 Hu)
      as (i & j & n1 & n2 & Hij & Hn & Hi & Hj).
    exists i, j, n1, n2. split; [exact Hij|]. split; [exact Hn|].
    unfold g, found. rewrite classify_fresh.
    destruct k; cbn [sort_buckets bucket_elements axes buttons hats]; split; assumption.
  - intros dev'. unfold g, found. rewrite !classify_all_device_irrelevant.
    repeat split; reflexivity.
Qed.

End Classifier.

(** *** The hot-plug callbacks *)

Section HotPlug.
Local Open Scope Z_scope.
Implicit Types (reg : gamepads) (dev : IOHIDDeviceRef) (io : IOHIDDeviceRef -> device_info).

Lemma sdlID_total (name : string) (vendor product version : Z) :
  is_Some (sdlID name vendor product version).
Proof.
  destruct (Z.eq_dec vendor 0) as [Hv|Hv].
  - rewrite sdlID_of_name by (left; exact Hv). eauto.
  - destruct (Z.eq_dec product 0) as [Hp|Hp].
    + rewrite sdlID_of_name by (right; exact Hp). eauto.
    + rewrite sdlID_of_ids by assumption. eauto.
Qed.

Lemma find_known dev reg :
  known dev reg -> is_Some (gamepads_find (λ g, device (gp_native g) =? dev) reg).
Proof.
  intros H. apply Exists_exists in H as (g & Hg & Hd).
  unfold gamepads_find. apply fmap_is_Some.
  apply (list_find_elem_of _ _ g); [exact Hg | apply Z.eqb_eq, Hd].
Qed.

Lemma find_unknown dev reg :
  ~ known dev reg -> gamepads_find (λ g, device (gp_native g) =? dev) reg = None.
Proof.
  intros H. unfold gamepads_find. apply fmap_None. apply list_find_None.
  apply Forall_forall. intros g Hg Hd. apply H. apply Exists_exists.
  exists g. split; [exact Hg | apply Z.eqb_eq, Hd].
Qed.

(** An attach notification for a device the registry knows changes
    nothing. *)
Lemma attach_known io dev reg :
  known dev reg -> ebitenGamepadMatchingCallback io dev reg = Some reg.
Proof.
  intros H. unfold ebitenGamepadMatchingCallback.
  destruct (find_known dev reg H) as [h ->]. reflexivity.
Qed.

Lemma device_sort_buckets (g : nativeGamepad) : device (sort_buckets g) = device g.
Proof. reflexivity. Qed.

(** An attach notification for a device the registry does not know
    appends one entry: it carries the name read from the device
    ("Unknown" without one), the identifier [sdlID] gives for the name and
    the vendor, product and version read (0 without one), the device
    reference, and the sorted buckets of the device's elements. *)
Lemma attach_unknown_entry io dev reg :
  ~ known dev reg ->
  let info := io dev in
  let name := default "Unknown" (info_product info) in
  exists id,
    sdlID name (default 0 (info_vendor info)) (default 0 (info_product_id info))
          (default 0 (info_version info)) = Some id /\
    ebitenGamepadMatchingCallback io dev reg =
      Some (reg ++ [MkGamepad name id
                      (sort_buckets (classify_all (info_elements info)
                                       (set_device dev new_nativeGamepad)))]).
Proof.
  intros H info name. unfold ebitenGamepadMatchingCallback.
  rewrite (find_unknown dev reg H). cbv zeta. fold info. fold name.
  destruct (sdlID_total name (default 0 (info_vendor info))
              (default 0 (info_product_id info))
              (default 0 (info_version info))) as [id E].
  exists id. split; [exact E|]. rewrite E.
  cbn [mbind option_bind gamepads_add].
  replace (length reg) with (length reg + 0)%nat by lia.
  rewrite alter_app_r. reflexivity.
Qed.

Lemma attach_unknown io dev reg :
  ~ known dev reg ->
  exists g, ebitenGamepadMatchingCallback io dev reg = Some (reg ++ [g]) /\
            device (gp_native g) = dev.
Proof.
  intros H. destruct (attach_unknown_entry io dev reg H) as (id & _ & E).
  eexists. split; [exact E|].
  cbn [gp_native]. rewrite device_sort_buckets.
  rewrite classify_all_device_irrelevant. reflexivity.
Qed.

Lemma unknown_Forall dev reg :
  ~ known dev reg <-> Forall (λ g, device (gp_native g) <> dev) reg.
Proof. unfold known. rewrite <- Forall_Exists_neg. reflexivity. Qed.

(** A detach notification for a device the registry does not know changes
    nothing. *)
Lemma detach_unknown dev reg :
  ~ known dev reg -> ebitenGamepadRemovalCallback dev reg = reg.
Proof.
  rewrite unknown_Forall. unfold ebitenGamepadRemovalCallback, gamepads_remove.
  induction 1 as [|g reg Hg _ IH]; [reflexivity|].
  rewrite filter_cons_True by (apply Z.eqb_neq, Hg). rewrite IH. reflexivity.
Qed.

(** C8.  For a device the registry does not know, a detach notification
    leaves the registry as it is, and an attach notification followed by a
    second one for the same device (whatever the properties then read)
    leaves exactly one entry for the device, the one the first appended: the
    second changes nothing.  An attach notification for a device the
    registry knows changes nothing. *)
Theorem hotplug_idempotent io io' dev reg :
  ~ known dev reg ->
  ebitenGamepadRemovalCallback dev reg = reg /\
  (exists reg1,
     ebitenGamepadMatchingCallback io dev reg = Some reg1 /\
     ebitenGamepadMatchingCallback io' dev reg1 = Some reg1 /\
     length reg1 = S (length reg) /\
     length (filter (λ g, device (gp_native g) = dev) reg1) = 1%nat) /\
  (forall reg', known dev reg' -> ebitenGamepadMatchingCallback io' dev reg' = Some reg').
Proof.
  intros H. split; [apply detach_unknown, H|]. split.
  - destruct (attach_unknown io dev reg H) as (g & E & Hg).
    exists (reg ++ [g]). split; [exact E|]. split; [|split].
    + apply attach_known. apply Exists_app. right. apply Exists_cons_hd. exact Hg.
    + rewrite length_app. simpl. lia.
    + rewrite filter_app.
      assert (N : filter (λ g0, device (gp_native g0) = dev) reg = []).
      { apply unknown_Forall in H. clear E. induction H as [|x l Hx _ IH]; [reflexivity|].
        rewrite filter_cons_False by exact Hx. exact IH. }
      rewrite N. rewrite filter_cons_True by exact Hg. reflexivity.
  - intros reg' H'. apply attach_known, H'.
Qed.

Lemma hotplug_idempotent_witness :
  ebitenGamepadRemovalCallback 7 sample_registry = sample_registry /\
  (exists reg1,
     ebitenGamepadMatchingCallback sample_io 7 sample_registry = Some reg1 /\
     ebitenGamepadMatchingCallback sample_io 7 reg1 = Some reg1 /\
     length reg1 = S (length sample_registry) /\
     length (filter (λ g, device (gp_native g) = 7) reg1) = 1%nat) /\
  (forall reg', known 7 reg' ->
     ebitenGamepadMatchingCallback sample_io 7 reg' = Some reg').
Proof.
  apply (hotplug_idempotent sample_io sample_io 7 sample_registry).
  unfold known. apply (proj1 (bool_decide_eq_false _)). vm_compute. reflexivity.
Defined.

End HotPlug.

(** ** Part III: further properties of the code *)

(** *** The buffers of [update] *)

Section Buffers.
Local Open Scope nat_scope.

Lemma resize_exact {A : Type} (zero : A) (n : nat) (s : slice A) :
  exists l, resize zero n s = Some (Slice l (resized_spare n s)) /\ length l = n.
Proof.
  unfold resize, resized_spare. destruct (decide (cap s < n)) as [Hlt|Hge].
  - rewrite reslice_Some by (unfold cap, make; simpl; rewrite length_replicate; lia).
    cbn [elts spare make]. rewrite app_nil_r.
    rewrite drop_ge by (rewrite length_replicate; lia).
    eexists. split; [reflexivity|]. rewrite length_take, length_replicate. lia.
  - rewrite reslice_Some by lia.
    eexists. split; [reflexivity|]. rewrite length_take, length_app. unfold cap in Hge. lia.
Qed.

(** The gamepad [update] returns. *)
Lemma update_exact (hid : hid_values) (g : nativeGamepad) :
  update hid g =
    Some (NativeGamepad (device g) (axes g) (buttons g) (hats g)
            (Slice (axis_body hid g <$> axes g)
                   (resized_spare (length (axes g)) (axisValues g)))
            (Slice (button_body hid g <$> buttons g)
                   (resized_spare (length (buttons g)) (buttonValues g)))
            (Slice ((λ h, hat_decode (elementValue hid g h)) <$> hats g)
                   (resized_spare (length (hats g)) (hatValues g)))).
Proof.
  unfold update.
  destruct (resize_exact Float64.zero (length (axes g)) (axisValues g)) as (la & -> & Ha).
  destruct (resize_exact false (length (buttons g)) (buttonValues g)) as (lb & -> & Hb).
  destruct (resize_exact hatCentered (length (hats g)) (hatValues g)) as (lh & -> & Hh).
  simpl.
  rewrite (range_store_all _ _ (Slice la _) _ (mapM_total (axis_body hid g) (axes g)) Ha).
  simpl.
  rewrite (range_store_all _ _ (Slice lb _) _ (mapM_total (button_body hid g) (buttons g)) Hb).
  simpl.
  rewrite (range_store_all _ _ (Slice lh _) _ (mapM_hat_body hid g (hats g)) Hh).
  reflexivity.
Qed.

Lemma cap_resized {A : Type} (l : list A) (n : nat) (s : slice A) :
  length l = n -> cap (Slice l (resized_spare n s)) = Nat.max (cap s) n.
Proof.
  intros H. unfold resized_spare, cap at 1. cbn [elts spare].
  destruct (decide (cap s < n)) as [Hlt|Hge].
  - simpl. lia.
  - rewrite length_drop, length_app. unfold cap in *. lia.
Qed.

Lemma resized_spare_full {A : Type} (l sp : list A) :
  resized_spare (length l) (Slice l sp) = sp.
Proof.
  unfold resized_spare, cap. cbn [elts spare].
  rewrite decide_False by lia. apply drop_app_length.
Qed.

Lemma resized_spare_fmap {A : Type} (f : element -> A) (l : elements) (sp : list A) :
  resized_spare (length l) (Slice (f <$> l) sp) = sp.
Proof. rewrite <- (length_fmap f l) at 1. apply resized_spare_full. Qed.

(** X2.  [update] never shrinks a value buffer and never allocates more
    than it needs: after a poll the capacity of each buffer is the larger
    of its capacity before and the number of elements of its bucket. *)
Theorem update_capacity (hid : hid_values) (g : nativeGamepad) :
  exists g',
    update hid g = Some g' /\
    cap (axisValues g') = Nat.max (cap (axisValues g)) (length (axes g)) /\
    cap (buttonValues g') = Nat.max (cap (buttonValues g)) (length (buttons g)) /\
    cap (hatValues g') = Nat.max (cap (hatValues g)) (length (hats g)).
Proof.
  eexists. split; [apply update_exact|].
  cbn [axisValues buttonValues hatValues].
  repeat split; apply cap_resized, length_fmap.
Qed.

(** X3.  Polling again with the same readings changes nothing: the
    gamepad a poll returns is a fixed point of the poll. *)
Theorem update_idempotent (hid : hid_values) (g g' : nativeGamepad) :
  update hid g = Some g' -> update hid g' = Some g'.
Proof.
  rewrite (update_exact hid g). intros [= <-].
  rewrite update_exact. cbn [device axes buttons hats axisValues buttonValues hatValues].
  rewrite (resized_spare_fmap (axis_body hid g)).
  rewrite (resized_spare_fmap (button_body hid g)).
  rewrite (resized_spare_fmap (λ h, hat_decode (elementValue hid g h))).
  reflexivity.
Qed.

Lemma update_idempotent_witness :
  update (hid_reads 128) (default sample_pad (update (hid_reads 128) sample_pad))
  = Some (default sample_pad (update (hid_reads 128) sample_pad)).
Proof.
  apply (update_idempotent (hid_reads 128) sample_pad). vm_compute. reflexivity.
Defined.

Lemma elementValue_agree (hid hid' : hid_values) (g : nativeGamepad) (e : element) :
  hid (device g) (native e) = hid' (device g) (native e) ->
  elementValue hid g e = elementValue hid' g e.
Proof. intros H. unfold elementValue. rewrite H. reflexivity. Qed.

(** X4.  A poll looks only at the readings of the elements in the three
    buckets of its own device: two answers of the system that agree on
    them give the same gamepad. *)
Theorem update_local (hid hid' : hid_values) (g : nativeGamepad) :
  Forall (λ e, hid (device g) (native e) = hid' (device g) (native e))
         (axes g ++ buttons g ++ hats g) ->
  update hid g = update hid' g.
Proof.
  rewrite !Forall_app. intros (Ha & Hb & Hh).
  rewrite !update_exact. do 2 f_equal.
  - f_equal. apply Forall_fmap_ext_1. eapply Forall_impl; [exact Ha|].
    intros a E. unfold axis_body. rewrite (elementValue_agree _ _ _ _ E). reflexivity.
  - f_equal. apply Forall_fmap_ext_1. eapply Forall_impl; [exact Hb|].
    intros b E. unfold button_body. rewrite (elementValue_agree _ _ _ _ E). reflexivity.
  - f_equal. apply Forall_fmap_ext_1. eapply Forall_impl; [exact Hh|].
    intros h E. cbn beta. rewrite (elementValue_agree _ _ _ _ E). reflexivity.
Qed.

Lemma update_local_witness :
  update (hid_reads 5) sample_pad = update (hid_only [1; 2; 3]%Z 5) sample_pad.
Proof.
  apply (update_local (hid_reads 5) (hid_only [1; 2; 3]%Z 5) sample_pad).
  repeat constructor.
Defined.

End Buffers.

(** *** The shape of the axis value *)

Section AxisShape.
Import Rounding RoundingFacts Float64Facts.
Local Open Scope Q_scope.

(** A normal float of 53 digits lies between two powers of two. *)
Lemma scaled_bounds (m : positive) (e : Z) :
  (2 ^ 52 <= Z.pos m < 2 ^ 53)%Z ->
  2 ^ (52 + e) <= inject_Z (Z.pos m) * 2 ^ e /\
  inject_Z (Z.pos m) * 2 ^ e < 2 ^ (52 + e + 1).
Proof.
  intros C. split.
  - rewrite pow2_plus. apply Qmult_le_compat_r; [|apply Qlt_le_weak, pow2_pos].
    rewrite <- pow2_inject by lia. rewrite <- Zle_Qle. lia.
  - replace (52 + e + 1)%Z with (53 + e)%Z by lia.
    rewrite pow2_plus. apply Qmult_lt_compat_r; [apply pow2_pos|].
    rewrite <- pow2_inject by lia. rewrite <- Zlt_Qlt. lia.
Qed.

(** A number other than 0 has one float that represents it. *)
Lemma represents_unique (x y : spec_float) (q : Q) :
  represents x q -> represents y q -> ~ q == 0 -> x = y.
Proof.
  intros Hx Hy N.
  inversion Hx as [s q1 Z1 | s m e q1 C R V]; subst; [tauto|].
  inversion Hy as [s' q2 Z2 | s' m' e' q2 C' R' V']; subst; [tauto|].
  rewrite F2Q_sgn in V, V'.
  pose proof (pos_scaled_gt0 m e) as P. pose proof (pos_scaled_gt0 m' e') as P'.
  assert (S : s = s').
  { destruct s, s'; cbn [sgn] in V, V'; try reflexivity; exfalso; lra. }
  subst s'.
  assert (E : inject_Z (Z.pos m) * 2 ^ e == inject_Z (Z.pos m') * 2 ^ e').
  { destruct s; cbn [sgn] in V, V'; lra. }
  destruct (scaled_bounds m e C) as [L U].
  destruct (scaled_bounds m' e' C') as [L' U'].
  pose proof (ilog2_unique _ _ L U) as I.
  pose proof (ilog2_unique _ _ L' U') as I'.
  rewrite (ilog2_comp _ _ P E) in I.
  assert (Ee : e = e') by lia. subst e'.
  apply Qmult_inj_r in E; [|apply pow2_neq0].
  apply (proj1 (inject_Z_injective _ _)) in E. congruence.
Qed.

Lemma represents_of_int_small (z : Z) :
  (Z.abs z < 2 ^ 53)%Z -> represents (Float64.of_int z) (inject_Z z).
Proof.
  intros H. rewrite <- (of_int_small z) by exact H. apply of_int_correct. lia.
Qed.

Lemma toQ_of_int_small (z : Z) :
  (Z.abs z < 2 ^ 53)%Z ->
  exists q, Float64.toQ (Float64.of_int z) = Some q /\ q == inject_Z z.
Proof. intros H. apply represents_toQ, represents_of_int_small, H. Qed.

(** The formula at the two ends of the range. *)
Lemma formula_low (s : Z) : (0 < s)%Z -> sub (div (mul 2 (of_int 0)) (of_int s)) 1 == -1.
Proof.
  intros Hs. unfold sub, div, mul, of_int.
  rewrite (round_eq0 (inject_Z 0)) by reflexivity.
  rewrite (round_eq0 (2 * 0)) by reflexivity.
  rewrite (round_eq0 (0 / _)) by (unfold Qdiv; ring).
  change (0 - 1) with (inject_Z (-1)). apply round_Z. vm_compute. reflexivity.
Qed.

Lemma formula_high (s : Z) : (0 < s)%Z -> sub (div (mul 2 (of_int s)) (of_int s)) 1 == 1.
Proof.
  intros Hs. unfold sub, div, mul.
  set (rs := of_int s).
  assert (Vs1 : 1 <= rs).
  { unfold rs. rewrite <- (of_int_small 1) by (cbn; lia). apply of_int_mono. lia. }
  assert (Ht : round (2 * rs) == 2 * rs).
  { rewrite round_double. unfold rs, of_int. rewrite round_idem. reflexivity. }
  assert (Hq : round (2 * rs) / rs == inject_Z 2).
  { rewrite Ht. change (inject_Z 2) with 2. field. lra. }
  rewrite (round_comp _ _ Hq).
  assert (H2 : round (inject_Z 2) == 2) by (apply (round_Z 2); vm_compute; reflexivity).
  assert (H1 : round (inject_Z 2) - 1 == inject_Z 1).
  { rewrite H2. reflexivity. }
  rewrite (round_comp _ _ H1). apply (round_Z 1). vm_compute. reflexivity.
Qed.

(** A larger distance within the same width never gives a smaller value. *)
Lemma formula_mono (d1 d2 s : Z) :
  (0 <= d1 <= d2)%Z -> (0 < s)%Z ->
  sub (div (mul 2 (of_int d1)) (of_int s)) 1 <= sub (div (mul 2 (of_int d2)) (of_int s)) 1.
Proof.
  intros Hd Hs. unfold sub, div, mul.
  set (rs := of_int s).
  assert (Vs1 : 1 <= rs).
  { unfold rs. rewrite <- (of_int_small 1) by (cbn; lia). apply of_int_mono. lia. }
  assert (M1 : round (2 * of_int d1) <= round (2 * of_int d2)).
  { apply round_mono. pose proof (of_int_mono d1 d2 ltac:(lia)). lra. }
  assert (M2 : round (round (2 * of_int d1) / rs) <= round (round (2 * of_int d2) / rs)).
  { apply round_mono. unfold Qdiv. apply Qmult_le_compat_r; [exact M1|].
    apply Qlt_le_weak, Qinv_lt_0_compat. lra. }
  apply round_mono. lra.
Qed.

Local Open Scope Z_scope.

(** The value of a reading at or below the lower bound, of a reading at or
    above the upper bound, of a reading between bounds given in the wrong
    order, and of a reading within the bounds. *)
Lemma axis_value_low (raw : Z) (a : element) :
  raw <= minimum a -> raw < maximum a -> maximum a - raw <= GoInt.max_int ->
  axis_value raw (widen raw a) = Float64.of_int (-1).
Proof.
  intros Hlo Hlt Hfit.
  unfold axis_value. destruct (widen_bounds raw a) as [-> ->].
  rewrite Z.min_l, Z.max_r by lia. unfold GoInt.sub.
  assert (Hmm : GoInt.min_int <= 0) by (unfold GoInt.min_int; lia).
  assert (Hmx : 0 <= GoInt.max_int) by (unfold GoInt.max_int; lia).
  rewrite (wrap_fits (maximum a - raw)) by lia.
  rewrite Z.sub_diag, (wrap_fits 0) by lia.
  destruct (Z.eqb_spec (maximum a - raw) 0) as [E|NE]; [lia|].
  set (s := maximum a - raw) in *.
  assert (Hs : 0 < s < 2 ^ 63) by (unfold GoInt.max_int in Hfit; lia).
  pose proof (formula_correct 0 s ltac:(lia) Hs) as R.
  rewrite (formula_low s ltac:(lia)) in R.
  apply (represents_unique _ _ (-1)%Q R); [|discriminate].
  apply (represents_of_int_small (-1)). vm_compute. reflexivity.
Qed.

Lemma axis_value_high (raw : Z) (a : element) :
  maximum a <= raw -> minimum a < raw -> raw - minimum a <= GoInt.max_int ->
  axis_value raw (widen raw a) = Float64.of_int 1.
Proof.
  intros Hhi Hgt Hfit.
  unfold axis_value. destruct (widen_bounds raw a) as [-> ->].
  rewrite Z.min_r, Z.max_l by lia. unfold GoInt.sub.
  assert (Hmm : GoInt.min_int <= 0) by (unfold GoInt.min_int; lia).
  rewrite (wrap_fits (raw - minimum a)) by lia.
  destruct (Z.eqb_spec (raw - minimum a) 0) as [E|NE]; [lia|].
  set (s := raw - minimum a) in *.
  assert (Hs : 0 < s < 2 ^ 63) by (unfold GoInt.max_int in Hfit; lia).
  pose proof (formula_correct s s ltac:(lia) Hs) as R.
  rewrite (formula_high s ltac:(lia)) in R.
  apply (represents_unique _ _ 1%Q R); [|discriminate].
  apply (represents_of_int_small 1). vm_compute. reflexivity.
Qed.

Lemma axis_value_flat (raw : Z) (a : element) :
  maximum a <= raw <= minimum a -> axis_value raw (widen raw a) = Float64.zero.
Proof.
  intros H. apply axis_value_zero_width.
  destruct (widen_bounds raw a) as [-> ->]. lia.
Qed.

Lemma axis_value_within (raw : Z) (a : element) :
  minimum a <= raw <= maximum a -> minimum a < maximum a ->
  maximum a - minimum a <= GoInt.max_int ->
  represents (axis_value raw (widen raw a))
    (sub (div (mul 2 (of_int (raw - minimum a))) (of_int (maximum a - minimum a))) 1).
Proof.
  intros Hin Hlt Hfit.
  unfold axis_value. destruct (widen_bounds raw a) as [-> ->].
  rewrite Z.min_r, Z.max_r by lia. unfold GoInt.sub.
  assert (Hmm : GoInt.min_int <= 0) by (unfold GoInt.min_int; lia).
  rewrite (wrap_fits (maximum a - minimum a)) by lia.
  rewrite (wrap_fits (raw - minimum a)) by lia.
  destruct (Z.eqb_spec (maximum a - minimum a) 0) as [E|NE]; [lia|].
  apply formula_correct; [lia|]. unfold GoInt.max_int in Hfit. lia.
Qed.

(** X5.  An axis saturates: after a poll, an axis whose reading is at or
    below its lower bound (and below the upper one) reads exactly -1.0,
    and an axis whose reading is at or above its upper bound (and above
    the lower one) reads exactly 1.0, as long as the distance from the
    reading to the other bound fits an [int]. *)
Theorem axis_saturates (hid : hid_values) (g g' : nativeGamepad) (i : nat) (a : element) :
  update hid g = Some g' ->
  axes g !! i = Some a ->
  (elementValue hid g a <= minimum a -> elementValue hid g a < maximum a ->
   maximum a - elementValue hid g a <= GoInt.max_int ->
   axisValue g' (Z.of_nat i) = Some (Float64.of_int (-1), g')) /\
  (maximum a <= elementValue hid g a -> minimum a < elementValue hid g a ->
   elementValue hid g a - minimum a <= GoInt.max_int ->
   axisValue g' (Z.of_nat i) = Some (Float64.of_int 1, g')).
Proof.
  intros Hu Ha. split; intros H1 H2 H3; apply axisValue_in_range;
    rewrite (update_axisValues hid g g' i a Hu Ha); unfold axis_body; f_equal.
  - apply axis_value_low; assumption.
  - apply axis_value_high; assumption.
Qed.

Lemma axis_saturates_witness :
  axisValue (default sample_pad (update (hid_reads (-3)) sample_pad)) 0
    = Some (Float64.of_int (-1), default sample_pad (update (hid_reads (-3)) sample_pad)) /\
  axisValue (default sample_pad (update (hid_reads 300) sample_pad)) 0
    = Some (Float64.of_int 1, default sample_pad (update (hid_reads 300) sample_pad)).
Proof.
  split.
  - apply (proj1 (axis_saturates (hid_reads (-3)) sample_pad _ 0%nat sample_axis
                    eq_refl eq_refl)); vm_compute; congruence.
  - apply (proj2 (axis_saturates (hid_reads 300) sample_pad _ 0%nat sample_axis
                    eq_refl eq_refl)); vm_compute; congruence.
Defined.

(** X6.  The axis value is monotone in the reading: of two readings of the
    same axis the larger never gives the smaller value, the readings
    outside the bounds included, as long as the range that holds the
    bounds and both readings fits an [int]. *)
Theorem axis_monotone (hid1 hid2 : hid_values) (g : nativeGamepad) (a : element) :
  elementValue hid1 g a <= elementValue hid2 g a ->
  Z.max (maximum a) (elementValue hid2 g a) - Z.min (minimum a) (elementValue hid1 g a)
    <= GoInt.max_int ->
  exists q1 q2 : Q,
    Float64.toQ (axis_body hid1 g a) = Some q1 /\
    Float64.toQ (axis_body hid2 g a) = Some q2 /\
    (q1 <= q2)%Q.
Proof.
  unfold axis_body.
  set (raw1 := elementValue hid1 g a). set (raw2 := elementValue hid2 g a).
  intros Hle Hfit.
  destruct (widen_bounds raw1 a) as [Wl1 Wu1]. destruct (widen_bounds raw2 a) as [Wl2 Wu2].
  destruct (axis_value_bounds raw1 (widen raw1 a) (widen_encloses raw1 a) ltac:(lia))
    as (q1 & E1 & L1 & U1).
  destruct (axis_value_bounds raw2 (widen raw2 a) (widen_encloses raw2 a) ltac:(lia))
    as (q2 & E2 & L2 & U2).
  exists q1, q2. split; [exact E1|]. split; [exact E2|].
  destruct (decide (raw1 <= minimum a /\ raw1 < maximum a)) as [[A1 A2]|NA].
  { rewrite axis_value_low in E1 by lia.
    destruct (toQ_of_int_small (-1) ltac:(vm_compute; reflexivity)) as (p & F & V).
    rewrite E1 in F. injection F as <-. rewrite V. exact L2. }
  destruct (decide (maximum a <= raw2 /\ minimum a < raw2)) as [[B1 B2]|NB].
  { rewrite axis_value_high in E2 by lia.
    destruct (toQ_of_int_small 1 ltac:(vm_compute; reflexivity)) as (p & F & V).
    rewrite E2 in F. injection F as <-. rewrite V. exact U1. }
  destruct (decide (minimum a < maximum a)) as [Lt|Ge].
  - pose proof (axis_value_within raw1 a ltac:(lia) Lt ltac:(lia)) as R1.
    pose proof (axis_value_within raw2 a ltac:(lia) Lt ltac:(lia)) as R2.
    destruct (represents_toQ _ _ R1) as (p1 & F1 & V1).
    destruct (represents_toQ _ _ R2) as (p2 & F2 & V2).
    rewrite E1 in F1. rewrite E2 in F2. injection F1 as <-. injection F2 as <-.
    rewrite V1, V2. apply formula_mono; lia.
  - rewrite axis_value_flat in E1 by lia. rewrite axis_value_flat in E2 by lia.
    injection E1 as <-. injection E2 as <-. apply Qle_refl.
Qed.

Lemma axis_monotone_witness :
  exists q1 q2 : Q,
    Float64.toQ (axis_body (hid_reads 100) sample_pad sample_axis) = Some q1 /\
    Float64.toQ (axis_body (hid_reads 200) sample_pad sample_axis) = Some q2 /\
    (q1 <= q2)%Q.
Proof.
  apply (axis_monotone (hid_reads 100) (hid_reads 200) sample_pad sample_axis);
    vm_compute; congruence.
Defined.

End AxisShape.

(** *** The accuracy of the axis value *)

Section AxisAccuracy.
Import Rounding RoundingFacts Float64Facts.
Local Open Scope Q_scope.

Lemma rne_error (y : Q) : - (1 # 2) <= inject_Z (rne y) - y /\ inject_Z (rne y) - y <= 1 # 2.
Proof.
  pose proof (Qfloor_le y) as Hl. pose proof (Qlt_floor y) as Hu.
  rewrite inject_Z_plus in Hu. change (inject_Z 1) with 1 in Hu.
  unfold rne. destruct (Qcompare_spec (y - inject_Z (Qfloor y)) (1 # 2)) as [E|L|G].
  - destruct (Z.even (Qfloor y)).
    + split; lra.
    + rewrite inject_Z_plus. change (inject_Z 1) with 1. split; lra.
  - split; lra.
  - rewrite inject_Z_plus. change (inject_Z 1) with 1. split; lra.
Qed.

Lemma rnd_at_error (e : Z) (x : Q) :
  - 2 ^ (e - 1) <= rnd_at e x - x /\ rnd_at e x - x <= 2 ^ (e - 1).
Proof.
  unfold rnd_at. pose proof (pow2_pos e) as P. pose proof (pow2_pos (e - 1)) as P'.
  assert (H2 : 2 ^ e == 2 * 2 ^ (e - 1)).
  { rewrite <- pow2_succ. f_equiv. lia. }
  destruct (rne_error (x / 2 ^ e)) as [L U].
  set (r := inject_Z (rne (x / 2 ^ e))) in *.
  assert (X : x == (x / 2 ^ e) * 2 ^ e) by (field; apply pow2_neq0).
  set (y := x / 2 ^ e) in *.
  assert (D : r * 2 ^ e - x == (r - y) * 2 ^ e) by (rewrite X at 1; ring).
  rewrite D.
  assert (Lb : - (1 # 2) * 2 ^ e <= (r - y) * 2 ^ e).
  { apply Qmult_le_compat_r; [exact L | lra]. }
  assert (Ub : (r - y) * 2 ^ e <= (1 # 2) * 2 ^ e).
  { apply Qmult_le_compat_r; [exact U | lra]. }
  split; lra.
Qed.

Lemma round_pos_error_below (x : Q) (k : Z) :
  0 < x -> x < 2 ^ (k + 1) ->
  - 2 ^ (k - 53) <= round_pos x - x /\ round_pos x - x <= 2 ^ (k - 53).
Proof.
  intros Hx Hk. destruct (ilog2_spec x Hx) as [Hlo _].
  assert (I : (ilog2 x < k + 1)%Z).
  { apply (Qpower_lt_compat_l_inv 2); [lra | reflexivity]. }
  unfold round_pos, prec.
  destruct (rnd_at_error (ilog2 x - (53 - 1)) x) as [L U].
  pose proof (pow2_le (ilog2 x - (53 - 1) - 1) (k - 53) ltac:(lia)) as M.
  split; lra.
Qed.

Lemma round_pos_error (x : Q) (k : Z) :
  0 < x -> x <= 2 ^ k ->
  - 2 ^ (k - 53) <= round_pos x - x /\ round_pos x - x <= 2 ^ (k - 53).
Proof.
  intros Hx Hk. destruct (ilog2_spec x Hx) as [Hlo _].
  assert (I : (ilog2 x <= k)%Z).
  { apply (Qpower_le_compat_l_inv 2); [lra | reflexivity]. }
  unfold round_pos, prec.
  destruct (rnd_at_error (ilog2 x - (53 - 1)) x) as [L U].
  pose proof (pow2_le (ilog2 x - (53 - 1) - 1) (k - 53) ltac:(lia)) as M.
  split; lra.
Qed.

(** A rounding moves a number of magnitude at most [2 ^ k] by at most
    [2 ^ (k - 53)]. *)
Lemma round_error (x : Q) (k : Z) :
  - 2 ^ k <= x -> x <= 2 ^ k ->
  - 2 ^ (k - 53) <= round x - x /\ round x - x <= 2 ^ (k - 53).
Proof.
  intros Hl Hu. pose proof (pow2_pos (k - 53)) as P.
  destruct (Qlt_le_dec 0 x) as [Pos|NPos].
  - rewrite (round_gt0 x Pos). apply round_pos_error; assumption.
  - destruct (Qlt_le_dec x 0) as [Neg|NNeg].
    + rewrite (round_lt0 x Neg).
      destruct (round_pos_error (- x) k ltac:(lra) ltac:(lra)) as [L U]. split; lra.
    + assert (Z : x == 0) by lra. rewrite (round_eq0 x Z). split; lra.
Qed.

Local Open Scope Z_scope.

(** X7.  The axis value is accurate: for a reading within bounds whose
    width is positive and below [2 ^ 53], the value [update] computes
    differs from the exact [2 * (raw - min) / (max - min) - 1] by at most
    [2 ^ -52]. *)
Theorem axis_value_accurate (hid : hid_values) (g : nativeGamepad) (a : element) :
  let raw := elementValue hid g a in
  let lo := minimum (widen raw a) in
  let hi := maximum (widen raw a) in
  0 < hi - lo < 2 ^ 53 ->
  exists q : Q,
    Float64.toQ (axis_body hid g a) = Some q /\
    (Qabs (q - (2 * inject_Z (raw - lo) / inject_Z (hi - lo) - 1)) <= 2 ^ (-52))%Q.
Proof.
  intros raw lo hi Hw. unfold axis_body. fold raw.
  pose proof (widen_encloses raw a) as He. fold lo hi in He.
  unfold axis_value. fold lo hi. unfold GoInt.sub.
  assert (Hmin : GoInt.min_int <= 0) by (unfold GoInt.min_int; lia).
  assert (Hmax : 2 ^ 53 <= GoInt.max_int) by (unfold GoInt.max_int; lia).
  rewrite (wrap_fits (hi - lo)), (wrap_fits (raw - lo)) by lia.
  destruct (Z.eqb_spec (hi - lo) 0) as [E|NE]; [lia|].
  set (d := raw - lo) in *. set (s := hi - lo) in *.
  destruct (represents_toQ _ _ (formula_correct d s ltac:(lia) ltac:(lia))) as (q & Eq & Vq).
  exists q. split; [exact Eq|]. rewrite Vq. clear Eq Vq q.
  unfold sub, div, mul.
  assert (Rd : of_int d == inject_Z d) by (apply of_int_small; lia).
  assert (Rs : of_int s == inject_Z s) by (apply of_int_small; lia).
  assert (Ht : (round (2 * of_int d) == 2 * inject_Z d)%Q).
  { rewrite round_double. unfold of_int. rewrite round_idem. fold (of_int d). rewrite Rd.
    reflexivity. }
  assert (Sp : (0 < inject_Z s)%Q) by (change 0%Q with (inject_Z 0); rewrite <- Zlt_Qlt; lia).
  assert (Dp : (0 <= inject_Z d)%Q) by (change 0%Q with (inject_Z 0); rewrite <- Zle_Qle; lia).
  assert (Ds : (inject_Z d <= inject_Z s)%Q) by (rewrite <- Zle_Qle; lia).
  set (x := (2 * inject_Z d / inject_Z s)%Q).
  assert (Hx : (round (2 * of_int d) / of_int s == x)%Q).
  { unfold x. rewrite Ht, Rs. reflexivity. }
  rewrite (round_comp _ _ Hx).
  assert (X0 : (0 <= x)%Q) by (unfold x; apply Qle_shift_div_l; lra).
  assert (X2 : (x <= 2)%Q) by (unfold x; apply Qle_shift_div_r; lra).
  assert (E1 : (- 2 ^ (0 - 53) <= round x - x /\ round x - x <= 2 ^ (0 - 53))%Q).
  { pose proof (pow2_pos (0 - 53)) as P.
    destruct (Qlt_le_dec 0 x) as [Pos|NPos].
    - destruct (Qlt_le_dec x 2) as [Lt|Ge].
      + rewrite (round_gt0 x Pos). apply round_pos_error_below; [exact Pos | exact Lt].
      + assert (Z2 : (x == inject_Z 2)%Q) by (change (inject_Z 2) with 2%Q; lra).
        rewrite (round_comp _ _ Z2), (round_Z 2) by (vm_compute; reflexivity).
        rewrite Z2. split; lra.
    - assert (Z0 : (x == 0)%Q) by lra. rewrite (round_eq0 x Z0). split; lra. }
  destruct E1 as [L1 U1].
  destruct (round_between 0 2 x eq_refl eq_refl X0 X2) as [Q0 Q2].
  destruct (round_error (round x - 1) 0 ltac:(change (2 ^ 0)%Q with 1%Q; lra)
              ltac:(change (2 ^ 0)%Q with 1%Q; lra)) as [L2 U2].
  assert (P : (2 ^ (0 - 53) + 2 ^ (0 - 53) == 2 ^ (-52))%Q) by reflexivity.
  apply Qabs_Qle_condition. split; lra.
Qed.

Lemma axis_value_accurate_witness :
  exists q : Q,
    Float64.toQ (axis_body (hid_reads 128) sample_pad sample_axis) = Some q /\
    (Qabs (q - (2 * inject_Z (128 - 0) / inject_Z (255 - 0) - 1)) <= 2 ^ (-52))%Q.
Proof.
  apply (axis_value_accurate (hid_reads 128) sample_pad sample_axis).
  vm_compute. split; reflexivity.
Defined.

End AxisAccuracy.

(** *** The sort interface of [elements] *)

Section SortInterface.
Local Open Scope Z_scope.

(** X8.  [Less] is a strict weak order on the pair (usage, index), as
    [sort.Stable] needs: no element is less than itself, two elements are
    never less than one another, [Less] is transitive, and two elements
    that [Less] does not order have the same usage and the same index. *)
Theorem Less_strict_order (a b c : element) :
  Less a a = false /\
  (Less a b = true -> Less b a = false) /\
  (Less a b = true -> Less b c = true -> Less a c = true) /\
  (Less a b = false -> Less b a = false -> usage a = usage b /\ index a = index b).
Proof.
  unfold Less.
  destruct (Z.eqb_spec (usage a) (usage a)) as [_|N]; [|contradiction].
  destruct (Z.eqb_spec (index a) (index a)) as [_|N]; [|contradiction].
  destruct (Z.eqb_spec (usage a) (usage b)), (Z.eqb_spec (usage b) (usage a)),
    (Z.eqb_spec (usage b) (usage c)), (Z.eqb_spec (usage a) (usage c)),
    (Z.eqb_spec (index a) (index b)), (Z.eqb_spec (index b) (index a)),
    (Z.eqb_spec (index b) (index c)), (Z.eqb_spec (index a) (index c));
    cbn [negb]; rewrite ?Z.ltb_lt, ?Z.ltb_ge; repeat split; intros;
    try discriminate; lia.
Qed.

Lemma Swap_in_range (e : elements) (i j : Z) :
  0 <= i < Len e -> 0 <= j < Len e ->
  exists a b, e !! Z.to_nat i = Some a /\ e !! Z.to_nat j = Some b /\
    Swap e i j = Some (<[Z.to_nat j := a]> (<[Z.to_nat i := b]> e)).
Proof.
  unfold Len. intros Hi Hj.
  destruct (lookup_lt_is_Some_2 e (Z.to_nat i) ltac:(lia)) as [a Ha].
  destruct (lookup_lt_is_Some_2 e (Z.to_nat j) ltac:(lia)) as [b Hb].
  exists a, b. split; [exact Ha|]. split; [exact Hb|].
  unfold Swap. replace ((i <? 0) || (j <? 0)) with false
    by (symmetry; apply orb_false_iff; split; apply Z.ltb_ge; lia).
  rewrite Ha, Hb. reflexivity.
Qed.

(** X9.  [Swap] with two indices in range exchanges the two elements and
    touches nothing else: the length stays, every other position keeps its
    element, and a second [Swap] of the same indices restores the slice.
    With an index out of range it panics. *)
Theorem Swap_exchanges (e : elements) (i j : Z) :
  (0 <= i < Len e -> 0 <= j < Len e ->
   exists e',
     Swap e i j = Some e' /\
     Len e' = Len e /\
     e' !! Z.to_nat i = e !! Z.to_nat j /\
     e' !! Z.to_nat j = e !! Z.to_nat i /\
     (forall k : nat, k <> Z.to_nat i -> k <> Z.to_nat j -> e' !! k = e !! k) /\
     Swap e' i j = Some e) /\
  (~ (0 <= i < Len e /\ 0 <= j < Len e) -> Swap e i j = None).
Proof.
  split.
  - intros Hi Hj.
    destruct (Swap_in_range e i j Hi Hj) as (a & b & Ha & Hb & Hs).
    set (e' := <[Z.to_nat j := a]> (<[Z.to_nat i := b]> e)) in *.
    assert (Li : (Z.to_nat i < length e)%nat) by (unfold Len in Hi; lia).
    assert (Lj : (Z.to_nat j < length e)%nat) by (unfold Len in Hj; lia).
    assert (Hlen : Len e' = Len e).
    { unfold Len, e'. rewrite !length_insert. reflexivity. }
    assert (Hj' : e' !! Z.to_nat j = Some a).
    { unfold e'. apply list_lookup_insert_eq. rewrite length_insert. exact Lj. }
    assert (Hi' : e' !! Z.to_nat i = Some b).
    { unfold e'. destruct (decide (Z.to_nat i = Z.to_nat j)) as [E|NE].
      - rewrite E in *. rewrite list_lookup_insert_eq by (rewrite length_insert; exact Lj).
        congruence.
      - rewrite list_lookup_insert_ne by congruence.
        apply list_lookup_insert_eq. exact Li. }
    assert (Hk : forall k : nat, k <> Z.to_nat i -> k <> Z.to_nat j -> e' !! k = e !! k).
    { intros k Ni Nj. unfold e'. rewrite !list_lookup_insert_ne by congruence. reflexivity. }
    exists e'. split; [exact Hs|]. split; [exact Hlen|].
    split; [congruence|]. split; [congruence|]. split; [exact Hk|].
    destruct (Swap_in_range e' i j ltac:(lia) ltac:(lia)) as (a' & b' & Ha' & Hb' & ->).
    f_equal. apply list_eq. intros k.
    destruct (decide (k = Z.to_nat j)) as [->|Nj].
    + rewrite list_lookup_insert_eq by (rewrite length_insert; unfold Len in Hlen; lia).
      congruence.
    + rewrite list_lookup_insert_ne by congruence.
      destruct (decide (k = Z.to_nat i)) as [->|Ni].
      * rewrite list_lookup_insert_eq by (unfold Len in Hlen; lia). congruence.
      * rewrite list_lookup_insert_ne by congruence. apply Hk; assumption.
  - intros N. unfold Swap, Len in *.
    destruct (Z.ltb_spec i 0) as [|Hi]; [reflexivity|].
    destruct (Z.ltb_spec j 0) as [|Hj]; [reflexivity|]. cbn [orb].
    destruct (e !! Z.to_nat i) as [a|] eqn:Ha; [|reflexivity].
    destruct (e !! Z.to_nat j) as [b|] eqn:Hb; [|reflexivity].
    apply lookup_lt_Some in Ha, Hb. lia.
Qed.

Lemma Swap_exchanges_witness :
  exists e',
    Swap [sample_axis; sample_button; sample_hat] 0 2 = Some e' /\
    Len e' = Len [sample_axis; sample_button; sample_hat] /\
    e' !! Z.to_nat 0 = [sample_axis; sample_button; sample_hat] !! Z.to_nat 2 /\
    e' !! Z.to_nat 2 = [sample_axis; sample_button; sample_hat] !! Z.to_nat 0 /\
    (forall k : nat, k <> Z.to_nat 0 -> k <> Z.to_nat 2 ->
       e' !! k = [sample_axis; sample_button; sample_hat] !! k) /\
    Swap e' 0 2 = Some [sample_axis; sample_button; sample_hat].
Proof.
  apply (proj1 (Swap_exchanges [sample_axis; sample_button; sample_hat] 0 2));
    vm_compute; split; congruence.
Defined.

End SortInterface.

(** *** What the classification puts in the buckets *)

Section Buckets.
Local Open Scope nat_scope.

(** X10.  The loop over the elements of a device appends to each bucket
    exactly the elements the tests select for it, in the order of the
    device's list, each with its reference, usage and logical bounds and
    numbered from the length the bucket had; it touches neither the device
    reference nor the value buffers.  An element the tests select for no
    bucket leaves no trace, and no element goes to two buckets. *)
Theorem classification_contents (es : list hid_element) (g : nativeGamepad) :
  classify_all es g =
    NativeGamepad (device g)
      (axes g ++ imap (λ i, numbered (length (axes g) + i)) (selected Axis es))
      (buttons g ++ imap (λ i, numbered (length (buttons g) + i)) (selected Button es))
      (hats g ++ imap (λ i, numbered (length (hats g) + i)) (selected Hat es))
      (axisValues g) (buttonValues g) (hatValues g) /\
  classify_all (filter (λ e, is_Some (bucket_of e)) es) g = classify_all es g /\
  length (selected Axis es) + length (selected Button es) + length (selected Hat es)
    = length (filter (λ e, is_Some (bucket_of e)) es).
Proof.
  split; [apply classify_contents|]. split.
  - rewrite !classify_contents. unfold selected. rewrite !list_filter_filter.
    f_equal; f_equal; f_equal; apply list_filter_iff; intros e; split;
      try (intros [H _]; exact H); intros H; (split; [exact H | rewrite H; eauto]).
  - unfold selected. induction es as [|e es IH]; [reflexivity|].
    rewrite !filter_cons.
    destruct (bucket_of e) as [[| |]|]; repeat case_decide;
      try congruence; try (exfalso; eauto; fail);
      try match goal with H : ¬ is_Some (Some _) |- _ => exfalso; apply H; eauto end;
      try match goal with H : is_Some None |- _ => exfalso; destruct H; discriminate end;
      cbn [length]; lia.
Qed.

Lemma index_numbered (n : nat) (l : list hid_element) :
  index <$> imap (λ i, numbered (n + i)) l = Z.of_nat <$> seq n (length l).
Proof.
  revert n. induction l as [|e l IH]; intros n; [reflexivity|].
  rewrite imap_numbered_cons. cbn [length seq]. rewrite !fmap_cons, IH. reflexivity.
Qed.

Lemma index_sorted (l : list hid_element) :
  index <$> stable_sort (imap numbered l) ≡ₚ Z.of_nat <$> seq 0 (length l).
Proof.
  rewrite stable_sort_perm. rewrite <- (index_numbered 0 l). reflexivity.
Qed.

(** X11.  After the attach callback has sorted the buckets, the indexes of
    each bucket are the numbers from 0 to its length less one, each once:
    within a bucket an index names one element. *)
Theorem bucket_indexes (es : list hid_element) (dev : IOHIDDeviceRef) :
  let g := sort_buckets (classify_all es (set_device dev new_nativeGamepad)) in
  index <$> axes g ≡ₚ Z.of_nat <$> seq 0 (length (axes g)) /\
  index <$> buttons g ≡ₚ Z.of_nat <$> seq 0 (length (buttons g)) /\
  index <$> hats g ≡ₚ Z.of_nat <$> seq 0 (length (hats g)).
Proof.
  cbv zeta. rewrite classify_fresh. cbn [sort_buckets axes buttons hats].
  rewrite !(Permutation_length (stable_sort_perm _)), !length_imap.
  repeat split; apply index_sorted.
Qed.

Lemma bucket_of_hat (e : hid_element) :
  bucket_of e = Some Hat -> elem_usage e = kHIDUsage_GD_Hatswitch.
Proof.
  unfold bucket_of.
  repeat match goal with
         | |- context [if ?c then _ else _] => destruct c eqn:?
         end; try discriminate.
  intros _.
  match goal with H : case_of _ [kHIDUsage_GD_Hatswitch] = true |- _ =>
    cbn in H; rewrite orb_false_r in H; apply Z.eqb_eq in H; exact H end.
Qed.

(** A bucket in which [Less] finds no later element less than an earlier
    one is left as it is by the sort. *)
Lemma stable_sort_ordered (l : elements) :
  (forall (i j : nat) (a b : element),
     (i < j)%nat -> l !! i = Some a -> l !! j = Some b -> Less b a = false) ->
  stable_sort l = l.
Proof.
  induction l as [|a l IH]; intros H; [reflexivity|].
  cbn [stable_sort]. rewrite IH.
  - destruct l as [|b l]; [reflexivity|]. cbn [stable_insert].
    rewrite (H 0%nat 1%nat a b); [reflexivity | lia | reflexivity | reflexivity].
  - intros i j x y Hij Hi Hj. apply (H (S i) (S j) x y); [lia | exact Hi | exact Hj].
Qed.

(** X12.  The hats keep the order of discovery: every element of the hat
    bucket is a hat switch, so the sort of the attach callback leaves the
    bucket as the loop filled it, and hat [i] is the [i]-th hat switch of
    the device's list. *)
Theorem hats_in_discovery_order (es : list hid_element) (dev : IOHIDDeviceRef) :
  hats (sort_buckets (classify_all es (set_device dev new_nativeGamepad)))
    = imap numbered (selected Hat es) /\
  Forall (λ h, usage h = kHIDUsage_GD_Hatswitch)
    (hats (sort_buckets (classify_all es (set_device dev new_nativeGamepad)))).
Proof.
  rewrite classify_fresh. cbn [sort_buckets hats].
  assert (U : Forall (λ h, usage h = kHIDUsage_GD_Hatswitch) (imap numbered (selected Hat es))).
  { apply Forall_lookup. intros i h Hh. apply list_lookup_imap_Some in Hh as (e & He & ->).
    cbn [numbered usage]. apply bucket_of_hat.
    apply list_elem_of_lookup_2 in He. unfold selected in He.
    apply list_elem_of_filter in He as [He _]. exact He. }
  assert (S : stable_sort (imap numbered (selected Hat es)) = imap numbered (selected Hat es)).
  { apply stable_sort_ordered. intros i j a b Hij Ha Hb.
    pose proof (Forall_lookup_1 _ _ _ _ U Ha) as Ua.
    pose proof (Forall_lookup_1 _ _ _ _ U Hb) as Ub.
    apply list_lookup_imap_Some in Ha as (ea & _ & ->).
    apply list_lookup_imap_Some in Hb as (eb & _ & ->).
    apply Less_false_key_le. right. cbn [numbered usage index] in *. split; [congruence | lia]. }
  rewrite S. split; [reflexivity | exact U].
Qed.

End Buckets.

(** *** When two devices share an identifier *)

Section Collisions.
Local Open Scope Z_scope.

Lemma hex_bytes_inj (l l' : list Z) :
  Forall is_byte l -> Forall is_byte l' -> hex_bytes l = hex_bytes l' -> l = l'.
Proof.
  intros H H' E. apply (f_equal unhex) in E.
  rewrite !unhex_hex_bytes in E by assumption. congruence.
Qed.

Lemma low16_bytes (v v' : Z) :
  v mod 2 ^ 16 = v' mod 2 ^ 16 <->
  GoInt.byte v = GoInt.byte v' /\ GoInt.byte (v ≫ 8) = GoInt.byte (v' ≫ 8).
Proof.
  rewrite <- !bytes_little_endian.
  pose proof (byte_is_byte v). pose proof (byte_is_byte v').
  pose proof (byte_is_byte (v ≫ 8)). pose proof (byte_is_byte (v' ≫ 8)).
  unfold is_byte in *. lia.
Qed.

Lemma ids_bytes (v p w : Z) :
  Forall is_byte [3; 0; 0; 0;
                  GoInt.byte v; GoInt.byte (v ≫ 8); 0; 0;
                  GoInt.byte p; GoInt.byte (p ≫ 8); 0; 0;
                  GoInt.byte w; GoInt.byte (w ≫ 8); 0; 0].
Proof.
  repeat (apply Forall_cons; split; [first [apply byte_is_byte | unfold is_byte; lia]|]).
  apply Forall_nil_2.
Qed.

Lemma name_id_bytes (name : string) : Forall is_byte ([5; 0; 0; 0] ++ name_bytes name).
Proof.
  apply Forall_app. split; [|apply name_bytes_bytes].
  repeat (apply Forall_cons; split; [unfold is_byte; lia|]). apply Forall_nil_2.
Qed.

Lemma sdlID_of_name_bytes (name : string) (vendor product version : Z) :
  vendor = 0 \/ product = 0 ->
  sdlID name vendor product version = Some (hex_bytes ([5; 0; 0; 0] ++ name_bytes name)).
Proof. intros H. rewrite sdlID_of_name by exact H. reflexivity. Qed.

(** X13.  Two devices get the same identifier in two cases only: both
    have a vendor and a product other than zero, and their vendors, their
    products and their versions agree on the low 16 bits; or both have a
    zero vendor or product, and their names agree on the twelve bytes the
    identifier shows.  An identifier made from the ids is never one made
    from a name. *)
Theorem sdlID_collision (name name' : string) (v p w v' p' w' : Z) :
  sdlID name v p w = sdlID name' v' p' w' <->
  (v <> 0 /\ p <> 0 /\ v' <> 0 /\ p' <> 0 /\
   v mod 2 ^ 16 = v' mod 2 ^ 16 /\ p mod 2 ^ 16 = p' mod 2 ^ 16 /\
   w mod 2 ^ 16 = w' mod 2 ^ 16) \/
  ((v = 0 \/ p = 0) /\ (v' = 0 \/ p' = 0) /\ name_bytes name = name_bytes name').
Proof.
  rewrite !low16_bytes.
  destruct (decide (v = 0 \/ p = 0)) as [Hz|NZ];
    destruct (decide (v' = 0 \/ p' = 0)) as [Hz'|NZ'].
  - rewrite (sdlID_of_name_bytes name v p w Hz), (sdlID_of_name_bytes name' v' p' w' Hz').
    split.
    + intros E. apply (inj Some) in E. right. split; [exact Hz|]. split; [exact Hz'|].
      apply hex_bytes_inj in E; [|apply name_id_bytes..].
      apply app_inv_head in E. exact E.
    + intros [H | (_ & _ & ->)]; [exfalso; lia | reflexivity].
  - rewrite (sdlID_of_name_bytes name v p w Hz).
    rewrite (sdlID_of_ids name' v' p' w') by lia.
    split.
    + intros E. apply (inj Some) in E. apply hex_bytes_inj in E; [|apply name_id_bytes | apply ids_bytes].
      discriminate E.
    + intros [H | H]; exfalso; lia.
  - rewrite (sdlID_of_ids name v p w) by lia.
    rewrite (sdlID_of_name_bytes name' v' p' w' Hz').
    split.
    + intros E. apply (inj Some) in E. apply hex_bytes_inj in E; [|apply ids_bytes | apply name_id_bytes].
      discriminate E.
    + intros [H | H]; exfalso; lia.
  - rewrite (sdlID_of_ids name v p w) by lia.
    rewrite (sdlID_of_ids name' v' p' w') by lia.
    split.
    + intros E. apply (inj Some) in E. apply hex_bytes_inj in E; [|apply ids_bytes..].
      injection E as E1 E2 E3 E4 E5 E6. left. repeat split; first [lia | assumption].
    + intros [(_ & _ & _ & _ & (-> & ->) & (-> & ->) & (-> & ->)) | H];
        [reflexivity | exfalso; lia].
Qed.

End Collisions.

(** *** The state of the user interface *)

Section UserInterfaceFacts.
Import UI.
Local Open Scope Z_scope.
Context {Error : Type}.
Implicit Types (u : UserInterface Error) (cs : list (call Error)).

Lemma quot_fits (d k : Z) :
  0 < k -> GoInt.min_int <= d <= GoInt.max_int -> GoInt.wrap (Z.quot d k) = Z.quot d k.
Proof.
  intros Hk Hd. apply wrap_fits.
  pose proof (Z.quot_rem' d k) as E.
  assert (Hmin : GoInt.min_int <= 0) by (unfold GoInt.min_int; lia).
  assert (Hmax : 0 <= GoInt.max_int) by (unfold GoInt.max_int; lia).
  destruct (Z.le_ge_cases 0 d) as [P|N].
  - pose proof (Z.rem_bound_pos_pos d k Hk P). pose proof (Z.quot_pos d k P Hk). nia.
  - pose proof (Z.rem_bound_pos_neg d k Hk N).
    assert (Z.quot d k <= 0) by nia. nia.
Qed.

(** X14.  [InitialWindowPosition] centres horizontally and leaves a third
    of the free height above.  For a window that fits the monitor the
    position is not negative, the right margin is the left one or one
    more, and the bottom margin is twice the top one, up to two more.  For
    a window larger than the monitor the position is not positive and the
    overhang is split the same way, the division rounding towards the
    monitor's origin. *)
Theorem InitialWindowPosition_centres (mw mh ww wh : Z) :
  GoInt.min_int <= mw - ww <= GoInt.max_int ->
  GoInt.min_int <= mh - wh <= GoInt.max_int ->
  let '(x, y) := InitialWindowPosition mw mh ww wh in
  (ww <= mw -> 0 <= x /\ x <= mw - (x + ww) <= x + 1) /\
  (mw <= ww -> x <= 0 /\ x - 1 <= mw - (x + ww) <= x) /\
  (wh <= mh -> 0 <= y /\ 2 * y <= mh - (y + wh) <= 2 * y + 2) /\
  (mh <= wh -> y <= 0 /\ 2 * y - 2 <= mh - (y + wh) <= 2 * y).
Proof.
  intros Hw Hh. unfold InitialWindowPosition, div, GoInt.sub.
  rewrite (wrap_fits (mw - ww)), (wrap_fits (mh - wh)) by assumption.
  rewrite !quot_fits by (try assumption; lia).
  pose proof (Z.quot_rem' (mw - ww) 2) as Ex.
  pose proof (Z.quot_rem' (mh - wh) 3) as Ey.
  assert (Rx : 0 <= mw - ww /\ 0 <= Z.rem (mw - ww) 2 < 2 \/
               mw - ww <= 0 /\ - 2 < Z.rem (mw - ww) 2 <= 0).
  { destruct (Z.le_ge_cases 0 (mw - ww)) as [P|N]; [left | right]; (split; [assumption|]).
    - apply Z.rem_bound_pos_pos; lia.
    - pose proof (Z.rem_bound_pos_neg _ 2 ltac:(lia) N). lia. }
  assert (Ry : 0 <= mh - wh /\ 0 <= Z.rem (mh - wh) 3 < 3 \/
               mh - wh <= 0 /\ - 3 < Z.rem (mh - wh) 3 <= 0).
  { destruct (Z.le_ge_cases 0 (mh - wh)) as [P|N]; [left | right]; (split; [assumption|]).
    - apply Z.rem_bound_pos_pos; lia.
    - pose proof (Z.rem_bound_pos_neg _ 3 ltac:(lia) N). lia. }
  split; [|split; [|split]]; intros H; lia.
Qed.

Lemma InitialWindowPosition_centres_witness :
  let '(x, y) := InitialWindowPosition 1920 1080 640 1201 in
  (640 <= 1920 -> 0 <= x /\ x <= 1920 - (x + 640) <= x + 1) /\
  (1920 <= 640 -> x <= 0 /\ x - 1 <= 1920 - (x + 640) <= x) /\
  (1201 <= 1080 -> 0 <= y /\ 2 * y <= 1080 - (y + 1201) <= 2 * y + 2) /\
  (1080 <= 1201 -> y <= 0 /\ 2 * y - 2 <= 1080 - (y + 1201) <= 2 * y).
Proof.
  apply (InitialWindowPosition_centres 1920 1080 640 1201); vm_compute; intuition discriminate.
Defined.

(** X15.  The first error wins: after any sequence of [setError] calls
    [error] answers the error the state had, or else the first error of
    the sequence that is not [nil]; [nil] where there is none. *)
Theorem first_error_wins u (es : list (option Error)) :
  error (foldl (λ u e, setError e u) u es) =
    match error u with
    | Some e => Some e
    | None => head (omap id es)
    end.
Proof.
  revert u. induction es as [|e es IH]; intros u.
  - cbn. destruct (error u); reflexivity.
  - cbn [foldl]. rewrite IH. unfold setError, error.
    destruct (err u) as [e0|] eqn:E0.
    + rewrite E0. reflexivity.
    + cbn [err]. destruct e as [e|]; reflexivity.
Qed.

Lemma run_call_terminated u (c : call Error) :
  isTerminated u = true -> isTerminated (run_call u c) = true.
Proof.
  unfold isTerminated. destruct c as [e|b|l|[|]|]; cbn; try (intros H; exact H).
  - unfold setError. destruct (err u); cbn; intros H; exact H.
  - reflexivity.
Qed.

Lemma run_calls_terminated u cs :
  isTerminated u = true -> isTerminated (run_calls u cs) = true.
Proof.
  unfold run_calls. revert u. induction cs as [|c cs IH]; intros u H; [exact H|].
  cbn [foldl]. apply IH, run_call_terminated, H.
Qed.

(** X16.  Termination is final: once [setTerminated] has been called, no
    sequence of calls of the methods of the file makes [isTerminated]
    false or [isRunning] true again. *)
Theorem termination_is_final u cs :
  isTerminated (run_calls (setTerminated u) cs) = true /\
  isRunning (run_calls (setTerminated u) cs) = false.
Proof.
  assert (T : isTerminated (run_calls (setTerminated u) cs) = true)
    by (apply run_calls_terminated; reflexivity).
  split; [exact T|]. unfold isRunning. rewrite T. apply andb_false_r.
Qed.

Lemma isRunning_run_call u (c : call Error) :
  isRunning (run_call u c) =
    match c with
    | CallSetRunning r => r && negb (isTerminated u)
    | CallSetTerminated => false
    | _ => isRunning u
    end.
Proof.
  unfold isRunning, isTerminated. destruct c as [e|b|l|[|]|]; cbn; try reflexivity.
  - unfold setError. destruct (err u); reflexivity.
  - apply andb_false_r.
Qed.

Lemma isTerminated_run_call u (c : call Error) :
  isTerminated (run_call u c) =
    isTerminated u || (if c is CallSetTerminated then true else false).
Proof.
  unfold isTerminated. destruct c as [e|b|l|[|]|]; cbn; rewrite ?orb_false_r, ?orb_true_r;
    try reflexivity.
  unfold setError. destruct (err u); reflexivity.
Qed.

Lemma isTerminated_after_calls u cs :
  isTerminated (run_calls u cs) = isTerminated u || has_setTerminated cs.
Proof.
  unfold run_calls, has_setTerminated.
  induction cs as [|c cs IH] using rev_ind.
  - cbn. rewrite orb_false_r. reflexivity.
  - rewrite foldl_snoc, isTerminated_run_call, IH, existsb_app. cbn [existsb].
    rewrite orb_false_r, orb_assoc. reflexivity.
Qed.

(** X17.  After any sequence of calls [isRunning] answers the argument of
    the last [setRunning] of the sequence, or what the state had where
    there is none, and false as soon as the state was terminated or the
    sequence has a [setTerminated]. *)
Theorem isRunning_after_calls u cs :
  isRunning (run_calls u cs) =
    default (negb (running u =? 0)) (last_setRunning cs)
    && negb (isTerminated u) && negb (has_setTerminated cs).
Proof.
  induction cs as [|c cs IH] using rev_ind.
  - cbn. unfold isRunning. rewrite andb_true_r. reflexivity.
  - unfold run_calls. rewrite foldl_snoc. fold (run_calls u cs).
    rewrite isRunning_run_call.
    unfold last_setRunning, has_setTerminated in *. rewrite omap_app, existsb_app.
    destruct c as [e|b|l|r|]; cbn [omap list_omap existsb orb];
      rewrite ?app_nil_r, ?orb_false_r, ?orb_true_r; try exact IH.
    + rewrite last_snoc. cbn [default].
      rewrite isTerminated_after_calls, negb_orb, andb_assoc. reflexivity.
    + rewrite !andb_false_r. reflexivity.
Qed.

(** X18.  [IsScreenClearedEveryFrame] reads back what was set: after any
    sequence of calls it answers the argument of the last
    [SetScreenClearedEveryFrame] of the sequence, whatever else was called
    in between, and what the state had where there is none. *)
Theorem IsScreenClearedEveryFrame_after_calls u cs :
  IsScreenClearedEveryFrame (run_calls u cs) =
    default (IsScreenClearedEveryFrame u) (last_SetScreenClearedEveryFrame cs).
Proof.
  induction cs as [|c cs IH] using rev_ind; [reflexivity|].
  unfold run_calls. rewrite foldl_snoc. fold (run_calls u cs).
  unfold last_SetScreenClearedEveryFrame in *. rewrite omap_app.
  destruct c as [e|[|]|l|[|]|]; cbn [omap list_omap]; rewrite ?app_nil_r, ?last_snoc;
    try exact IH; try reflexivity.
  rewrite <- IH. unfold IsScreenClearedEveryFrame, run_call, setError.
  destruct (err (run_calls u cs)); reflexivity.
Qed.

End UserInterfaceFacts.

(** *** From the attach callback to the first poll *)

Section AttachThenPoll.
Local Open Scope Z_scope.

(** X19.  The numbers of axes, buttons and hats are those of the value
    buffers, which the attach callback does not touch: classifying and
    sorting the elements of a device leaves the three numbers as they
    were, and the elements count only after the next [update], which
    brings each number to the size of its bucket. *)
Theorem counts_after_attach (hid : hid_values) (es : list hid_element) (g : nativeGamepad) :
  let attached := sort_buckets (classify_all es g) in
  (axisNum attached = axisNum g /\ buttonNum attached = buttonNum g /\
   hatNum attached = hatNum g) /\
  exists g',
    update hid attached = Some g' /\
    axisNum g' = Z.of_nat (length (axes g) + length (selected Axis es)) /\
    buttonNum g' = Z.of_nat (length (buttons g) + length (selected Button es)) /\
    hatNum g' = Z.of_nat (length (hats g) + length (selected Hat es)).
Proof.
  cbv zeta. rewrite classify_contents. split; [repeat split|].
  eexists. split; [apply update_exact|].
  unfold axisNum, buttonNum, hatNum, len.
  cbn [sort_buckets axes buttons hats axisValues buttonValues hatValues elts].
  rewrite !length_fmap, !(Permutation_length (stable_sort_perm _)), !length_app, !length_imap.
  repeat split.
Qed.

End AttachThenPoll.
